(** * The form instance engine of react-json-form-engine

    A shallow embedding of [src/form/form-instance-factory.bak.js] (class
    [Form]): the response model and its single mutation entry point
    [setModelValue], the calculation and default-value cascades, the
    show-condition evaluator, the validation status rollup and the field
    decorator that runs at construction. *)

From Stdlib Require Import ZArith String List Bool Lia Sorted Permutation.
From stdpp Require Import base option list strings gmap pretty.

Set Warnings "-register-all,-clear-no-such-hyp".

Open Scope string_scope.
Open Scope list_scope.

(** ** JavaScript values *)

(** The values that travel through the response model.  Numbers are the
    integers plus the distinguished not-a-number value; [VObj] is a plain
    object, its keys in iteration order. *)
Inductive JsValue : Type :=
| VUndefined
| VNull
| VBool (b : bool)
| VNum (n : Z)
| VNaN
| VStr (s : string)
| VArr (items : list JsValue)
| VObj (props : list (string * JsValue)).

(** [value === undefined] *)
Definition isUndefined (v : JsValue) : bool :=
  match v with VUndefined => true | _ => false end.

(** [value === false] *)
Definition isFalse (v : JsValue) : bool :=
  match v with VBool false => true | _ => false end.

(** [Number.isNaN(value)]: true for the number NaN only, no coercion. *)
Definition Number_isNaN (v : JsValue) : bool :=
  match v with VNaN => true | _ => false end.

(** SameValueZero against a string: only an equal string matches. *)
Definition sameAsString (s : string) (v : JsValue) : bool :=
  match v with VStr s' => String.eqb s' s | _ => false end.

(** [collection.indexOf(s) > -1] on strings. *)
Definition isSubstring (s collection : string) : bool :=
  match String.index 0 s collection with Some _ => true | None => false end.

(** lodash [_.includes(collection, s)] for a string [s]: membership in an
    array, in the values of an object, substring of a string; anything else
    has no values and contains nothing. *)
Definition _includes (collection : JsValue) (s : string) : bool :=
  match collection with
  | VArr items => existsb (sameAsString s) items
  | VObj props => existsb (fun p => sameAsString s (snd p)) props
  | VStr c => isSubstring s c
  | _ => false
  end.

(** lodash [_.isEmpty(value)]: arrays and strings by length, objects by
    their own keys, every other value (null, undefined, numbers, booleans)
    is empty. *)
Definition _isEmpty (v : JsValue) : bool :=
  match v with
  | VArr [] => true
  | VArr (_ :: _) => false
  | VStr s => String.eqb s ""
  | VObj [] => true
  | VObj (_ :: _) => false
  | _ => true
  end.

(** ** Helpers of [common/common] *)

(** Modelled from the spec: [hasValue] of [common/common] is not part of
    the sources at hand.  A value is held unless it is null or undefined
    (the constructor's message for [!hasValue(definition)] reads
    "cannot be null/undefined/empty"). *)
Definition hasValue_spec (v : JsValue) : bool :=
  match v with VUndefined | VNull => false | _ => true end.

(** Modelled from the spec: [__blank] of [common/common] is not part of
    the sources at hand.  Blank means empty string or absent. *)
Definition blank_spec (v : JsValue) : bool :=
  match v with
  | VUndefined | VNull => true
  | VStr s => String.eqb s ""
  | _ => false
  end.

(** ** Fields *)

(** [DATA_TYPE] of [config/form-const]; [OTHER] stands for any type string
    that is none of the five the engine switches on. *)
Inductive DataType : Type :=
| BOOLEAN | NUMBER | STRING | DATE | ARRAY | OTHER (name : string).

(** Expressions are opaque to the engine. *)
Inductive Expr : Type := mkExpr (code : nat).

(** An entry of [defaultValueConditions]. *)
Record ConditionalExpression : Type := mkConditionalExpression {
  ce_condition : Expr;
  ce_expression : Expr
}.

(** [field.definition]: provenance of a synthesized field. *)
Record FieldDefinition : Type := mkFieldDefinition {
  d_type : JsValue;
  d_definitionId : JsValue
}.

(** [option.id] is a string or a number. *)
Inductive OptionId : Type :=
| IdStr (s : string)
| IdNum (n : Z).

(** [option.id.toString()] *)
Definition id_toString (i : OptionId) : string :=
  match i with
  | IdStr s => s
  | IdNum n => pretty n
  end.

(** An option of a field, over the type [F] of fields. *)
Record FieldOption (F : Type) : Type := mkOption {
  o_id : OptionId;
  o_defaultValueConditions : option (list ConditionalExpression);
  o_fields : option (list (string * F))
}.
Arguments mkOption {F}.
Arguments o_id {F}.
Arguments o_defaultValueConditions {F}.
Arguments o_fields {F}.

(** ** Decoration metadata *)

(** An entry of the UI schema; [ui_component] is the [type] of its
    [component] property, the other annotations are opaque. *)
Record UiField : Type := mkUiField {
  ui_component : option string;
  ui_annotations : nat
}.

(** The empty object [{}]. *)
Definition emptyUiField : UiField := mkUiField None 0.

(** Component types and component descriptors of [config/form-config] are
    opaque to the engine. *)
Inductive ComponentType : Type := mkComponentType (key : nat).
Inductive Component : Type := mkComponent (key : nat).

(** [field.pattern]: a string in the definition, a [RegExp] once compiled;
    anything else passes through. *)
Inductive Pattern : Type :=
| PatString (source : string)
| PatRegExp (source : string)
| PatOther (v : JsValue).

(** A field object.  [f_ref] is the identity of the object: [field.dirty]
    is a property of that object and lives in the instance under it.
    Objects ([fields]) are association lists in iteration order; an absent
    property is [None].  The [parent] back-references are not
    represented. *)
Inductive Field : Type := mkField {
  f_ref : nat;
  f_id : option string;
  f_type : option DataType;
  f_calc : bool;
  f_pattern : option Pattern;
  f_definition : option FieldDefinition;
  f_showCondition : option Expr;
  f_defaultValueConditions : option (list ConditionalExpression);
  f_uiField : option UiField;
  f_componentType : option ComponentType;
  f_component : option Component;
  f_fields : option (list (string * Field));
  f_options : option (list (FieldOption Field))
}.

(** ** The form definition *)

Record Subsection : Type := mkSubsection {
  ss_fields : option (list (string * Field))
}.

Record FormSection : Type := mkSection {
  sec_sortOrder : option Z;
  sec_subsections : option (list Subsection)
}.

Record Schema : Type := mkSchema {
  s_sections : option (list FormSection)
}.

(** The definition handed to the factory; every property may be absent. *)
Record FormDefinition : Type := mkDefinition {
  schema : option Schema;
  uiSchema : option (gmap string UiField);
  calcExpressionMap : option (gmap string Expr);
  calcTriggerMap : option (gmap string (list string));
  defaultValueTriggerMap : option (gmap string (list string))
}.

(** ** The instance *)

(** The envelope stored at [model[tag]]. *)
Record ModelEntry : Type := mkEntry {
  e_value : JsValue;
  e_fieldType : option JsValue;
  e_definitionId : option JsValue
}.

(** A [Form] object ([this]): the caller's definition, the
    response model, the decorated copy of the sections, the index of fields
    by tag, and the [dirty] flags of the field objects by identity. *)
Record Form : Type := mkForm {
  definition : FormDefinition;
  model : gmap string ModelEntry;
  sections : list FormSection;
  fields : gmap string Field;
  dirty : gmap nat bool
}.

Definition set_model (m : gmap string ModelEntry) (this : Form) : Form :=
  mkForm (definition this) m (sections this) (fields this) (dirty this).

Definition set_dirty (d : gmap nat bool) (this : Form) : Form :=
  mkForm (definition this) (model this) (sections this) (fields this) d.

Definition set_sections (s : list FormSection) (this : Form) : Form :=
  mkForm (definition this) (model this) s (fields this) (dirty this).

Definition set_fields (f : gmap string Field) (this : Form) : Form :=
  mkForm (definition this) (model this) (sections this) f (dirty this).

Definition set_definition (d : FormDefinition) (this : Form) : Form :=
  mkForm d (model this) (sections this) (fields this) (dirty this).

(** [getModelValue(tag)] *)
Definition getModelValue (this : Form) (tag : string) : JsValue :=
  match model this !! tag with
  | Some e => e_value e
  | None => VUndefined
  end.

(** [getField(tag)] *)
Definition getField (this : Form) (tag : string) : option Field :=
  fields this !! tag.

(** The envelope [setModelValue] builds for a value. *)
Definition envelope (value : JsValue) (field : Field) : ModelEntry :=
  match f_definition field with
  | Some d => mkEntry value (Some (d_type d)) (Some (d_definitionId d))
  | None => mkEntry value None None
  end.

(** The first block of [setModelValue]: the write to the model and to the
    dirty flag. *)
Definition writeModelValue (tag : string) (value : JsValue) (field : Field)
    (this : Form) : Form :=
  if isUndefined value
  then set_dirty (<[f_ref field := false]> (dirty this))
         (set_model (delete tag (model this)) this)
  else set_dirty (<[f_ref field := true]> (dirty this))
         (set_model (<[tag := envelope value field]> (model this)) this).

(** The emptiness test of the [switch (field.type)] in [setModelValue]. *)
Definition emptyForType (blank : JsValue -> bool) (t : option DataType)
    (value : JsValue) : bool :=
  match t with
  | Some BOOLEAN => isFalse value
  | Some NUMBER => Number_isNaN value
  | Some ARRAY => _isEmpty value
  | _ => blank value
  end.

Section Store.

(** The two helpers of [common/common] the store calls. *)
Variable hasValue : JsValue -> bool.
Variable __blank : JsValue -> bool.

(** [setModelValue(tag, value, field)], with [__clearOptionChildren] and
    [__clearFields] as its local loops. *)
Fixpoint setModelValue (tag : string) (value : JsValue) (field : Field)
    (this : Form) {struct field} : Form :=
  let clearFields :=
    fix clearFields (fields : list (string * Field)) (this : Form)
        {struct fields} : Form :=
      match fields with
      | [] => this
      | (t, f) :: rest =>
          clearFields rest
            (if hasValue (getModelValue this t)
             then setModelValue t VUndefined f this
             else this)
      end in
  let clearOptionChildren :=
    fix clearOptionChildren (options : list (FieldOption Field))
        (this : Form) {struct options} : Form :=
      match options with
      | [] => this
      | o :: rest =>
          clearOptionChildren rest
            (match o with
             | mkOption oid _ (Some fs) =>
                 if negb (_includes value (id_toString oid))
                 then clearFields fs this
                 else this
             | mkOption _ _ None => this
             end)
      end in
  let this1 := writeModelValue tag value field this in
  let this2 :=
    match f_options field with
    | Some options => clearOptionChildren options this1
    | None => this1
    end in
  match f_fields field with
  | Some fields =>
      if emptyForType __blank (f_type field) value
      then clearFields fields this2
      else this2
  | None => this2
  end.

(** [__clearFields(fields)] *)
Fixpoint __clearFields (fields : list (string * Field)) (this : Form)
    : Form :=
  match fields with
  | [] => this
  | (t, f) :: rest =>
      __clearFields rest
        (if hasValue (getModelValue this t)
         then setModelValue t VUndefined f this
         else this)
  end.

(** The body of the loop of [__clearOptionChildren]. *)
Definition clearOptionStep (value : JsValue) (o : FieldOption Field)
    (this : Form) : Form :=
  match o_fields o with
  | Some fs =>
      if negb (_includes value (id_toString (o_id o)))
      then __clearFields fs this
      else this
  | None => this
  end.

(** [__clearOptionChildren(options, value)] *)
Fixpoint __clearOptionChildren (options : list (FieldOption Field))
    (value : JsValue) (this : Form) : Form :=
  match options with
  | [] => this
  | o :: rest =>
      __clearOptionChildren rest value (clearOptionStep value o this)
  end.

(** The instance as the second block of [setModelValue] leaves it: after
    the write and the clearing of option children. *)
Definition afterOptions (tag : string) (value : JsValue) (field : Field)
    (this : Form) : Form :=
  match f_options field with
  | Some options =>
      __clearOptionChildren options value (writeModelValue tag value field this)
  | None => writeModelValue tag value field this
  end.

End Store.

(** ** Exceptions *)

(** What the engine can throw: the three [Error]s of the constructor and
    of [__decorateField], named after the kind of failure they report and
    carrying what the message interpolates, and the [TypeError] of a
    property access on [undefined]. *)
Inductive JsError : Type :=
| InvalidDefinitionError (message : string)
| DuplicateTagError (tag : string)
| MissingTypeError
| TypeError.

Inductive Outcome (A : Type) : Type :=
| Ok (a : A)
| Throw (e : JsError).
Arguments Ok {A}.
Arguments Throw {A}.

(** A method of the instance: it may mutate [this] and it returns or
    throws; what was mutated before a throw stays mutated. *)
Definition M (A : Type) : Type := Form -> Outcome A * Form.

Definition ret {A : Type} (a : A) : M A := fun this => (Ok a, this).

Definition bind {A B : Type} (m : M A) (k : A -> M B) : M B :=
  fun this =>
    match m this with
    | (Ok a, this') => k a this'
    | (Throw e, this') => (Throw e, this')
    end.

Definition throw {A : Type} (e : JsError) : M A := fun this => (Throw e, this).

(** A mutation that cannot throw. *)
Definition modify (f : Form -> Form) : M unit :=
  fun this => (Ok tt, f this).

(** Reading [this]. *)
Definition reads {A : Type} (f : Form -> A) : M A :=
  fun this => (Ok (f this), this).

(** [_.forEach(list, body)] for a body that never returns [false]. *)
Fixpoint forEach {A : Type} (l : list A) (body : A -> M unit) : M unit :=
  match l with
  | [] => ret tt
  | x :: rest => bind (body x) (fun _ => forEach rest body)
  end.

(** [map[key]] on a map that may itself be [undefined]. *)
Definition lookupIn {V : Type} (map : option (gmap string V)) (key : string)
    : M (option V) :=
  match map with
  | Some m => ret (m !! key)
  | None => throw TypeError
  end.

(** The property key a field id turns into. *)
Definition propertyKey (id : option string) : string :=
  match id with
  | Some s => s
  | None => "undefined"
  end.

(** [getCalcExpressionByTag(tag)] *)
Definition getCalcExpressionByTag (this : Form) (tag : string)
    : option Expr :=
  match calcExpressionMap (definition this) with
  | Some m => m !! tag
  | None => None
  end.

(** The flat list [evaluateDefaultValueConditions] walks for a field: its
    own conditions, or else those of its options; an option without
    conditions leaves an [undefined] element. *)
Definition resolveDefaultValueConditions (field : Field)
    : list (option ConditionalExpression) :=
  match f_defaultValueConditions field with
  | Some conditions => map Some conditions
  | None =>
      match f_options field with
      | Some options =>
          flat_map (fun o =>
                      match o_defaultValueConditions o with
                      | Some conditions => map Some conditions
                      | None => [None]
                      end) options
      | None => []
      end
  end.

(** [field.type === DATA_TYPE.ARRAY] *)
Definition isArrayType (t : option DataType) : bool :=
  match t with Some ARRAY => true | _ => false end.

Section Engine.

Variable hasValue : JsValue -> bool.
Variable __blank : JsValue -> bool.

(** The expression service, reading the instance it is handed. *)
Variable evalCondition : Expr -> Form -> bool.
Variable evalExpression : Expr -> Form -> JsValue.

(** [field.component.onUpdate(event, field, current, candidate)]. *)
Variable onUpdate : Field -> JsValue -> JsValue -> JsValue.

(** [setModelValue(tag, value, field)] on a field that may be
    [undefined]: then the first property access on it throws, after the
    [delete] when the value is [undefined]. *)
Definition setModelValueOn (tag : string) (value : JsValue)
    (field : option Field) : M unit :=
  match field with
  | Some f => modify (setModelValue hasValue __blank tag value f)
  | None =>
      if isUndefined value
      then bind (modify (fun this => set_model (delete tag (model this)) this))
                (fun _ => throw TypeError)
      else throw TypeError
  end.

(** The body of the inner loop of [evaluateDefaultValueConditions]. *)
Definition applyDefaultValueCondition (tag : string) (field : Field)
    (conditionalExpression : option ConditionalExpression) : M unit :=
  match conditionalExpression with
  | None => throw TypeError
  | Some ce =>
      bind (reads (evalCondition (ce_condition ce))) (fun conditionMet =>
      if conditionMet : bool
      then
        bind (reads (evalExpression (ce_expression ce))) (fun defaultValue =>
        bind (if isArrayType (f_type field)
              then reads (fun this =>
                            onUpdate field (getModelValue this tag) defaultValue)
              else ret defaultValue) (fun defaultValue =>
        modify (setModelValue hasValue __blank tag defaultValue field)))
      else ret tt)
  end.

(** The body of the outer loop of [evaluateDefaultValueConditions]. *)
Definition evaluateDefaultValueConditionsOf (tag : string) : M unit :=
  bind (reads (fun this => getField this tag)) (fun field =>
  match field with
  | None => throw TypeError
  | Some field =>
      forEach (resolveDefaultValueConditions field)
              (applyDefaultValueCondition tag field)
  end).

(** [evaluateDefaultValueConditions(tags)] *)
Definition evaluateDefaultValueConditions (tags : list string) : M unit :=
  forEach tags evaluateDefaultValueConditionsOf.

(** [triggerDefaultValueEvaluation(tag)] *)
Definition triggerDefaultValueEvaluation (tag : string) : M unit :=
  bind (fun this => lookupIn (defaultValueTriggerMap (definition this)) tag this)
       (fun tagsToEvaluate =>
  match tagsToEvaluate with
  | Some tags => evaluateDefaultValueConditions tags
  | None => ret tt
  end).

(** The body of the loop of [calculateFields]. *)
Definition calculateTag (tag : string) : M unit :=
  bind (reads (fun this => getCalcExpressionByTag this tag)) (fun expression =>
  match expression with
  | Some expression =>
      bind (reads (evalExpression expression)) (fun value =>
      bind (reads (fun this => getField this tag)) (fun field =>
      bind (setModelValueOn tag value field) (fun _ =>
      triggerDefaultValueEvaluation tag)))
  | None => ret tt
  end).

(** [calculateFields(field)] *)
Definition calculateFields (field : Field) : M unit :=
  if f_calc field
  then
    bind (fun this =>
            lookupIn (calcTriggerMap (definition this))
                     (propertyKey (f_id field)) this) (fun tagList =>
    match tagList with
    | Some tags => forEach tags calculateTag
    | None => ret tt
    end)
  else ret tt.

(** [evaluateShowCondition(field, tag)] *)
Definition evaluateShowCondition (field : Field) (tag : string) : M bool :=
  match f_showCondition field with
  | None => ret true
  | Some condition =>
      bind (reads (evalCondition condition)) (fun showField =>
      bind (if negb showField
            then
              bind (reads (fun this => getModelValue this tag)) (fun current =>
              if negb (__blank current)
              then modify (setModelValue hasValue __blank tag VUndefined field)
              else ret tt)
            else ret tt) (fun _ =>
      ret showField))
  end.

End Engine.

(** ** Validation status *)

(** Modelled from the spec: [VALIDATION_CONST.STATUS] of
    [validation/validation-const] is not part of the sources at hand.  The
    statuses form the severity scale OK < WARNING < ERROR. *)
Inductive Status : Type := OK | WARNING | ERROR.

Definition severity (s : Status) : nat :=
  match s with OK => 0 | WARNING => 1 | ERROR => 2 end.

(** Modelled from the spec: [ValidationService.isMoreSevereStatus(a, b)]
    of [service/validation-service] is not part of the sources at hand.  It
    is the strict comparison of the severity scale. *)
Definition isMoreSevereStatus_spec (a b : Status) : bool :=
  Nat.ltb (severity b) (severity a).

(** What [validationResults.getResults(tag)] hands back. *)
Record ValidationResult : Type := mkValidationResult {
  status : Status
}.

(** The pairs [_.forEach] visits on an array: the item and its index. *)
Definition arrayEntries {A : Type} (l : list A) : list (nat * A) :=
  imap (fun i x => (i, x)) l.

(** What the callback of [getStatus] is applied to: [useTag ? tag : i]. *)
Inductive StatusArgument (K A : Type) : Type :=
| ByTag (tag : K)
| ByItem (i : A).
Arguments ByTag {K A}.
Arguments ByItem {K A}.

Definition statusArgument {K A : Type} (useTag : bool) (tag : K) (i : A)
    : StatusArgument K A :=
  if useTag then ByTag tag else ByItem i.

Section Rollup.

(** [ValidationService.isMoreSevereStatus], the comparison of the
    validation service. *)
Variable isMoreSevereStatus : Status -> Status -> bool.

(** [validationResults.getResults], a method of the results collaborator. *)
Variable getResults : string -> ValidationResult.

(** [getStatus(iterator, getStatus, useTag)] *)
Definition getStatus {K A : Type} (iterator : list (K * A))
    (statusOf : StatusArgument K A -> Status) (useTag : bool) : Status :=
  fold_left
    (fun status entry =>
       let iStatus := statusOf (statusArgument useTag (fst entry) (snd entry)) in
       if isMoreSevereStatus iStatus status then iStatus else status)
    iterator OK.

(** [getValidationResultByTag(tag)] *)
Definition getValidationResultByTag (tag : string) : ValidationResult :=
  getResults tag.

(** [getValidationStatusByTag(tag)] *)
Definition getValidationStatusByTag (tag : string) : Status :=
  status (getValidationResultByTag tag).

(** An absent collection is walked as an empty one. *)
Definition orEmpty {A : Type} (l : option (list A)) : list A :=
  match l with Some l => l | None => [] end.

(** [getSubsectionStatus(subsection)] *)
Definition getSubsectionStatus (subsection : Subsection) : Status :=
  getStatus (orEmpty (ss_fields subsection))
    (fun x : StatusArgument string Field =>
       match x with
       | ByTag tag => getValidationStatusByTag tag
       | ByItem _ => OK
       end)
    true.

(** [getSectionStatus(section)] *)
Definition getSectionStatus (section : FormSection) : Status :=
  getStatus (arrayEntries (orEmpty (sec_subsections section)))
    (fun x : StatusArgument nat Subsection =>
       match x with
       | ByTag _ => OK
       | ByItem subsection => getSubsectionStatus subsection
       end)
    false.

End Rollup.

(** ** Construction *)

(** [_.sortBy(sections, 'sortOrder')]: a stable ascending sort, items
    without the key last. *)
Definition sortOrder_le (a b : option Z) : bool :=
  match a, b with
  | Some x, Some y => Z.leb x y
  | _, None => true
  | None, Some _ => false
  end.

Fixpoint insertSection (x : FormSection) (l : list FormSection)
    : list FormSection :=
  match l with
  | [] => [x]
  | y :: rest =>
      if sortOrder_le (sec_sortOrder x) (sec_sortOrder y)
      then x :: y :: rest
      else y :: insertSection x rest
  end.

Definition sortBySortOrder (l : list FormSection) : list FormSection :=
  fold_right insertSection [] l.

(** [JSON.parse(JSON.stringify(x))]: a structurally equal tree of new
    objects.  The sections of a definition are plain data, so the copy is
    the same value; it is the copy, not the caller's tree, that the
    decorator then rewrites. *)
Definition jsonCopy (l : list FormSection) : list FormSection := l.

(** [getSchema().sections] *)
Definition getSchemaSections (this : Form) : list FormSection :=
  match schema (definition this) with
  | Some s => orEmpty (s_sections s)
  | None => []
  end.

(** [getUiSchemaField(tag)], on [getUiSchema()], which is [{}] when the
    definition has no UI schema. *)
Definition getUiSchemaField (this : Form) (tag : string)
    : option UiField :=
  match uiSchema (definition this) with
  | Some ui => ui !! tag
  | None => None
  end.

Definition set_uiSchema (ui : gmap string UiField) (d : FormDefinition)
    : FormDefinition :=
  mkDefinition (schema d) (Some ui) (calcExpressionMap d) (calcTriggerMap d)
               (defaultValueTriggerMap d).

(** [__addComponentToUiSchemaAndReturnUiField(tag, type)].  The entry is
    an object of the caller's UI schema: it is created when missing, and
    its [component] is overwritten in place. *)
Definition __addComponentToUiSchemaAndReturnUiField (tag type : string)
    : M UiField :=
  fun this =>
    match uiSchema (definition this) with
    | None => (Throw TypeError, this)
    | Some ui =>
        let uiField :=
          match ui !! tag with
          | Some uiField => uiField
          | None => emptyUiField
          end in
        let uiField := mkUiField (Some type) (ui_annotations uiField) in
        (Ok uiField,
         set_definition (set_uiSchema (<[tag := uiField]> ui) (definition this))
                        this)
    end.

(** A component key counts when it is a non-empty string. *)
Definition suppliedKey (formComponentKey : option string) : option string :=
  match formComponentKey with
  | Some "" => None
  | other => other
  end.

(** [if (_.isString(field.pattern)) field.pattern = new RegExp(...)] *)
Definition compilePattern (p : option Pattern) : option Pattern :=
  match p with
  | Some (PatString source) => Some (PatRegExp source)
  | other => other
  end.

Definition with_uiField (uiField : UiField) (f : Field) : Field :=
  mkField (f_ref f) (f_id f) (f_type f) (f_calc f) (f_pattern f)
    (f_definition f) (f_showCondition f) (f_defaultValueConditions f)
    (Some uiField) (f_componentType f) (f_component f) (f_fields f)
    (f_options f).

Section Decorator.

(** The two lookups of [config/form-config]. *)
Variable getComponentTypeByField : Field -> UiField -> ComponentType.
Variable getComponentConfig : option DataType -> ComponentType -> Component.

(** [__decorateField(field, tag, formComponentKey)], with
    [__decorateChildren] and the loop over the options as its local loops.
    The field is rewritten in place; the result is the field as it stands
    when the method returns. *)
Fixpoint __decorateField (field : Field) (tag : string)
    (formComponentKey : option string) {struct field} : M Field :=
  let decorateChildren :=
    fix decorateChildren (children : list (string * Field))
        {struct children} : M (list (string * Field)) :=
      match children with
      | [] => ret []
      | (childTag, child) :: rest =>
          bind (__decorateField child childTag None) (fun child' =>
          bind (decorateChildren rest) (fun rest' =>
          ret ((childTag, child') :: rest')))
      end in
  let decorateOptions :=
    fix decorateOptions (options : list (FieldOption Field))
        {struct options} : M (list (FieldOption Field)) :=
      match options with
      | [] => ret []
      | o :: rest =>
          bind (match o with
                | mkOption oid conditions (Some children) =>
                    bind (decorateChildren children) (fun children' =>
                    ret (mkOption oid conditions (Some children')))
                | mkOption _ _ None => ret o
                end) (fun o' =>
          bind (decorateOptions rest) (fun rest' =>
          ret (o' :: rest')))
      end in
  bind (reads (fun this => fields this !! tag)) (fun registered =>
  match registered with
  | Some _ => throw (DuplicateTagError tag)
  | None =>
  match f_type field with
  | None => throw MissingTypeError
  | Some _ =>
      bind (match suppliedKey formComponentKey with
            | Some key => __addComponentToUiSchemaAndReturnUiField tag key
            | None =>
                reads (fun this =>
                         match getUiSchemaField this tag with
                         | Some uiField => uiField
                         | None => emptyUiField
                         end)
            end) (fun uiField =>
      let componentType :=
        getComponentTypeByField (with_uiField uiField field) uiField in
      let component := getComponentConfig (f_type field) componentType in
      let pattern := compilePattern (f_pattern field) in
      bind (match f_fields field with
            | Some children =>
                bind (decorateChildren children) (fun c => ret (Some c))
            | None => ret None
            end) (fun children =>
      bind (match f_options field with
            | Some options =>
                bind (decorateOptions options) (fun o => ret (Some o))
            | None => ret None
            end) (fun options =>
      let decorated :=
        mkField (f_ref field) (f_id field) (f_type field) (f_calc field)
          pattern (f_definition field) (f_showCondition field)
          (f_defaultValueConditions field) (Some uiField)
          (Some componentType) (Some component) children options in
      bind (modify (fun this =>
                      set_fields (<[tag := decorated]> (fields this)) this))
           (fun _ => ret decorated))))
  end
  end).

(** [__decorateChildren(parent, children)] *)
Fixpoint __decorateChildren (children : list (string * Field))
    : M (list (string * Field)) :=
  match children with
  | [] => ret []
  | (childTag, child) :: rest =>
      bind (__decorateField child childTag None) (fun child' =>
      bind (__decorateChildren rest) (fun rest' =>
      ret ((childTag, child') :: rest')))
  end.

(** The loop of [__decorateField] over the options. *)
Definition decorateOption (o : FieldOption Field) : M (FieldOption Field) :=
  match o_fields o with
  | Some children =>
      bind (__decorateChildren children) (fun children' =>
      ret (mkOption (o_id o) (o_defaultValueConditions o) (Some children')))
  | None => ret o
  end.

Fixpoint decorateOptions (options : list (FieldOption Field))
    : M (list (FieldOption Field)) :=
  match options with
  | [] => ret []
  | o :: rest =>
      bind (decorateOption o) (fun o' =>
      bind (decorateOptions rest) (fun rest' =>
      ret (o' :: rest')))
  end.

(** The loops of [__initFields] over a subsection, a section and the
    sections.  The loop over the fields of a subsection calls
    [__decorateField(field, tag)] on each, as [__decorateChildren] does. *)
Definition decorateSubsection (subsection : Subsection) : M Subsection :=
  match ss_fields subsection with
  | Some fs =>
      bind (__decorateChildren fs) (fun fs' => ret (mkSubsection (Some fs')))
  | None => ret subsection
  end.

Fixpoint decorateSubsections (l : list Subsection) : M (list Subsection) :=
  match l with
  | [] => ret []
  | subsection :: rest =>
      bind (decorateSubsection subsection) (fun subsection' =>
      bind (decorateSubsections rest) (fun rest' =>
      ret (subsection' :: rest')))
  end.

Definition decorateSection (section : FormSection) : M FormSection :=
  match sec_subsections section with
  | Some l =>
      bind (decorateSubsections l) (fun l' =>
      ret (mkSection (sec_sortOrder section) (Some l')))
  | None => ret section
  end.

Fixpoint decorateSections (l : list FormSection) : M (list FormSection) :=
  match l with
  | [] => ret []
  | section :: rest =>
      bind (decorateSection section) (fun section' =>
      bind (decorateSections rest) (fun rest' =>
      ret (section' :: rest')))
  end.

(** [__initFields()] *)
Definition __initFields : M unit :=
  bind (modify (fun this =>
                  set_sections
                    (jsonCopy (sortBySortOrder (getSchemaSections this)))
                    this)) (fun _ =>
  bind (reads sections) (fun copy =>
  bind (decorateSections copy) (fun decorated =>
  modify (set_sections decorated)))).

(** [validate()], the run of the validator collaborator over the
    instance. *)
Variable validate : M unit.

(** [__initInstance(validator)] *)
Definition __initInstance : M unit :=
  bind __initFields (fun _ => validate).

(** [_.isEmpty] on the definition and on the schema: no property at all. *)
Definition isEmptyDefinition (d : FormDefinition) : bool :=
  match schema d, uiSchema d, calcExpressionMap d, calcTriggerMap d,
        defaultValueTriggerMap d with
  | None, None, None, None, None => true
  | _, _, _, _, _ => false
  end.

Definition isEmptySchema (s : Schema) : bool :=
  match s_sections s with None => true | Some _ => false end.

(** [new Form(definition, model, validator)]: the instance, or what the
    constructor throws.  [None] is a null or undefined definition. *)
Definition FormInstanceFactory (definition : option FormDefinition)
    (model : gmap string ModelEntry) : Outcome Form :=
  match definition with
  | None =>
      Throw (InvalidDefinitionError
               "Form definition cannot be null/undefined/empty")
  | Some d =>
      if isEmptyDefinition d
      then Throw (InvalidDefinitionError
                    "Form definition cannot be null/undefined/empty")
      else
        match schema d with
        | None =>
            Throw (InvalidDefinitionError
                     "Schema cannot cannot be null/undefined/empty")
        | Some s =>
            if isEmptySchema s
            then Throw (InvalidDefinitionError
                          "Schema cannot cannot be null/undefined/empty")
            else
              match __initInstance (mkForm d model [] ∅ ∅) with
              | (Ok _, this) => Ok this
              | (Throw e, _) => Throw e
              end
        end
  end.

End Decorator.

(** * Notions of the specification

    What follows is not code of the engine: it names what the properties
    speak of. *)

(** ** The fields below a field *)

(** Every field nested below a field, through [fields] and through the
    [fields] of its options, with the tag it is keyed by. *)
Fixpoint descendants (field : Field) : list (string * Field) :=
  let below :=
    fix below (fs : list (string * Field)) : list (string * Field) :=
      match fs with
      | [] => []
      | (t, f) :: rest => (t, f) :: descendants f ++ below rest
      end in
  let belowOptions :=
    fix belowOptions (os : list (FieldOption Field))
        : list (string * Field) :=
      match os with
      | [] => []
      | o :: rest =>
          match o with
          | mkOption _ _ (Some fs) => below fs
          | mkOption _ _ None => []
          end ++ belowOptions rest
      end in
  match f_options field with
  | Some os => belowOptions os
  | None => []
  end ++
  match f_fields field with
  | Some fs => below fs
  | None => []
  end.

(** The same, for a collection of keyed fields and for a list of
    options. *)
Fixpoint descendantsOfFields (fs : list (string * Field))
    : list (string * Field) :=
  match fs with
  | [] => []
  | (t, f) :: rest => (t, f) :: descendants f ++ descendantsOfFields rest
  end.

Definition descendantsOfOption (o : FieldOption Field)
    : list (string * Field) :=
  match o_fields o with
  | Some fs => descendantsOfFields fs
  | None => []
  end.

Fixpoint descendantsOfOptions (os : list (FieldOption Field))
    : list (string * Field) :=
  match os with
  | [] => []
  | o :: rest => descendantsOfOption o ++ descendantsOfOptions rest
  end.

Definition tagsBelow (field : Field) : list string :=
  map fst (descendants field).

Definition refsBelow (field : Field) : list nat :=
  map (fun p => f_ref (snd p)) (descendants field).

(** A field is well nested under a tag when neither the tag nor the field
    object itself comes back below it: tags are unique in a definition, and
    a tree of objects does not contain its own root. *)
Definition wellNested (tag : string) (field : Field) : Prop :=
  (tag ∉ tagsBelow field) ∧ (f_ref field ∉ refsBelow field).

(** ** Properties of every field below *)

(** A property holds of every field of a collection, and of every field
    under the options of a list. *)
Definition fieldsAll (P : Field -> Prop) (fs : option (list (string * Field)))
    : Prop :=
  match fs with
  | Some fs => Forall (fun p => P (snd p)) fs
  | None => True
  end.

Definition optionsAll (P : Field -> Prop)
    (os : option (list (FieldOption Field))) : Prop :=
  match os with
  | Some os => Forall (fun o => fieldsAll P (o_fields o)) os
  | None => True
  end.

(** ** Clearing, as a relation between instances *)

(** [clearsWithin T R this this'] : [this'] is [this] with some model
    entries among the tags [T] removed and some dirty flags among the
    objects [R] reset, and nothing else changed. *)
Definition clearsWithin (T : list string) (R : list nat)
    (this this' : Form) : Prop :=
  definition this' = definition this ∧
  sections this' = sections this ∧
  fields this' = fields this ∧
  (∀ k, model this' !! k = model this !! k ∨
        (k ∈ T ∧ model this' !! k = None)) ∧
  (∀ r, dirty this' !! r = dirty this !! r ∨
        (r ∈ R ∧ dirty this' !! r = Some false)).

Definition tagsOf (l : list (string * Field)) : list string := map fst l.

Definition refsOf (l : list (string * Field)) : list nat :=
  map (fun p => f_ref (snd p)) l.

(** Clearing a field touches its own entry and those below it, and nothing
    else. *)
Definition clearsBelow (hasValue __blank : JsValue -> bool) (field : Field)
    : Prop :=
  forall tag this,
    clearsWithin (tag :: tagsBelow field) (f_ref field :: refsBelow field)
      this (setModelValue hasValue __blank tag VUndefined field this).

(** The options [__clearOptionChildren] acts on for a value: those that
    own fields and whose stringified id the value does not include. *)
Definition unselectedOptions (value : JsValue) (os : list (FieldOption Field))
    : list (FieldOption Field) :=
  filter (fun o => negb (_includes value (id_toString (o_id o))) = true) os.


(** ** The cascades, in the words of the specification *)

Section CascadeSpec.

Variable hasValue : JsValue -> bool.
Variable __blank : JsValue -> bool.
Variable evalCondition : Expr -> Form -> bool.
Variable evalExpression : Expr -> Form -> JsValue.
Variable onUpdate : Field -> JsValue -> JsValue -> JsValue.

(** The candidate value of a condition: its expression, merged into the
    current value by the update handler when the target is an ARRAY. *)
Definition candidateValue (tag : string) (field : Field)
    (ce : ConditionalExpression) (this : Form) : JsValue :=
  let candidate := evalExpression (ce_expression ce) this in
  if isArrayType (f_type field)
  then onUpdate field (getModelValue this tag) candidate
  else candidate.

(** One condition of a target: a write when its guard holds, nothing
    otherwise. *)
Definition defaultValueStep (tag : string) (field : Field) (this : Form)
    (ce : ConditionalExpression) : Form :=
  if evalCondition (ce_condition ce) this
  then setModelValue hasValue __blank tag (candidateValue tag field ce this)
         field this
  else this.

(** The conditions of a target in declared order: its own, or the
    flattened union of those of its options. *)
Definition declaredConditions (field : Field) : list ConditionalExpression :=
  match f_defaultValueConditions field with
  | Some conditions => conditions
  | None =>
      concat (map (fun o => orEmpty (o_defaultValueConditions o))
                  (orEmpty (f_options field)))
  end.

(** The default-value cascade over a list of dependent tags. *)
Definition defaultValueCascade (tags : list string) (this : Form)
    : Form :=
  fold_left
    (fun this tag =>
       match getField this tag with
       | Some field =>
           fold_left (defaultValueStep tag field) (declaredConditions field)
                     this
       | None => this
       end)
    tags this.

(** The dependents of a tag in the default-value trigger map. *)
Definition defaultValueDependents (this : Form) (tag : string)
    : list string :=
  match defaultValueTriggerMap (definition this) with
  | Some triggers => orEmpty (triggers !! tag)
  | None => []
  end.

(** The calculation cascade over the dependent tags of a changed field:
    for each tag with an expression, evaluate it, write the result, then
    run the default-value cascade of that same tag. *)
Definition calculationCascade (tags : list string) (this : Form)
    : Form :=
  fold_left
    (fun this tag =>
       match getCalcExpressionByTag this tag, getField this tag with
       | Some expression, Some field =>
           let this' :=
             setModelValue hasValue __blank tag
               (evalExpression expression this) field this in
           defaultValueCascade (defaultValueDependents this' tag) this'
       | _, _ => this
       end)
    tags this.

End CascadeSpec.

(** A dependent tag resolves when it is a field of the index and, having
    no conditions of its own, has them on each of its options. *)
Definition resolvable (this : Form) (dependent : string) : Prop :=
  ∃ field, getField this dependent = Some field ∧
           (f_defaultValueConditions field = None ->
            Forall (fun o => is_Some (o_defaultValueConditions o))
                   (orEmpty (f_options field))).

(** The references of the trigger maps resolve: the trigger maps are
    there, every tag with a calculation is a field of the index, and every
    dependent of the default-value trigger map resolves. *)
Definition wellReferenced (this : Form) : Prop :=
  is_Some (calcTriggerMap (definition this)) ∧
  is_Some (defaultValueTriggerMap (definition this)) ∧
  (∀ tag, is_Some (getCalcExpressionByTag this tag) ->
          is_Some (getField this tag)) ∧
  (∀ tag dependent,
      dependent ∈ defaultValueDependents this tag ->
      resolvable this dependent).

(** ** The rollup, in the words of the specification *)

(** The running maximum of the rollup: a status replaces the one held
    only when it is more severe. *)
Definition keepMoreSevere (isMoreSevereStatus : Status -> Status -> bool)
    (held candidate : Status) : Status :=
  if isMoreSevereStatus candidate held then candidate else held.

(** A comparison that is the strict order of the severity scale. *)
Definition ordersBySeverity (isMoreSevereStatus : Status -> Status -> bool)
    : Prop :=
  forall a b, isMoreSevereStatus a b = true <-> severity b < severity a.

(** The greatest severity of a list of statuses, that of OK when there is
    none. *)
Definition maxSeverity (statuses : list Status) : nat :=
  fold_right Nat.max 0 (map severity statuses).

(** The statuses [getStatus] compares, in the order it meets them. *)
Definition statusesOf {K A : Type} (iterator : list (K * A))
    (statusOf : StatusArgument K A -> Status) (useTag : bool) : list Status :=
  map (fun entry => statusOf (statusArgument useTag (fst entry) (snd entry)))
      iterator.

(** ** Decoration and the caller's definition *)

(** A method that leaves what the caller handed in, the definition and
    the model, as it found them, whether it returns or throws. *)
Definition sparesCaller {A : Type} (m : M A) : Prop :=
  forall this,
    definition (snd (m this)) = definition this ∧
    model (snd (m this)) = model this.

(** A list of sections in ascending [sortOrder], those without one last. *)
Definition sortOrderSorted (l : list FormSection) : Prop :=
  StronglySorted
    (fun x y => sortOrder_le (sec_sortOrder x) (sec_sortOrder y) = true) l.


(** * Sample forms *)

(** ** Builders *)

(** A field with a type and nothing else. *)
Definition plainField (ref : nat) (type : DataType) : Field :=
  mkField ref None (Some type) false None None None None None None None
          None None.

Definition withFields (fs : list (string * Field)) (f : Field) : Field :=
  mkField (f_ref f) (f_id f) (f_type f) (f_calc f) (f_pattern f)
    (f_definition f) (f_showCondition f) (f_defaultValueConditions f)
    (f_uiField f) (f_componentType f) (f_component f) (Some fs)
    (f_options f).

Definition withOptions (os : list (FieldOption Field)) (f : Field) : Field :=
  mkField (f_ref f) (f_id f) (f_type f) (f_calc f) (f_pattern f)
    (f_definition f) (f_showCondition f) (f_defaultValueConditions f)
    (f_uiField f) (f_componentType f) (f_component f) (f_fields f)
    (Some os).

Definition withDefinition (d : FieldDefinition) (f : Field) : Field :=
  mkField (f_ref f) (f_id f) (f_type f) (f_calc f) (f_pattern f)
    (Some d) (f_showCondition f) (f_defaultValueConditions f)
    (f_uiField f) (f_componentType f) (f_component f) (f_fields f)
    (f_options f).

(** A form with a given model and index and nothing else. *)
Definition formOf (m : gmap string ModelEntry) (index : gmap string Field)
    : Form :=
  mkForm (mkDefinition None None None None None) m [] index ∅.

Definition plainEntry (v : JsValue) : ModelEntry := mkEntry v None None.

(** A text field "street" that owns a child "city" and comes from a
    domain definition. *)
Definition sampleStreet : Field :=
  withDefinition (mkFieldDefinition (VStr "address") (VNum 7))
    (withFields [("city", plainField 2 STRING)] (plainField 1 STRING)).

Definition sampleStreetForm : Form :=
  formOf {[ "city" := plainEntry (VStr "Oslo") ]} ∅.

(** ** A checkbox group *)

(** A checkbox group "choice" with two options: option A owns the text
    field "a"; option B owns the boolean field "b", which owns the text
    field "g". *)
Definition sampleFlag : Field :=
  withFields [("g", plainField 13 STRING)] (plainField 12 BOOLEAN).

Definition sampleOptionA : FieldOption Field :=
  mkOption (IdStr "A") None (Some [("a", plainField 11 STRING)]).

Definition sampleOptionB : FieldOption Field :=
  mkOption (IdStr "B") None (Some [("b", sampleFlag)]).

Definition sampleChoice : Field :=
  withOptions [sampleOptionA; sampleOptionB] (plainField 10 ARRAY).

Definition sampleChoiceForm : Form :=
  formOf
    {[ "choice" := plainEntry (VArr [VStr "A"; VStr "B"]);
       "a" := plainEntry (VStr "1");
       "b" := plainEntry (VBool true);
       "g" := plainEntry (VStr "x") ]} ∅.

(** ** A form with a calculated total *)

Definition withCalc (id : string) (f : Field) : Field :=
  mkField (f_ref f) (Some id) (f_type f) true (f_pattern f)
    (f_definition f) (f_showCondition f) (f_defaultValueConditions f)
    (f_uiField f) (f_componentType f) (f_component f) (f_fields f)
    (f_options f).

Definition withConditions (cs : list ConditionalExpression) (f : Field)
    : Field :=
  mkField (f_ref f) (f_id f) (f_type f) (f_calc f) (f_pattern f)
    (f_definition f) (f_showCondition f) (Some cs)
    (f_uiField f) (f_componentType f) (f_component f) (f_fields f)
    (f_options f).

Definition withShowCondition (c : Expr) (f : Field) : Field :=
  mkField (f_ref f) (f_id f) (f_type f) (f_calc f) (f_pattern f)
    (f_definition f) (Some c) (f_defaultValueConditions f)
    (f_uiField f) (f_componentType f) (f_component f) (f_fields f)
    (f_options f).

(** A number held by the model, zero when there is none. *)
Definition numberAt (this : Form) (tag : string) : Z :=
  match getModelValue this tag with VNum n => n | _ => 0%Z end.

(** A sample expression service.  Expression 0 adds the responses "a" and
    "b"; 2, 4 and 6 are the constants "high", "low" and "huge". *)
Definition sampleEvalExpression (e : Expr) (this : Form) : JsValue :=
  match e with
  | mkExpr 0 => VNum (numberAt this "a" + numberAt this "b")
  | mkExpr 2 => VStr "high"
  | mkExpr 4 => VStr "low"
  | mkExpr 6 => VStr "huge"
  | _ => VUndefined
  end.

(** Condition 1 is [total > 10], 3 holds always, 5 is [total > 100], and
    any other never holds. *)
Definition sampleEvalCondition (e : Expr) (this : Form) : bool :=
  match e with
  | mkExpr 1 => Z.ltb 10 (numberAt this "total")
  | mkExpr 3 => true
  | mkExpr 5 => Z.ltb 100 (numberAt this "total")
  | _ => false
  end.

(** An update handler that appends the candidate to the current array. *)
Definition sampleOnUpdate (field : Field) (current candidate : JsValue)
    : JsValue :=
  match current with
  | VArr items => VArr (items ++ [candidate])
  | _ => VArr [candidate]
  end.

Definition sampleA : Field := withCalc "fieldId1" (plainField 21 NUMBER).
Definition sampleB : Field := withCalc "fieldId2" (plainField 22 NUMBER).
Definition sampleTotal : Field := plainField 23 NUMBER.
Definition sampleTotalRadio : Field :=
  withConditions [mkConditionalExpression (mkExpr 1) (mkExpr 2)]
    (plainField 24 STRING).

(** A target with three conditions: always "low", then "high" above 10,
    then "huge" above 100. *)
Definition sampleLevel : Field :=
  withConditions
    [ mkConditionalExpression (mkExpr 3) (mkExpr 4);
      mkConditionalExpression (mkExpr 1) (mkExpr 2);
      mkConditionalExpression (mkExpr 5) (mkExpr 6) ]
    (plainField 25 STRING).

(** A field shown only when the total exceeds 100. *)
Definition sampleHidden : Field :=
  withShowCondition (mkExpr 5) (plainField 26 STRING).

Definition sampleTotalDefinition : FormDefinition :=
  mkDefinition None None
    (Some {[ "total" := mkExpr 0 ]})
    (Some {[ "fieldId1" := ["total"]; "fieldId2" := ["total"] ]})
    (Some {[ "total" := ["totalRadio"] ]}).

Definition sampleTotalForm : Form :=
  mkForm sampleTotalDefinition
    {[ "a" := plainEntry (VNum 5); "b" := plainEntry (VNum 7) ]}
    []
    {[ "a" := sampleA; "b" := sampleB; "total" := sampleTotal;
       "totalRadio" := sampleTotalRadio; "level" := sampleLevel ]}
    ∅.

(** A select "pick" without conditions of its own: option A has none
    either, option B sets "low" unconditionally. *)
Definition samplePick : Field :=
  withOptions
    [ mkOption (IdStr "A") None None;
      mkOption (IdStr "B")
        (Some [mkConditionalExpression (mkExpr 3) (mkExpr 4)]) None ]
    (plainField 31 STRING).

Definition samplePickForm : Form :=
  formOf ∅ {[ "pick" := samplePick ]}.

(** The same instance once the total is 12 and "hidden" holds a note. *)
Definition sampleTotalledForm : Form :=
  set_model
    {[ "a" := plainEntry (VNum 5); "b" := plainEntry (VNum 7);
       "total" := plainEntry (VNum 12);
       "hidden" := plainEntry (VStr "note") ]}
    sampleTotalForm.

(** ** Definitions handed to the factory *)

(** A definition with two sections out of order and a UI schema. *)
Definition sampleTwoSections : FormDefinition :=
  mkDefinition
    (Some (mkSchema (Some
       [ mkSection (Some 2%Z)
           (Some [mkSubsection (Some [("b", plainField 2 NUMBER)])]);
         mkSection (Some 1%Z)
           (Some [mkSubsection (Some [("a", plainField 1 STRING)])]) ])))
    (Some {[ "a" := mkUiField (Some "textarea") 0 ]})
    None None None.

(** A definition whose only field "a" owns a child with the same tag. *)
Definition sampleNestedDuplicate : FormDefinition :=
  mkDefinition
    (Some (mkSchema (Some
       [ mkSection (Some 1%Z)
           (Some [ mkSubsection
                     (Some [("a", withFields [("a", plainField 2 STRING)]
                                    (plainField 1 STRING))]) ]) ])))
    None None None None.

(** A definition in which the tag "x" is used under two different
    fields. *)
Definition sampleCousinDuplicate : FormDefinition :=
  mkDefinition
    (Some (mkSchema (Some
       [ mkSection (Some 1%Z)
           (Some [ mkSubsection
                     (Some [("a", withFields [("x", plainField 2 STRING)]
                                    (plainField 1 STRING));
                            ("b", withFields [("x", plainField 4 STRING)]
                                    (plainField 3 STRING))]) ]) ])))
    None None None None.

(** ** Validation results *)

(** Results in which "a" is fine, "b" carries a warning and every other
    tag an error. *)
Definition sampleResults (tag : string) : ValidationResult :=
  mkValidationResult
    (if String.eqb tag "a" then OK
     else if String.eqb tag "b" then WARNING
     else ERROR).

Definition sampleCalmSubsection : Subsection :=
  mkSubsection (Some [("a", plainField 1 STRING); ("b", plainField 2 STRING)]).

Definition sampleFailingSubsection : Subsection :=
  mkSubsection (Some [("b", plainField 3 STRING); ("c", plainField 4 STRING);
                      ("a", plainField 5 STRING)]).

Definition sampleStatusSection : FormSection :=
  mkSection (Some 1%Z) (Some [sampleCalmSubsection; sampleFailingSubsection]).

(** * Further notions *)

(** ** What a cascade can reach *)

(** Two instances with the same definition, sections and index of
    fields. *)
Definition sameShape (this this' : Form) : Prop :=
  definition this' = definition this ∧
  sections this' = sections this ∧
  fields this' = fields this.

(** The model entries a write to a tag can change: the tag's own and those
    of the fields below the field the index holds for it. *)
Definition reachOfTag (this : Form) (tag : string) : list string :=
  tag :: match getField this tag with
         | Some field => tagsBelow field
         | None => []
         end.

Definition reachOfTags (this : Form) (tags : list string) : list string :=
  flat_map (reachOfTag this) tags.

(** The tags [calculateFields] walks for a field. *)
Definition calculatedTags (this : Form) (field : Field) : list string :=
  match calcTriggerMap (definition this) with
  | Some triggers => orEmpty (triggers !! propertyKey (f_id field))
  | None => []
  end.

(** What [calculateFields] can reach for a field: the tags it calculates
    and, for each, the dependents of the default-value trigger map. *)
Definition calculationReach (this : Form) (field : Field) : list string :=
  flat_map (fun tag =>
              reachOfTag this tag ++
              reachOfTags this (defaultValueDependents this tag))
           (calculatedTags this field).

(** A method that, run on an instance of the shape of [this0], keeps the
    shape and leaves every model entry outside [T] as it is, whether it
    returns or throws. *)
Definition confined {A : Type} (this0 : Form) (T : list string) (m : M A)
    : Prop :=
  forall this,
    sameShape this0 this ->
    sameShape this0 (snd (m this)) ∧
    (forall k, k ∉ T -> model (snd (m this)) !! k = model this !! k).

(** ** Further sample forms *)

(** The form with the calculated total, its index emptied. *)
Definition sampleUnindexedForm : Form := set_fields ∅ sampleTotalForm.

(** The form with the calculated total, without a default-value trigger
    map. *)
Definition sampleUntriggeredForm : Form :=
  set_definition
    (mkDefinition None None
       (Some {[ "total" := mkExpr 0 ]})
       (Some {[ "fieldId1" := ["total"]; "fieldId2" := ["total"] ]})
       None)
    sampleTotalForm.

(** ** The fields of a section *)

(** The tags of the fields of a subsection, and of all the subsections of
    a section, in the order the rollup meets them. *)
Definition subsectionTags (subsection : Subsection) : list string :=
  map fst (orEmpty (ss_fields subsection)).

Definition sectionTags (section : FormSection) : list string :=
  flat_map subsectionTags (orEmpty (sec_subsections section)).

(** The sections of a list with a given [sortOrder], in their order. *)
Definition withSortOrder (k : option Z) (l : list FormSection)
    : list FormSection :=
  filter (fun s => sec_sortOrder s = k) l.

(** ** What decoration leaves behind *)

(** The index gains exactly the tags [T]: none of them was registered, all
    of them are, and every other entry is as it was. *)
Definition registers (T : list string) (this this' : Form) : Prop :=
  (forall k, k ∈ T ->
     fields this !! k = None ∧ is_Some (fields this' !! k)) ∧
  (forall k, k ∉ T -> fields this' !! k = fields this !! k).

(** What [__decorateField] puts on a field: a UI field, a component type
    and a component, on a field that has a type and whose pattern, if it
    was a string, is compiled. *)
Definition decorated (field : Field) : Prop :=
  is_Some (f_type field) ∧
  is_Some (f_uiField field) ∧
  is_Some (f_componentType field) ∧
  is_Some (f_component field) ∧
  forall source, f_pattern field ≠ Some (PatString source).

(** [field'] is [field] decorated: its own data are kept, its pattern is
    compiled, and the same tags and objects lie below it. *)
Definition decorationOf (field field' : Field) : Prop :=
  f_ref field' = f_ref field ∧
  f_id field' = f_id field ∧
  f_type field' = f_type field ∧
  f_calc field' = f_calc field ∧
  f_definition field' = f_definition field ∧
  f_showCondition field' = f_showCondition field ∧
  f_defaultValueConditions field' = f_defaultValueConditions field ∧
  f_pattern field' = compilePattern (f_pattern field) ∧
  tagsBelow field' = tagsBelow field ∧
  refsBelow field' = refsBelow field.

(** What a successful [__decorateField(field, tag)] has done. *)
Definition decorateFacts (field : Field) (tag : string) (this : Form)
    (field' : Field) (this' : Form) : Prop :=
  registers (tag :: tagsBelow field) this this' ∧
  fields this' !! tag = Some field' ∧
  decorationOf field field' ∧
  decorated field' ∧
  Forall (fun p => decorated (snd p)) (descendants field') ∧
  Forall (fun p => is_Some (f_type (snd p))) (descendants field).

(** The same for a collection of fields and for a list of options. *)
Definition childrenFacts (fs : list (string * Field)) (this : Form)
    (fs' : list (string * Field)) (this' : Form) : Prop :=
  registers (tagsOf (descendantsOfFields fs)) this this' ∧
  tagsOf (descendantsOfFields fs') = tagsOf (descendantsOfFields fs) ∧
  refsOf (descendantsOfFields fs') = refsOf (descendantsOfFields fs) ∧
  Forall (fun p => decorated (snd p)) (descendantsOfFields fs') ∧
  Forall (fun p => is_Some (f_type (snd p))) (descendantsOfFields fs).

Definition optionsFacts (os : list (FieldOption Field)) (this : Form)
    (os' : list (FieldOption Field)) (this' : Form) : Prop :=
  registers (tagsOf (descendantsOfOptions os)) this this' ∧
  tagsOf (descendantsOfOptions os') = tagsOf (descendantsOfOptions os) ∧
  refsOf (descendantsOfOptions os') = refsOf (descendantsOfOptions os) ∧
  Forall (fun p => decorated (snd p)) (descendantsOfOptions os') ∧
  Forall (fun p => is_Some (f_type (snd p))) (descendantsOfOptions os).

(** The property shown by induction over the field tree. *)
Definition decoratesWell
    (getComponentTypeByField : Field -> UiField -> ComponentType)
    (getComponentConfig : option DataType -> ComponentType -> Component)
    (field : Field) : Prop :=
  forall tag formComponentKey this field' this',
    __decorateField getComponentTypeByField getComponentConfig field tag
      formComponentKey this = (Ok field', this') ->
    decorateFacts field tag this field' this'.

(** The run of [__decorateField] over the children and over the options
    of a field, when it goes through. *)
Definition childrenRun
    (getComponentTypeByField : Field -> UiField -> ComponentType)
    (getComponentConfig : option DataType -> ComponentType -> Component)
    (fs : option (list (string * Field))) (this : Form)
    (fs' : option (list (string * Field))) (this' : Form) : Prop :=
  match fs with
  | Some l =>
      ∃ l', fs' = Some l' ∧
            __decorateChildren getComponentTypeByField getComponentConfig l
              this = (Ok l', this')
  | None => fs' = None ∧ this' = this
  end.

Definition optionsRun
    (getComponentTypeByField : Field -> UiField -> ComponentType)
    (getComponentConfig : option DataType -> ComponentType -> Component)
    (os : option (list (FieldOption Field))) (this : Form)
    (os' : option (list (FieldOption Field))) (this' : Form) : Prop :=
  match os with
  | Some l =>
      ∃ l', os' = Some l' ∧
            decorateOptions getComponentTypeByField getComponentConfig l
              this = (Ok l', this')
  | None => os' = None ∧ this' = this
  end.

(** The index answers every keyed field of a list with the field itself. *)
Definition indexed (this : Form) (l : list (string * Field)) : Prop :=
  Forall (fun p => getField this (fst p) = Some (snd p)) l.

(** No field of the list carries its own tag again below itself. *)
Definition noTagBelowItself (l : list (string * Field)) : Prop :=
  Forall (fun p => fst p ∉ tagsBelow (snd p)) l.

(** What a run of the decoration over the keyed fields [l] has done, [l']
    being the same fields afterwards. *)
Definition grown (l : list (string * Field)) (this : Form)
    (l' : list (string * Field)) (this' : Form) : Prop :=
  registers (tagsOf l) this this' ∧
  tagsOf l' = tagsOf l ∧
  refsOf l' = refsOf l ∧
  Forall (fun p => decorated (snd p)) l' ∧
  Forall (fun p => is_Some (f_type (snd p))) l ∧
  (noTagBelowItself l -> indexed this' l').

(** The property of the index shown by induction over the field tree. *)
Definition indexesWell
    (getComponentTypeByField : Field -> UiField -> ComponentType)
    (getComponentConfig : option DataType -> ComponentType -> Component)
    (field : Field) : Prop :=
  forall tag formComponentKey this field' this',
    __decorateField getComponentTypeByField getComponentConfig field tag
      formComponentKey this = (Ok field', this') ->
    tag ∉ tagsBelow field ->
    noTagBelowItself (descendants field) ->
    indexed this' ((tag, field') :: descendants field').

(** Every keyed field of a subsection, of a section and of a list of
    sections, with the fields below them. *)
Definition descendantsOfSubsection (subsection : Subsection)
    : list (string * Field) :=
  descendantsOfFields (orEmpty (ss_fields subsection)).

Definition descendantsOfSection (section : FormSection)
    : list (string * Field) :=
  flat_map descendantsOfSubsection (orEmpty (sec_subsections section)).

Definition descendantsOfSections (l : list FormSection)
    : list (string * Field) :=
  flat_map descendantsOfSection l.

(** A run that throws. *)
Definition throws {A : Type} (m : M A) (this : Form) : Prop :=
  ∃ e this', m this = (Throw e, this').

(** How [__decorateField] obtains the UI field: through
    [__addComponentToUiSchemaAndReturnUiField] when a component key is
    supplied, from the UI schema or as [{}] otherwise. *)
Definition uiFieldRun (formComponentKey : option string) (tag : string)
    (this : Form) (uiField : UiField) (this' : Form) : Prop :=
  match suppliedKey formComponentKey with
  | Some type =>
      __addComponentToUiSchemaAndReturnUiField tag type this
      = (Ok uiField, this')
  | None =>
      this' = this ∧
      uiField = match getUiSchemaField this tag with
                | Some uiField => uiField
                | None => emptyUiField
                end
  end.

(** ** Samples of decoration *)

Definition sampleComponentTypeByField (field : Field) (uiField : UiField)
    : ComponentType :=
  mkComponentType 0.

Definition sampleComponentConfig (type : option DataType)
    (componentType : ComponentType) : Component :=
  mkComponent 0.

(** An instance as the constructor leaves it before [__initFields]. *)
Definition sampleFreshForm : Form := mkForm sampleTwoSections ∅ [] ∅ ∅.

(** The same for the definition with the tag "x" under two fields. *)
Definition sampleCousinForm : Form := mkForm sampleCousinDuplicate ∅ [] ∅ ∅.

(** The checkbox group with an untyped field under its second option. *)
Definition sampleUntyped : Field :=
  mkField 14 None None false None None None None None None None None None.

Definition sampleChoiceUntyped : Field :=
  withOptions
    [sampleOptionA; mkOption (IdStr "B") None (Some [("b", sampleUntyped)])]
    (plainField 10 ARRAY).

(** The form with the calculated total, its definition holding the trigger
    map and no expression map. *)
Definition sampleExpressionlessForm : Form :=
  set_definition
    (mkDefinition None None None
       (Some {[ "fieldId1" := ["total"]; "fieldId2" := ["total"] ]})
       None)
    sampleTotalForm.

(** A text field with an empty list of conditions, alone in an index. *)
Definition sampleQuiet : Field := withConditions [] (plainField 40 STRING).

Definition sampleQuietForm : Form := formOf ∅ {[ "quiet" := sampleQuiet ]}.

(** Two sections in ascending sort order. *)
Definition sampleSortedSections : list FormSection :=
  [ mkSection (Some 1%Z) None; mkSection (Some 2%Z) None;
    mkSection None None ].

(** * Properties *)

(** ** Induction over the field tree *)

Lemma Field_nested_ind (P : Field -> Prop) :
  (forall field,
      fieldsAll P (f_fields field) -> optionsAll P (f_options field) ->
      P field) ->
  forall field, P field.
Proof.
  intros IH. fix rec 1. intros field. apply IH.
  - destruct field as [? ? ? ? ? ? ? ? ? ? ? [fs|] ?]; simpl; [|exact I].
    induction fs as [|[t f] fs IHfs]; constructor; [apply rec | apply IHfs].
  - destruct field as [? ? ? ? ? ? ? ? ? ? ? ? [os|]]; simpl; [|exact I].
    induction os as [|[oid dvc [fs|]] os IHos]; constructor;
      simpl; try exact I; try apply IHos.
    induction fs as [|[t f] fs IHfs]; constructor; [apply rec | apply IHfs].
Qed.

(** ** The store: unfolding [setModelValue] *)

Section StoreFacts.

Variable hasValue : JsValue -> bool.
Variable __blank : JsValue -> bool.

Lemma setModelValue_unfold tag value field this :
  setModelValue hasValue __blank tag value field this =
  match f_fields field with
  | Some fs =>
      if emptyForType __blank (f_type field) value
      then __clearFields hasValue __blank fs
             (afterOptions hasValue __blank tag value field this)
      else afterOptions hasValue __blank tag value field this
  | None => afterOptions hasValue __blank tag value field this
  end.
Proof.
  assert (Hcf : forall fs s,
    (fix clearFields (fields : list (string * Field)) (this : Form)
        {struct fields} : Form :=
      match fields with
      | [] => this
      | (t, f) :: rest =>
          clearFields rest
            (if hasValue (getModelValue this t)
             then setModelValue hasValue __blank t VUndefined f this
             else this)
      end) fs s = __clearFields hasValue __blank fs s).
  { induction fs as [|[t f] fs IH]; intros s; simpl; [reflexivity | apply IH]. }
  unfold afterOptions.
  destruct field as [? ? ? ? ? ? ? ? ? ? ? ffields foptions]; simpl.
  assert (Hco : forall os s,
    (fix clearOptionChildren (options : list (FieldOption Field))
        (this : Form) {struct options} : Form :=
      match options with
      | [] => this
      | o :: rest =>
          clearOptionChildren rest
            (match o with
             | mkOption oid _ (Some fs) =>
                 if negb (_includes value (id_toString oid))
                 then (fix clearFields (fields : list (string * Field))
                           (this : Form) {struct fields} : Form :=
                         match fields with
                         | [] => this
                         | (t, f) :: rest =>
                             clearFields rest
                               (if hasValue (getModelValue this t)
                                then setModelValue hasValue __blank t VUndefined f this
                                else this)
                         end) fs this
                 else this
             | mkOption _ _ None => this
             end)
      end) os s = __clearOptionChildren hasValue __blank os value s).
  { induction os as [|[oid dvc [ofs|]] os IH]; intros s; simpl;
      [reflexivity | | apply IH].
    unfold clearOptionStep; simpl. rewrite IH, Hcf. reflexivity. }
  destruct foptions as [os|]; destruct ffields as [fs|];
    rewrite ?Hco, ?Hcf; reflexivity.
Qed.

End StoreFacts.

(** ** What lies below a field *)

Lemma descendants_unfold field :
  descendants field =
  descendantsOfOptions (orEmpty (f_options field)) ++
  descendantsOfFields (orEmpty (f_fields field)).
Proof.
  assert (Hb : forall fs,
    (fix below (fs : list (string * Field)) : list (string * Field) :=
      match fs with
      | [] => []
      | (t, f) :: rest => (t, f) :: descendants f ++ below rest
      end) fs = descendantsOfFields fs).
  { induction fs as [|[t f] fs IH]; simpl; [reflexivity | now rewrite IH]. }
  destruct field as [? ? ? ? ? ? ? ? ? ? ? ffields foptions]; simpl.
  f_equal.
  - destruct foptions as [os|]; [|reflexivity]. simpl.
    induction os as [|[oid dvc [fs|]] os IH]; simpl; [reflexivity | |].
    + unfold descendantsOfOption; simpl. now rewrite IH, Hb.
    + unfold descendantsOfOption; simpl. now rewrite IH.
  - destruct ffields as [fs|]; [apply Hb | reflexivity].
Qed.

(** ** Clearing only removes *)

Lemma clearsWithin_refl T R this : clearsWithin T R this this.
Proof. repeat split; intros; now left. Qed.

Lemma clearsWithin_weaken T R T' R' this this' :
  T ⊆ T' -> R ⊆ R' ->
  clearsWithin T R this this' -> clearsWithin T' R' this this'.
Proof.
  intros HT HR (Hd & Hs & Hf & Hm & Hr). repeat split; try assumption.
  - intros k. destruct (Hm k) as [?|[? ?]]; [now left | right; split; auto].
  - intros r. destruct (Hr r) as [?|[? ?]]; [now left | right; split; auto].
Qed.

Lemma clearsWithin_trans T R a b c :
  clearsWithin T R a b -> clearsWithin T R b c -> clearsWithin T R a c.
Proof.
  intros (Hd & Hs & Hf & Hm & Hr) (Hd' & Hs' & Hf' & Hm' & Hr').
  repeat split; try congruence.
  - intros k. destruct (Hm' k) as [E|[? ?]]; [|right; split; auto].
    rewrite E. apply Hm.
  - intros r. destruct (Hr' r) as [E|[? ?]]; [|right; split; auto].
    rewrite E. apply Hr.
Qed.

Lemma writeModelValue_undefined_clears tag field this :
  clearsWithin [tag] [f_ref field] this
    (writeModelValue tag VUndefined field this).
Proof.
  unfold writeModelValue; simpl. repeat split; simpl.
  - intros k. destruct (decide (k = tag)) as [->|Hne].
    + right. split; [apply list_elem_of_singleton; reflexivity |].
      apply lookup_delete_eq.
    + left. now apply lookup_delete_ne.
  - intros r. destruct (decide (r = f_ref field)) as [->|Hne].
    + right. split; [apply list_elem_of_singleton; reflexivity |].
      apply lookup_insert_eq.
    + left. now apply lookup_insert_ne.
Qed.

Section StoreClears.

Variable hasValue : JsValue -> bool.
Variable __blank : JsValue -> bool.

Lemma clearFields_clears_aux fs :
  Forall (fun p => clearsBelow hasValue __blank (snd p)) fs ->
  forall this,
    clearsWithin (tagsOf (descendantsOfFields fs))
                 (refsOf (descendantsOfFields fs))
                 this (__clearFields hasValue __blank fs this).
Proof.
  induction 1 as [|[t f] fs Hf _ IH]; intros this; simpl.
  - apply clearsWithin_refl.
  - eapply clearsWithin_trans.
    2:{ eapply clearsWithin_weaken; [| | apply IH].
        - unfold tagsOf. simpl. rewrite map_app. set_solver.
        - unfold refsOf. simpl. rewrite map_app. set_solver. }
    destruct (hasValue (getModelValue this t)); [|apply clearsWithin_refl].
    eapply clearsWithin_weaken; [| | apply Hf].
    + unfold tagsOf, tagsBelow. simpl. rewrite map_app. set_solver.
    + unfold refsOf, refsBelow. simpl. rewrite map_app. set_solver.
Qed.

Lemma clearOptionChildren_clears_aux os value :
  Forall (fun o => fieldsAll (clearsBelow hasValue __blank) (o_fields o)) os ->
  forall this,
    clearsWithin (tagsOf (descendantsOfOptions os))
                 (refsOf (descendantsOfOptions os))
                 this (__clearOptionChildren hasValue __blank os value this).
Proof.
  induction 1 as [|o os Ho _ IH]; intros this; simpl.
  - apply clearsWithin_refl.
  - eapply clearsWithin_trans.
    2:{ eapply clearsWithin_weaken; [| | apply IH].
        - unfold tagsOf. rewrite map_app. set_solver.
        - unfold refsOf. rewrite map_app. set_solver. }
    unfold clearOptionStep, descendantsOfOption.
    destruct (o_fields o) as [fs|]; [|apply clearsWithin_refl].
    destruct (negb _); [|apply clearsWithin_refl].
    eapply clearsWithin_weaken; [| | apply clearFields_clears_aux, Ho].
    + unfold tagsOf. rewrite map_app. set_solver.
    + unfold refsOf. rewrite map_app. set_solver.
Qed.

Lemma setModelValue_undefined_clears field :
  clearsBelow hasValue __blank field.
Proof.
  induction field as [field IHf IHo] using Field_nested_ind.
  intros tag this. rewrite setModelValue_unfold.
  assert (Ho : clearsWithin (tag :: tagsBelow field)
                 (f_ref field :: refsBelow field) this
                 (afterOptions hasValue __blank tag VUndefined field this)).
  { unfold afterOptions.
    assert (Hw := writeModelValue_undefined_clears tag field this).
    unfold tagsBelow, refsBelow. rewrite descendants_unfold.
    destruct (f_options field) as [os|]; simpl in *.
    - eapply clearsWithin_trans.
      + eapply clearsWithin_weaken; [| | apply Hw]; set_solver.
      + eapply clearsWithin_weaken;
          [| | apply clearOptionChildren_clears_aux, IHo].
        * unfold tagsOf. rewrite map_app. set_solver.
        * unfold refsOf. rewrite map_app. set_solver.
    - eapply clearsWithin_weaken; [| | apply Hw]; set_solver. }
  unfold fieldsAll in IHf.
  destruct (f_fields field) as [fs|] eqn:Efs; [|exact Ho].
  destruct (emptyForType _ _ _); [|exact Ho].
  eapply clearsWithin_trans; [exact Ho|].
  eapply clearsWithin_weaken; [| | apply clearFields_clears_aux, IHf].
  - unfold tagsBelow. rewrite descendants_unfold, Efs. simpl.
    unfold tagsOf. rewrite map_app. set_solver.
  - unfold refsBelow. rewrite descendants_unfold, Efs. simpl.
    unfold refsOf. rewrite map_app. set_solver.
Qed.

Lemma Forall_all {A : Type} (P : A -> Prop) (l : list A) :
  (forall x, P x) -> Forall P l.
Proof. intros H. induction l; constructor; auto. Qed.

Lemma clearFields_clears fs this :
  clearsWithin (tagsOf (descendantsOfFields fs))
               (refsOf (descendantsOfFields fs))
               this (__clearFields hasValue __blank fs this).
Proof.
  apply clearFields_clears_aux, Forall_all.
  intros p. apply setModelValue_undefined_clears.
Qed.

Lemma clearOptionChildren_clears os value this :
  clearsWithin (tagsOf (descendantsOfOptions os))
               (refsOf (descendantsOfOptions os))
               this (__clearOptionChildren hasValue __blank os value this).
Proof.
  apply clearOptionChildren_clears_aux, Forall_all.
  intros o. unfold fieldsAll. destruct (o_fields o); [|exact I].
  apply Forall_all. intros p. apply setModelValue_undefined_clears.
Qed.

End StoreClears.

(** ** The write and its cascades *)

Section StoreWrite.

Variable hasValue : JsValue -> bool.
Variable __blank : JsValue -> bool.

(** After its first block, [setModelValue] only clears below the field. *)
Lemma setModelValue_after_write tag value field this :
  clearsWithin (tagsBelow field) (refsBelow field)
    (writeModelValue tag value field this)
    (setModelValue hasValue __blank tag value field this).
Proof.
  rewrite setModelValue_unfold.
  assert (Ho : clearsWithin (tagsBelow field) (refsBelow field)
                 (writeModelValue tag value field this)
                 (afterOptions hasValue __blank tag value field this)).
  { unfold afterOptions, tagsBelow, refsBelow. rewrite descendants_unfold.
    destruct (f_options field) as [os|]; simpl; [|apply clearsWithin_refl].
    eapply clearsWithin_weaken; [| | apply clearOptionChildren_clears].
    - unfold tagsOf. rewrite map_app. set_solver.
    - unfold refsOf. rewrite map_app. set_solver. }
  destruct (f_fields field) as [fs|] eqn:Efs; [|exact Ho].
  destruct (emptyForType _ _ _); [|exact Ho].
  eapply clearsWithin_trans; [exact Ho|].
  eapply clearsWithin_weaken; [| | apply clearFields_clears].
  - unfold tagsBelow. rewrite descendants_unfold, Efs. simpl.
    unfold tagsOf. rewrite map_app. set_solver.
  - unfold refsBelow. rewrite descendants_unfold, Efs. simpl.
    unfold refsOf. rewrite map_app. set_solver.
Qed.

Lemma setModelValue_frame tag value field this :
  definition (setModelValue hasValue __blank tag value field this)
    = definition this ∧
  sections (setModelValue hasValue __blank tag value field this)
    = sections this ∧
  fields (setModelValue hasValue __blank tag value field this) = fields this.
Proof.
  destruct (setModelValue_after_write tag value field this)
    as (Hd & Hs & Hf & _).
  rewrite Hd, Hs, Hf. unfold writeModelValue.
  destruct (isUndefined value); simpl; auto.
Qed.

Lemma getModelValue_absent this tag :
  model this !! tag = None -> getModelValue this tag = VUndefined.
Proof. unfold getModelValue. now intros ->. Qed.

Lemma setModelValue_undefined_removes tag field this :
  model (setModelValue hasValue __blank tag VUndefined field this) !! tag = None.
Proof.
  destruct (setModelValue_after_write tag VUndefined field this)
    as (_ & _ & _ & Hm & _).
  destruct (Hm tag) as [E|[_ E]]; [|exact E].
  rewrite E. unfold writeModelValue; simpl. apply lookup_delete_eq.
Qed.

Lemma setModelValue_undefined_not_dirty tag field this :
  dirty (setModelValue hasValue __blank tag VUndefined field this)
    !! f_ref field = Some false.
Proof.
  destruct (setModelValue_after_write tag VUndefined field this)
    as (_ & _ & _ & _ & Hr).
  destruct (Hr (f_ref field)) as [E|[_ E]]; [|exact E].
  rewrite E. unfold writeModelValue; simpl. apply lookup_insert_eq.
Qed.

Lemma setModelValue_stores tag value field this :
  isUndefined value = false -> tag ∉ tagsBelow field ->
  model (setModelValue hasValue __blank tag value field this) !! tag
    = Some (envelope value field).
Proof.
  intros Hv Hn.
  destruct (setModelValue_after_write tag value field this)
    as (_ & _ & _ & Hm & _).
  destruct (Hm tag) as [E|[Hin _]]; [|contradiction].
  rewrite E. unfold writeModelValue. rewrite Hv; simpl.
  apply lookup_insert_eq.
Qed.

Lemma setModelValue_dirty tag value field this :
  isUndefined value = false -> f_ref field ∉ refsBelow field ->
  dirty (setModelValue hasValue __blank tag value field this) !! f_ref field
    = Some true.
Proof.
  intros Hv Hn.
  destruct (setModelValue_after_write tag value field this)
    as (_ & _ & _ & _ & Hr).
  destruct (Hr (f_ref field)) as [E|[Hin _]]; [|contradiction].
  rewrite E. unfold writeModelValue. rewrite Hv; simpl.
  apply lookup_insert_eq.
Qed.

Lemma isUndefined_false value : value ≠ VUndefined -> isUndefined value = false.
Proof. destruct value; simpl; congruence. Qed.

Lemma envelope_value value field : e_value (envelope value field) = value.
Proof. unfold envelope. now destruct (f_definition field). Qed.

Lemma envelope_provenance value field :
  envelope value field =
  mkEntry value (d_type <$> f_definition field)
                (d_definitionId <$> f_definition field).
Proof. unfold envelope. now destruct (f_definition field). Qed.

(** C4.  Clearing ([value === undefined]) leaves no model entry for the
    tag and the field not dirty; any other value leaves at [model[tag]] the
    envelope of the value, with the two provenance properties exactly when
    the field has a [definition], and the field dirty; in both cases
    [getModelValue] then answers the value, which is [undefined] when no
    envelope is there.  For a set, the tag and the field object must not
    come back below the field (tags are unique, a tree does not contain its
    root): the clearing of children would otherwise undo the write. *)
Theorem setModelValue_clear_and_set tag value field this :
  (value ≠ VUndefined -> wellNested tag field) ->
  let this' := setModelValue hasValue __blank tag value field this in
  match value with
  | VUndefined =>
      model this' !! tag = None ∧ dirty this' !! f_ref field = Some false
  | _ =>
      model this' !! tag
        = Some (mkEntry value (d_type <$> f_definition field)
                              (d_definitionId <$> f_definition field)) ∧
      dirty this' !! f_ref field = Some true
  end ∧
  getModelValue this' tag = value ∧
  (forall other, model this' !! other = None ->
                 getModelValue this' other = VUndefined).
Proof.
  intros Hwn this'.
  assert (Hset : value ≠ VUndefined ->
            model this' !! tag = Some (envelope value field) ∧
            dirty this' !! f_ref field = Some true).
  { intros Hv. destruct (Hwn Hv) as [Ht Hr].
    split; [apply setModelValue_stores | apply setModelValue_dirty];
      auto using isUndefined_false. }
  split; [|split].
  - rewrite envelope_provenance in Hset.
    destruct value; try (apply Hset; discriminate).
    split; [apply setModelValue_undefined_removes
           | apply setModelValue_undefined_not_dirty].
  - assert (Hcase : value = VUndefined ∨ value ≠ VUndefined)
      by (destruct value; (now left) || (right; discriminate)).
    destruct Hcase as [->|Hv].
    + apply getModelValue_absent, setModelValue_undefined_removes.
    + unfold getModelValue. destruct (Hset Hv) as [-> _].
      apply envelope_value.
  - intros other. apply getModelValue_absent.
Qed.

End StoreWrite.

Lemma setModelValue_clear_and_set_witness :
  (VStr "Main St" ≠ VUndefined -> wellNested "street" sampleStreet) ∧
  model (setModelValue hasValue_spec blank_spec "street" (VStr "Main St")
           sampleStreet sampleStreetForm) !! "street"
    = Some (mkEntry (VStr "Main St") (Some (VStr "address")) (Some (VNum 7))) ∧
  dirty (setModelValue hasValue_spec blank_spec "street" (VStr "Main St")
           sampleStreet sampleStreetForm) !! 1
    = Some true.
Proof.
  assert (H : VStr "Main St" ≠ VUndefined -> wellNested "street" sampleStreet).
  { intros _. split; vm_compute; intros Hin;
      repeat (apply elem_of_cons in Hin as [Hin|Hin]; [discriminate|]);
      inversion Hin. }
  split; [exact H|].
  exact (proj1 (setModelValue_clear_and_set hasValue_spec blank_spec
                  "street" (VStr "Main St") sampleStreet
                  sampleStreetForm H)).
Defined.

(** ** Clearing children *)

Section StoreChildren.

Variable hasValue : JsValue -> bool.
Variable __blank : JsValue -> bool.
Hypothesis hasValue_undefined : hasValue VUndefined = false.

Lemma valueless_stays T R this this' t :
  clearsWithin T R this this' ->
  hasValue (getModelValue this t) = false ->
  hasValue (getModelValue this' t) = false.
Proof.
  intros (_ & _ & _ & Hm & _) Hv. unfold getModelValue in *.
  destruct (Hm t) as [E|[_ E]]; rewrite E; [exact Hv | exact hasValue_undefined].
Qed.

Lemma setModelValue_undefined_valueless tag field this :
  hasValue (getModelValue
              (setModelValue hasValue __blank tag VUndefined field this) tag)
    = false.
Proof.
  rewrite getModelValue_absent; [exact hasValue_undefined|].
  apply setModelValue_undefined_removes.
Qed.

(** After [__clearFields(fields)] none of the fields holds a value. *)
Lemma clearFields_cleared fs this t f :
  (t, f) ∈ fs ->
  hasValue (getModelValue (__clearFields hasValue __blank fs this) t) = false.
Proof.
  revert this. induction fs as [|[t' f'] fs IH]; intros this Hin.
  - inversion Hin.
  - simpl. apply elem_of_cons in Hin as [Heq|Hin]; [|now apply IH].
    injection Heq as -> ->.
    eapply valueless_stays; [apply clearFields_clears|].
    destruct (hasValue (getModelValue this t')) eqn:E; [|exact E].
    apply setModelValue_undefined_valueless.
Qed.

(** After [__clearOptionChildren(options, value)] no field directly under
    a deselected option holds a value. *)
Lemma clearOptionChildren_cleared os value this o fs t f :
  o ∈ os -> o_fields o = Some fs ->
  _includes value (id_toString (o_id o)) = false ->
  (t, f) ∈ fs ->
  hasValue (getModelValue
              (__clearOptionChildren hasValue __blank os value this) t)
    = false.
Proof.
  revert this. induction os as [|o' os IH]; intros this Ho Hfs Hinc Hin.
  - inversion Ho.
  - simpl. apply elem_of_cons in Ho as [<-|Ho]; [|now apply IH].
    eapply valueless_stays; [apply clearOptionChildren_clears|].
    unfold clearOptionStep. rewrite Hfs, Hinc. simpl.
    now apply clearFields_cleared with (f := f).
Qed.

End StoreChildren.

Lemma unselectedOptions_below value os :
  tagsOf (descendantsOfOptions (unselectedOptions value os))
    ⊆ tagsOf (descendantsOfOptions os).
Proof.
  induction os as [|o os IH]; [set_solver|].
  unfold unselectedOptions in *. rewrite filter_cons. simpl.
  case_decide; simpl; unfold tagsOf in *; rewrite ?map_app; set_solver.
Qed.

Section StoreReach.

Variable hasValue : JsValue -> bool.
Variable __blank : JsValue -> bool.

Lemma writeModelValue_elsewhere tag value field this k :
  k ≠ tag -> model (writeModelValue tag value field this) !! k = model this !! k.
Proof.
  intros Hne. unfold writeModelValue. destruct (isUndefined value); simpl.
  - now apply lookup_delete_ne.
  - now apply lookup_insert_ne.
Qed.

(** [__clearOptionChildren] reaches only below the deselected options. *)
Lemma clearOptionChildren_clears_unselected os value this :
  clearsWithin
    (tagsOf (descendantsOfOptions (unselectedOptions value os)))
    (refsOf (descendantsOfOptions (unselectedOptions value os)))
    this (__clearOptionChildren hasValue __blank os value this).
Proof.
  revert this. induction os as [|o os IH]; intros this; simpl.
  - apply clearsWithin_refl.
  - unfold unselectedOptions in IH |- *. rewrite filter_cons.
    eapply clearsWithin_trans.
    2:{ eapply clearsWithin_weaken; [| | apply IH].
        - case_decide; simpl; [|set_solver].
          unfold tagsOf. rewrite map_app. set_solver.
        - case_decide; simpl; [|set_solver].
          unfold refsOf. rewrite map_app. set_solver. }
    unfold clearOptionStep.
    destruct (o_fields o) as [fs|] eqn:Efs; [|apply clearsWithin_refl].
    destruct (negb _) eqn:En; [|apply clearsWithin_refl].
    rewrite decide_True by reflexivity. simpl.
    eapply clearsWithin_weaken; [| | apply clearFields_clears].
    + unfold tagsOf, descendantsOfOption. rewrite Efs, map_app. set_solver.
    + unfold refsOf, descendantsOfOption. rewrite Efs, map_app. set_solver.
Qed.

Lemma afterOptions_elsewhere tag value field this k :
  k ≠ tag ->
  k ∉ tagsOf (descendantsOfOptions
                (unselectedOptions value (orEmpty (f_options field)))) ->
  model (afterOptions hasValue __blank tag value field this) !! k
    = model this !! k.
Proof.
  intros Hne Hk. unfold afterOptions.
  destruct (f_options field) as [os|]; simpl in Hk;
    [|now apply writeModelValue_elsewhere].
  destruct (clearOptionChildren_clears_unselected os value
              (writeModelValue tag value field this)) as (_ & _ & _ & Hm & _).
  destruct (Hm k) as [E|[Hin _]]; [|contradiction].
  rewrite E. now apply writeModelValue_elsewhere.
Qed.


End StoreReach.

(** ** Composite children (C2, C10) and option children (C3) *)

Section StoreClaims.

Variable hasValue : JsValue -> bool.
Variable __blank : JsValue -> bool.
Hypothesis hasValue_undefined : hasValue VUndefined = false.



Lemma isEmpty_array items : _isEmpty (VArr items) = true <-> items = [].
Proof. destruct items; simpl; split; congruence. Qed.



Hypothesis blank_undefined : __blank VUndefined = true.

(** C10.  Clearing a composite field ([setModelValue(tag, undefined,
    field)]) always removes the field's own entry and resets its dirty
    flag.  For a BOOLEAN or NUMBER field it goes no further than the option
    cascade: every other entry that is not below an option, the children's
    among them, is as it was.  For every other type (ARRAY, STRING, DATE,
    ...) no child holds a value afterwards. *)
Theorem clearing_composite_depends_on_type tag field fs this :
  f_fields field = Some fs ->
  let this' := setModelValue hasValue __blank tag VUndefined field this in
  model this' !! tag = None ∧
  dirty this' !! f_ref field = Some false ∧
  match f_type field with
  | Some BOOLEAN | Some NUMBER =>
      this' = afterOptions hasValue __blank tag VUndefined field this ∧
      forall k, k ≠ tag ->
        k ∉ tagsOf (descendantsOfOptions (orEmpty (f_options field))) ->
        model this' !! k = model this !! k
  | _ => forall t f, (t, f) ∈ fs -> hasValue (getModelValue this' t) = false
  end.
Proof.
  intros Hfs this'.
  split; [apply setModelValue_undefined_removes|].
  split; [apply setModelValue_undefined_not_dirty|].
  assert (Hunf := setModelValue_unfold hasValue __blank tag VUndefined field this).
  rewrite Hfs in Hunf. fold this' in Hunf.
  assert (Hkeep :
    emptyForType __blank (f_type field) VUndefined = false ->
    this' = afterOptions hasValue __blank tag VUndefined field this ∧
    forall k, k ≠ tag ->
      k ∉ tagsOf (descendantsOfOptions (orEmpty (f_options field))) ->
      model this' !! k = model this !! k).
  { intros E. rewrite E in Hunf. split; [exact Hunf|].
    intros k Hne Hk. rewrite Hunf. apply afterOptions_elsewhere; [exact Hne|].
    intros Hin. apply Hk. exact (unselectedOptions_below _ _ _ Hin). }
  assert (Hclear :
    emptyForType __blank (f_type field) VUndefined = true ->
    forall t f, (t, f) ∈ fs -> hasValue (getModelValue this' t) = false).
  { intros E t f Hin. rewrite E in Hunf. rewrite Hunf.
    now apply clearFields_cleared with (f := f). }
  destruct (f_type field) as [[| | | | |]|]; simpl in *;
    solve [apply Hkeep; reflexivity
          | apply Hclear; reflexivity
          | apply Hclear; exact blank_undefined].
Qed.

End StoreClaims.

(** Membership in a list that is written out. *)
Ltac not_in_cons :=
  vm_compute;
  let Hin := fresh "Hin" in
  intros Hin;
  repeat (apply elem_of_cons in Hin as [Hin|Hin]; [discriminate|]);
  inversion Hin.

Ltac in_cons :=
  repeat first [apply list_elem_of_here | apply list_elem_of_further].




Lemma clearing_composite_depends_on_type_witness :
  hasValue_spec VUndefined = false ∧
  blank_spec VUndefined = true ∧
  f_fields sampleFlag = Some [("g", plainField 13 STRING)] ∧
  model (setModelValue hasValue_spec blank_spec "b" VUndefined sampleFlag
           sampleChoiceForm) !! "b" = None ∧
  model (setModelValue hasValue_spec blank_spec "b" VUndefined sampleFlag
           sampleChoiceForm) !! "g"
    = Some (plainEntry (VStr "x")).
Proof.
  split; [reflexivity|]. split; [reflexivity|]. split; [reflexivity|].
  destruct (clearing_composite_depends_on_type hasValue_spec blank_spec
              eq_refl eq_refl "b" sampleFlag [("g", plainField 13 STRING)]
              sampleChoiceForm eq_refl) as (Hgone & _ & _ & Hkeep).
  split; [exact Hgone|].
  rewrite Hkeep; [reflexivity | discriminate | not_in_cons].
Defined.

(** ** The cascades *)

Lemma resolve_own_conditions field conditions :
  f_defaultValueConditions field = Some conditions ->
  resolveDefaultValueConditions field = map Some conditions.
Proof. unfold resolveDefaultValueConditions. now intros ->. Qed.

Lemma resolve_option_conditions field :
  f_defaultValueConditions field = None ->
  Forall (fun o => is_Some (o_defaultValueConditions o))
         (orEmpty (f_options field)) ->
  resolveDefaultValueConditions field =
  map Some (concat (map (fun o => orEmpty (o_defaultValueConditions o))
                        (orEmpty (f_options field)))).
Proof.
  unfold resolveDefaultValueConditions. intros -> Hall.
  destruct (f_options field) as [os|]; simpl in *; [|reflexivity].
  induction Hall as [|o os [cs Ho] _ IH]; simpl; [reflexivity|].
  rewrite Ho, IH. simpl. now rewrite map_app.
Qed.

Lemma resolve_declared field :
  (f_defaultValueConditions field = None ->
   Forall (fun o => is_Some (o_defaultValueConditions o))
          (orEmpty (f_options field))) ->
  resolveDefaultValueConditions field = map Some (declaredConditions field).
Proof.
  intros H. unfold declaredConditions.
  destruct (f_defaultValueConditions field) as [cs|] eqn:E.
  - now apply resolve_own_conditions.
  - apply resolve_option_conditions; auto.
Qed.

(** Instances with the same definition and the same index of fields. *)
Lemma wellReferenced_same_shape this this' :
  definition this' = definition this -> fields this' = fields this ->
  wellReferenced this -> wellReferenced this'.
Proof.
  unfold wellReferenced, resolvable, getCalcExpressionByTag,
    defaultValueDependents, getField.
  intros -> ->. auto.
Qed.

Lemma forEach_cons {A : Type} (x : A) l body this :
  forEach (x :: l) body this =
  match body x this with
  | (Ok _, this') => forEach l body this'
  | (Throw e, this') => (Throw e, this')
  end.
Proof. reflexivity. Qed.

Lemma bind_ok {A B : Type} (m : M A) (k : A -> M B) this a this' :
  m this = (Ok a, this') -> bind m k this = k a this'.
Proof. unfold bind. now intros ->. Qed.

Section EngineFacts.

Variable hasValue : JsValue -> bool.
Variable __blank : JsValue -> bool.
Variable evalCondition : Expr -> Form -> bool.
Variable evalExpression : Expr -> Form -> JsValue.
Variable onUpdate : Field -> JsValue -> JsValue -> JsValue.

Lemma applyDefaultValueCondition_step tag field ce this :
  applyDefaultValueCondition hasValue __blank evalCondition evalExpression
    onUpdate tag field (Some ce) this
  = (Ok tt,
     defaultValueStep hasValue __blank evalCondition evalExpression onUpdate
       tag field this ce).
Proof.
  unfold applyDefaultValueCondition, defaultValueStep, candidateValue,
    bind, reads, ret, modify.
  destruct (evalCondition (ce_condition ce) this); [|reflexivity].
  destruct (isArrayType (f_type field)); reflexivity.
Qed.

(** The inner loop runs every condition, in order. *)
Lemma forEach_conditions tag field conditions this :
  forEach (map Some conditions)
    (applyDefaultValueCondition hasValue __blank evalCondition
       evalExpression onUpdate tag field) this
  = (Ok tt,
     fold_left (defaultValueStep hasValue __blank evalCondition
                  evalExpression onUpdate tag field) conditions this).
Proof.
  revert this. induction conditions as [|ce cs IH]; intros this.
  - reflexivity.
  - cbn [map fold_left].
    rewrite forEach_cons, applyDefaultValueCondition_step. apply IH.
Qed.

Lemma defaultValueStep_shape tag field this ce :
  definition (defaultValueStep hasValue __blank evalCondition evalExpression
                onUpdate tag field this ce) = definition this ∧
  fields (defaultValueStep hasValue __blank evalCondition evalExpression
            onUpdate tag field this ce) = fields this.
Proof.
  unfold defaultValueStep.
  destruct (evalCondition (ce_condition ce) this); [|auto].
  destruct (setModelValue_frame hasValue __blank tag
              (candidateValue evalExpression onUpdate tag field ce this)
              field this) as (Hd & _ & Hf).
  auto.
Qed.

Lemma fold_conditions_shape tag field conditions this :
  definition (fold_left (defaultValueStep hasValue __blank evalCondition
                           evalExpression onUpdate tag field)
                        conditions this) = definition this ∧
  fields (fold_left (defaultValueStep hasValue __blank evalCondition
                       evalExpression onUpdate tag field)
                    conditions this) = fields this.
Proof.
  revert this. induction conditions as [|ce cs IH]; intros this; simpl.
  - auto.
  - destruct (IH (defaultValueStep hasValue __blank evalCondition
                    evalExpression onUpdate tag field this ce)) as [Hd Hf].
    destruct (defaultValueStep_shape tag field this ce) as [Hd' Hf'].
    split; congruence.
Qed.

Lemma defaultValueCascade_shape tags this :
  definition (defaultValueCascade hasValue __blank evalCondition
                evalExpression onUpdate tags this) = definition this ∧
  fields (defaultValueCascade hasValue __blank evalCondition evalExpression
            onUpdate tags this) = fields this.
Proof.
  unfold defaultValueCascade.
  revert this. induction tags as [|tag tags IH]; intros this; simpl; [auto|].
  destruct (getField this tag) as [field|]; [|apply IH].
  match goal with |- context [fold_left _ tags ?s] =>
    destruct (IH s) as [Hd Hf] end.
  destruct (fold_conditions_shape tag field (declaredConditions field) this)
    as [Hd' Hf'].
  split; congruence.
Qed.

Lemma evaluateDefaultValueConditions_cascade tags this :
  Forall (resolvable this) tags ->
  evaluateDefaultValueConditions hasValue __blank evalCondition
    evalExpression onUpdate tags this
  = (Ok tt,
     defaultValueCascade hasValue __blank evalCondition evalExpression
       onUpdate tags this).
Proof.
  unfold evaluateDefaultValueConditions, defaultValueCascade.
  revert this. induction tags as [|tag tags IH]; intros this Hall.
  - reflexivity.
  - apply Forall_cons in Hall as [(field & Hfield & Hopts) Hall].
    cbn [fold_left]. rewrite forEach_cons, Hfield.
    unfold evaluateDefaultValueConditionsOf at 1.
    rewrite (bind_ok _ _ this (Some field) this)
      by (unfold reads; now rewrite Hfield).
    rewrite (resolve_declared field Hopts), forEach_conditions.
    apply IH.
    destruct (fold_conditions_shape tag field (declaredConditions field) this)
      as [Hd Hf].
    eapply Forall_impl; [exact Hall|].
    intros dependent (f & Hf' & Ho). exists f. split; [|exact Ho].
    unfold getField in *. now rewrite Hf.
Qed.

Lemma triggerDefaultValueEvaluation_cascade tag this :
  wellReferenced this ->
  triggerDefaultValueEvaluation hasValue __blank evalCondition evalExpression
    onUpdate tag this
  = (Ok tt,
     defaultValueCascade hasValue __blank evalCondition evalExpression
       onUpdate (defaultValueDependents this tag) this).
Proof.
  intros (_ & [triggers Ht] & _ & Hdeps).
  assert (Hall : Forall (resolvable this) (defaultValueDependents this tag)).
  { apply Forall_forall. intros dependent Hin.
    exact (Hdeps tag dependent Hin). }
  unfold triggerDefaultValueEvaluation, bind, lookupIn.
  unfold defaultValueDependents in *. rewrite Ht in *. unfold ret at 1.
  destruct (triggers !! tag) as [tags|]; simpl in *.
  - now apply evaluateDefaultValueConditions_cascade.
  - reflexivity.
Qed.

Lemma calculateTag_cascade tag this :
  wellReferenced this ->
  calculateTag hasValue __blank evalCondition evalExpression onUpdate tag this
  = (Ok tt,
     calculationCascade hasValue __blank evalCondition evalExpression
       onUpdate [tag] this) ∧
  wellReferenced
    (calculationCascade hasValue __blank evalCondition evalExpression
       onUpdate [tag] this).
Proof.
  intros Hwr. unfold calculateTag, calculationCascade. cbn [fold_left].
  rewrite (bind_ok _ _ this (getCalcExpressionByTag this tag) this)
    by reflexivity.
  destruct (getCalcExpressionByTag this tag) as [e|] eqn:He;
    [|split; [reflexivity | exact Hwr]].
  destruct Hwr as (Hc & Hd & Hcalc & Hdeps).
  destruct (Hcalc tag) as [field Hfield]; [rewrite He; eauto|].
  rewrite Hfield.
  rewrite (bind_ok _ _ this (evalExpression e this) this) by reflexivity.
  rewrite (bind_ok _ _ this (Some field) this)
    by (unfold reads; now rewrite Hfield).
  rewrite (bind_ok _ _ this tt
             (setModelValue hasValue __blank tag (evalExpression e this)
                field this)) by reflexivity.
  destruct (setModelValue_frame hasValue __blank tag (evalExpression e this)
              field this) as (Hdef & _ & Hfs).
  assert (Hwr' : wellReferenced
                   (setModelValue hasValue __blank tag
                      (evalExpression e this) field this)).
  { apply (wellReferenced_same_shape this); auto. repeat split; auto. }
  split.
  - now apply triggerDefaultValueEvaluation_cascade.
  - match goal with |- wellReferenced (defaultValueCascade _ _ _ _ _ ?l ?s) =>
      destruct (defaultValueCascade_shape l s) as [Hd2 Hf2] end.
    eapply wellReferenced_same_shape; [exact Hd2 | exact Hf2 | exact Hwr'].
Qed.

Lemma forEach_calculateTag tags this :
  wellReferenced this ->
  forEach tags
    (calculateTag hasValue __blank evalCondition evalExpression onUpdate) this
  = (Ok tt,
     calculationCascade hasValue __blank evalCondition evalExpression
       onUpdate tags this).
Proof.
  revert this. induction tags as [|tag tags IH]; intros this Hwr.
  - reflexivity.
  - destruct (calculateTag_cascade tag this Hwr) as [Hstep Hwr'].
    rewrite forEach_cons, Hstep, (IH _ Hwr'). reflexivity.
Qed.

End EngineFacts.

Section EngineClaims.

Variable hasValue : JsValue -> bool.
Variable __blank : JsValue -> bool.
Variable evalCondition : Expr -> Form -> bool.
Variable evalExpression : Expr -> Form -> JsValue.
Variable onUpdate : Field -> JsValue -> JsValue -> JsValue.

(** C1.  [calculateFields] leaves the instance as it is for a field
    without the [calc] flag.  For a field with it, it walks the tags of
    [calcTriggerMap[field.id]] in order; a tag without an entry in
    [calcExpressionMap] is passed over, and for a tag with one the
    expression is evaluated on the instance, the result written by
    [setModelValue] on the field of the index, and
    [triggerDefaultValueEvaluation] run for that same tag at once, before
    the next tag.  When the trigger maps refer to fields of the index the
    whole call returns, with the instance the calculation cascade of the
    specification yields. *)
Theorem calculateFields_cascade field this :
  (f_calc field = false ->
   calculateFields hasValue __blank evalCondition evalExpression onUpdate
     field this = (Ok tt, this)) ∧
  (f_calc field = true ->
   forall triggers,
     calcTriggerMap (definition this) = Some triggers ->
     calculateFields hasValue __blank evalCondition evalExpression onUpdate
       field this
     = forEach (orEmpty (triggers !! propertyKey (f_id field)))
         (calculateTag hasValue __blank evalCondition evalExpression onUpdate)
         this ∧
     (wellReferenced this ->
      calculateFields hasValue __blank evalCondition evalExpression onUpdate
        field this
      = (Ok tt,
         calculationCascade hasValue __blank evalCondition evalExpression
           onUpdate (orEmpty (triggers !! propertyKey (f_id field))) this))) ∧
  (forall tag,
      match getCalcExpressionByTag this tag with
      | Some expression =>
          forall target, getField this tag = Some target ->
            calculateTag hasValue __blank evalCondition evalExpression
              onUpdate tag this
            = triggerDefaultValueEvaluation hasValue __blank evalCondition
                evalExpression onUpdate tag
                (setModelValue hasValue __blank tag
                   (evalExpression expression this) target this)
      | None =>
          calculateTag hasValue __blank evalCondition evalExpression
            onUpdate tag this = (Ok tt, this)
      end).
Proof.
  split; [|split].
  - unfold calculateFields. intros Hcalc. rewrite Hcalc. reflexivity.
  - unfold calculateFields. intros Hcalc triggers Ht. rewrite Hcalc.
    rewrite (bind_ok _ _ this (triggers !! propertyKey (f_id field)) this)
      by (unfold lookupIn; now rewrite Ht).
    assert (Hloop :
      match triggers !! propertyKey (f_id field) with
      | Some tags =>
          forEach tags
            (calculateTag hasValue __blank evalCondition evalExpression
               onUpdate)
      | None => ret tt
      end this
      = forEach (orEmpty (triggers !! propertyKey (f_id field)))
          (calculateTag hasValue __blank evalCondition evalExpression
             onUpdate) this).
    { destruct (triggers !! propertyKey (f_id field)); reflexivity. }
    split; [exact Hloop|].
    intros Hwr. rewrite Hloop. now apply forEach_calculateTag.
  - intros tag. unfold calculateTag.
    rewrite (bind_ok _ _ this (getCalcExpressionByTag this tag) this)
      by reflexivity.
    destruct (getCalcExpressionByTag this tag) as [e|]; [|reflexivity].
    intros target Htarget.
    rewrite (bind_ok _ _ this (evalExpression e this) this) by reflexivity.
    rewrite (bind_ok _ _ this (Some target) this)
      by (unfold reads; now rewrite Htarget).
    rewrite (bind_ok _ _ this tt
               (setModelValue hasValue __blank tag (evalExpression e this)
                  target this)) by reflexivity.
    reflexivity.
Qed.

Lemma setModelValue_reads_back tag value field this :
  tag ∉ tagsBelow field ->
  getModelValue (setModelValue hasValue __blank tag value field this) tag
    = value.
Proof.
  intros Hn.
  assert (Hcase : value = VUndefined ∨ value ≠ VUndefined)
    by (destruct value; (now left) || (right; discriminate)).
  destruct Hcase as [->|Hv].
  - apply getModelValue_absent, setModelValue_undefined_removes.
  - unfold getModelValue.
    rewrite setModelValue_stores by auto using isUndefined_false.
    apply envelope_value.
Qed.

Lemma fold_false_conditions tag field conditions this :
  Forall (fun c => evalCondition (ce_condition c) this = false) conditions ->
  fold_left (defaultValueStep hasValue __blank evalCondition evalExpression
               onUpdate tag field) conditions this = this.
Proof.
  induction 1 as [|c cs Hc _ IH]; simpl; [reflexivity|].
  unfold defaultValueStep at 2. rewrite Hc. exact IH.
Qed.

(** Where every option of a target without conditions of its own has
    some, one run of [evaluateDefaultValueConditions] for the target walks
    the declared conditions in order and to the end: each condition whose
    guard holds on the instance as it then stands writes its value by
    [setModelValue].  So when a condition's guard holds and no later guard
    does, the run ends with that condition's write and the model value of
    the tag is the value it produced. *)
Lemma default_value_conditions_last_true_wins tag field this before ce after :
  getField this tag = Some field ->
  (f_defaultValueConditions field = None ->
   Forall (fun o => is_Some (o_defaultValueConditions o))
          (orEmpty (f_options field))) ->
  declaredConditions field = before ++ ce :: after ->
  let step := defaultValueStep hasValue __blank evalCondition evalExpression
                onUpdate tag field in
  let reached := fold_left step before this in
  let written :=
    setModelValue hasValue __blank tag
      (candidateValue evalExpression onUpdate tag field ce reached)
      field reached in
  evalCondition (ce_condition ce) reached = true ->
  Forall (fun c => evalCondition (ce_condition c) written = false) after ->
  tag ∉ tagsBelow field ->
  evaluateDefaultValueConditions hasValue __blank evalCondition
    evalExpression onUpdate [tag] this
  = (Ok tt, fold_left step (declaredConditions field) this) ∧
  fold_left step (declaredConditions field) this = written ∧
  getModelValue written tag
  = candidateValue evalExpression onUpdate tag field ce reached.
Proof.
  intros Hfield Hopts Hsplit step reached written Hguard Hlater Hn.
  split; [|split].
  - rewrite evaluateDefaultValueConditions_cascade.
    + unfold defaultValueCascade. simpl. now rewrite Hfield.
    + constructor; [|constructor]. exists field. auto.
  - rewrite Hsplit, fold_left_app. simpl. fold reached.
    unfold step at 2, defaultValueStep. rewrite Hguard. fold written.
    now apply fold_false_conditions.
  - now apply setModelValue_reads_back.
Qed.

Hypothesis blank_undefined : __blank VUndefined = true.

(** C6.  Without a show condition [evaluateShowCondition] answers [true]
    and changes nothing.  With a condition that evaluates false it answers
    [false], and a field holding a non-blank value has it cleared by
    [setModelValue(tag, undefined, field)], after which there is no model
    entry for the tag; asking again while the condition is still false
    answers [false] and changes nothing. *)
Theorem evaluateShowCondition_clears_once field tag this :
  match f_showCondition field with
  | None =>
      evaluateShowCondition hasValue __blank evalCondition field tag this
      = (Ok true, this)
  | Some condition =>
      evalCondition condition this = false ->
      let hidden :=
        if __blank (getModelValue this tag)
        then this
        else setModelValue hasValue __blank tag VUndefined field this in
      evaluateShowCondition hasValue __blank evalCondition field tag this
      = (Ok false, hidden) ∧
      (__blank (getModelValue this tag) = false ->
       model hidden !! tag = None) ∧
      (evalCondition condition hidden = false ->
       evaluateShowCondition hasValue __blank evalCondition field tag hidden
       = (Ok false, hidden))
  end.
Proof.
  destruct (f_showCondition field) as [condition|] eqn:Esc;
    [|unfold evaluateShowCondition; now rewrite Esc].
  intros Hfalse hidden.
  assert (Hblank : __blank (getModelValue hidden tag) = true).
  { unfold hidden. destruct (__blank (getModelValue this tag)) eqn:E; [exact E|].
    rewrite getModelValue_absent; [exact blank_undefined|].
    apply setModelValue_undefined_removes. }
  split; [|split].
  - unfold evaluateShowCondition. rewrite Esc.
    unfold bind, reads, ret, modify. rewrite Hfalse. simpl.
    unfold hidden. now destruct (__blank (getModelValue this tag)).
  - intros E. unfold hidden. rewrite E.
    apply setModelValue_undefined_removes.
  - intros Hstill. unfold evaluateShowCondition. rewrite Esc.
    unfold bind, reads, ret, modify. rewrite Hstill. simpl.
    now rewrite Hblank.
Qed.

End EngineClaims.

(** ** The sample form *)

Lemma sampleTotalForm_wellReferenced : wellReferenced sampleTotalForm.
Proof.
  repeat split.
  - eexists; reflexivity.
  - eexists; reflexivity.
  - intros tag [e He]. unfold getCalcExpressionByTag in He. simpl in He.
    apply lookup_singleton_Some in He as [<- _]. eexists; reflexivity.
  - intros tag dependent Hin.
    unfold defaultValueDependents in Hin. simpl in Hin.
    destruct (decide (tag = "total")) as [->|Hne].
    + rewrite lookup_singleton_eq in Hin. simpl in Hin.
      apply list_elem_of_singleton in Hin as ->.
      exists sampleTotalRadio. split; [reflexivity | discriminate].
    + rewrite lookup_singleton_ne in Hin by congruence. inversion Hin.
Qed.

Lemma calculateFields_cascade_witness :
  f_calc sampleA = true ∧
  wellReferenced sampleTotalForm ∧
  (let this' :=
     snd (calculateFields hasValue_spec blank_spec sampleEvalCondition
            sampleEvalExpression sampleOnUpdate sampleA sampleTotalForm) in
   getModelValue this' "total" = VNum 12 ∧
   getModelValue this' "totalRadio" = VStr "high").
Proof.
  split; [reflexivity|].
  split; [exact sampleTotalForm_wellReferenced|].
  rewrite (proj2 (proj1 (proj2 (calculateFields_cascade hasValue_spec
                                  blank_spec sampleEvalCondition
                                  sampleEvalExpression sampleOnUpdate
                                  sampleA sampleTotalForm))
                        eq_refl
                        {[ "fieldId1" := ["total"]; "fieldId2" := ["total"] ]}
                        eq_refl)
                 sampleTotalForm_wellReferenced).
  split; vm_compute; reflexivity.
Defined.

Lemma default_value_conditions_last_true_wins_witness :
  getField sampleTotalledForm "level" = Some sampleLevel ∧
  declaredConditions sampleLevel =
    [mkConditionalExpression (mkExpr 3) (mkExpr 4)]
    ++ mkConditionalExpression (mkExpr 1) (mkExpr 2)
    :: [mkConditionalExpression (mkExpr 5) (mkExpr 6)] ∧
  (let this' :=
     snd (evaluateDefaultValueConditions hasValue_spec blank_spec
            sampleEvalCondition sampleEvalExpression sampleOnUpdate
            ["level"] sampleTotalledForm) in
   getModelValue this' "level" = VStr "high").
Proof.
  split; [reflexivity|]. split; [reflexivity|].
  assert (Hlater :
    Forall (fun c => sampleEvalCondition (ce_condition c)
                       (setModelValue hasValue_spec blank_spec "level"
                          (VStr "high") sampleLevel
                          (setModelValue hasValue_spec blank_spec "level"
                             (VStr "low") sampleLevel sampleTotalledForm))
                     = false)
           [mkConditionalExpression (mkExpr 5) (mkExpr 6)]).
  { constructor; [vm_compute; reflexivity | constructor]. }
  assert (Hbelow : "level" ∉ tagsBelow sampleLevel) by not_in_cons.
  destruct (default_value_conditions_last_true_wins hasValue_spec blank_spec
              sampleEvalCondition sampleEvalExpression sampleOnUpdate
              "level" sampleLevel sampleTotalledForm
              [mkConditionalExpression (mkExpr 3) (mkExpr 4)]
              (mkConditionalExpression (mkExpr 1) (mkExpr 2))
              [mkConditionalExpression (mkExpr 5) (mkExpr 6)]
              eq_refl (fun H => ltac:(discriminate H)) eq_refl eq_refl
              Hlater Hbelow)
    as (Hrun & Hlast & Hvalue).
  cbv zeta. rewrite Hrun. cbn [snd]. rewrite Hlast. exact Hvalue.
Defined.

(** C5, at the input where the code departs from it.  The target "pick"
    has no conditions of its own; of its two options, A has none and B has
    one whose guard holds.  The union of the options' conditions is that
    one condition, and walking it writes "low".  The code instead flattens
    an [undefined] for option A into the list and throws on it before any
    guard is evaluated: nothing is written. *)
Theorem option_without_conditions_stops_the_run
    (hasValue __blank : JsValue -> bool)
    (evalCondition : Expr -> Form -> bool)
    (evalExpression : Expr -> Form -> JsValue)
    (onUpdate : Field -> JsValue -> JsValue -> JsValue) :
  evaluateDefaultValueConditions hasValue __blank evalCondition
    evalExpression onUpdate ["pick"] samplePickForm
  = (Throw TypeError, samplePickForm) ∧
  resolveDefaultValueConditions samplePick
  = [None; Some (mkConditionalExpression (mkExpr 3) (mkExpr 4))] ∧
  declaredConditions samplePick
  = [mkConditionalExpression (mkExpr 3) (mkExpr 4)] ∧
  sampleEvalCondition (mkExpr 3) samplePickForm = true ∧
  getModelValue
    (defaultValueCascade hasValue_spec blank_spec sampleEvalCondition
       sampleEvalExpression sampleOnUpdate ["pick"] samplePickForm) "pick"
  = VStr "low".
Proof.
  repeat split; vm_compute; reflexivity.
Qed.

Lemma evaluateShowCondition_clears_once_witness :
  blank_spec VUndefined = true ∧
  sampleEvalCondition (mkExpr 5) sampleTotalledForm = false ∧
  (let hidden :=
     setModelValue hasValue_spec blank_spec "hidden" VUndefined sampleHidden
       sampleTotalledForm in
   evaluateShowCondition hasValue_spec blank_spec sampleEvalCondition
     sampleHidden "hidden" sampleTotalledForm = (Ok false, hidden) ∧
   model hidden !! "hidden" = None ∧
   evaluateShowCondition hasValue_spec blank_spec sampleEvalCondition
     sampleHidden "hidden" hidden = (Ok false, hidden)).
Proof.
  split; [reflexivity|]. split; [reflexivity|].
  destruct (evaluateShowCondition_clears_once hasValue_spec blank_spec
              sampleEvalCondition eq_refl sampleHidden "hidden"
              sampleTotalledForm eq_refl) as (Hfirst & Hgone & Hagain).
  split; [exact Hfirst|].
  split; [exact (Hgone eq_refl)|].
  apply Hagain. vm_compute. reflexivity.
Defined.

(** ** The status rollup (C7) *)

Lemma severity_inj a b : severity a = severity b -> a = b.
Proof. destruct a, b; simpl; congruence. Qed.

Lemma isMoreSevereStatus_spec_orders : ordersBySeverity isMoreSevereStatus_spec.
Proof. intros a b. unfold isMoreSevereStatus_spec. apply Nat.ltb_lt. Qed.

Lemma map_snd_imap {A B C : Type} (f : A -> C) (g : nat -> A -> B * A)
    (l : list A) :
  (forall i x, snd (g i x) = x) ->
  map (fun entry => f (snd entry)) (imap g l) = map f l.
Proof.
  revert g. induction l as [|x l IH]; intros g Hg; simpl; [reflexivity|].
  rewrite Hg. f_equal. apply IH. intros i y. apply Hg.
Qed.

Lemma statusesOf_arrayEntries {A : Type} (l : list A)
    (statusOf : StatusArgument nat A -> Status) :
  statusesOf (arrayEntries l) statusOf false
  = map (fun x => statusOf (ByItem x)) l.
Proof.
  unfold statusesOf, arrayEntries, statusArgument.
  apply (map_snd_imap (fun x => statusOf (ByItem x))). reflexivity.
Qed.

Section RollupFacts.

Variable isMoreSevereStatus : Status -> Status -> bool.
Variable getResults : string -> ValidationResult.
Hypothesis order : ordersBySeverity isMoreSevereStatus.

Lemma getStatus_fold {K A : Type} (iterator : list (K * A)) statusOf useTag :
  getStatus isMoreSevereStatus iterator statusOf useTag
  = fold_left (keepMoreSevere isMoreSevereStatus)
      (statusesOf iterator statusOf useTag) OK.
Proof.
  unfold getStatus, statusesOf. generalize OK.
  induction iterator as [|entry rest IH]; intros held; simpl; [reflexivity|].
  apply IH.
Qed.

Lemma fold_keepMoreSevere_max statuses held :
  severity (fold_left (keepMoreSevere isMoreSevereStatus) statuses held)
  = Nat.max (severity held) (maxSeverity statuses).
Proof.
  revert held. unfold maxSeverity.
  induction statuses as [|s rest IH]; intros held; simpl.
  - lia.
  - rewrite IH. unfold keepMoreSevere.
    destruct (isMoreSevereStatus s held) eqn:E.
    + apply order in E. lia.
    + assert (¬ severity held < severity s)
        by (intros H; apply order in H; congruence).
      lia.
Qed.

(** The fold keeps the first of the most severe statuses it meets, the
    one it starts from included. *)
Lemma fold_keepMoreSevere_first statuses held :
  ∃ before after,
    held :: statuses
      = before
        ++ fold_left (keepMoreSevere isMoreSevereStatus) statuses held
        :: after ∧
    Forall (fun s =>
              severity s
              < severity (fold_left (keepMoreSevere isMoreSevereStatus)
                            statuses held))
           before ∧
    Forall (fun s =>
              severity s
              <= severity (fold_left (keepMoreSevere isMoreSevereStatus)
                             statuses held))
           after.
Proof.
  revert held. induction statuses as [|s rest IH]; intros held.
  - exists [], []. repeat split; constructor.
  - cbn [fold_left].
    destruct (isMoreSevereStatus s held) eqn:E.
    + assert (Hk : keepMoreSevere isMoreSevereStatus held s = s)
        by (unfold keepMoreSevere; now rewrite E).
      rewrite Hk. apply order in E.
      destruct (IH s) as (before & after & Heq & Hb & Ha).
      exists (held :: before), after. rewrite Heq. repeat split; auto.
      constructor; [|exact Hb].
      rewrite fold_keepMoreSevere_max. lia.
    + assert (Hk : keepMoreSevere isMoreSevereStatus held s = held)
        by (unfold keepMoreSevere; now rewrite E).
      rewrite Hk.
      assert (Hle : severity s <= severity held).
      { destruct (Nat.le_gt_cases (severity s) (severity held)) as [H|H];
          [exact H|]. apply order in H. congruence. }
      destruct (IH held) as (before & after & Heq & Hb & Ha).
      remember (fold_left (keepMoreSevere isMoreSevereStatus) rest held)
        as r eqn:Er.
      clear Er IH.
      destruct before as [|b before]; simpl in Heq.
      * injection Heq as Hr Hrest. subst r rest. exists [], (s :: after).
        simpl. repeat split; auto.
      * injection Heq as <- Hrest. subst rest.
        exists (held :: s :: before), after.
        simpl. repeat split; auto.
        apply Forall_cons in Hb as [Hh Hb].
        constructor; [exact Hh|]. constructor; [lia | exact Hb].
Qed.

(** C7.  For a severity comparison that is the strict order of the scale
    OK < WARNING < ERROR, the status of a subsection has the greatest
    severity among the validation statuses of its fields, and the status of
    a section the greatest among the statuses of its subsections; a status
    being determined by its severity, each is the most severe status there
    is, OK when there is none.  The rollup starts from OK and keeps, among
    equally severe statuses, the one it met first. *)
Theorem status_rollup_is_most_severe :
  (forall subsection,
      severity (getSubsectionStatus isMoreSevereStatus getResults subsection)
      = maxSeverity
          (map (fun entry => getValidationStatusByTag getResults (fst entry))
               (orEmpty (ss_fields subsection)))) ∧
  (forall section,
      severity (getSectionStatus isMoreSevereStatus getResults section)
      = maxSeverity
          (map (getSubsectionStatus isMoreSevereStatus getResults)
               (orEmpty (sec_subsections section)))) ∧
  (severity OK < severity WARNING ∧ severity WARNING < severity ERROR) ∧
  (forall a b, severity a = severity b -> a = b) ∧
  (forall (K A : Type) (iterator : list (K * A)) statusOf useTag,
      ∃ before after,
        OK :: statusesOf iterator statusOf useTag
          = before
            ++ getStatus isMoreSevereStatus iterator statusOf useTag
            :: after ∧
        Forall (fun s =>
                  severity s
                  < severity (getStatus isMoreSevereStatus iterator statusOf
                                useTag))
               before ∧
        Forall (fun s =>
                  severity s
                  <= severity (getStatus isMoreSevereStatus iterator statusOf
                                 useTag))
               after).
Proof.
  split; [|split; [|split; [|split]]].
  - intros subsection. unfold getSubsectionStatus.
    rewrite getStatus_fold, fold_keepMoreSevere_max. simpl.
    unfold statusesOf. reflexivity.
  - intros section. unfold getSectionStatus.
    rewrite getStatus_fold, fold_keepMoreSevere_max. simpl.
    now rewrite statusesOf_arrayEntries.
  - simpl. lia.
  - exact severity_inj.
  - intros K A iterator statusOf useTag. rewrite getStatus_fold.
    apply fold_keepMoreSevere_first.
Qed.

End RollupFacts.

Lemma status_rollup_is_most_severe_witness :
  ordersBySeverity isMoreSevereStatus_spec ∧
  getSubsectionStatus isMoreSevereStatus_spec sampleResults
    sampleCalmSubsection = WARNING ∧
  getSubsectionStatus isMoreSevereStatus_spec sampleResults
    sampleFailingSubsection = ERROR ∧
  getSectionStatus isMoreSevereStatus_spec sampleResults sampleStatusSection
    = ERROR.
Proof.
  split; [exact isMoreSevereStatus_spec_orders|].
  destruct (status_rollup_is_most_severe isMoreSevereStatus_spec
              sampleResults isMoreSevereStatus_spec_orders)
    as (Hsub & Hsec & _ & Hinj & _).
  repeat split; apply Hinj; rewrite ?Hsub, ?Hsec; reflexivity.
Defined.

(** ** Construction *)

Section DecoratorFacts.

Variable getComponentTypeByField : Field -> UiField -> ComponentType.
Variable getComponentConfig : option DataType -> ComponentType -> Component.

Lemma decorateField_unfold field tag formComponentKey :
  __decorateField getComponentTypeByField getComponentConfig field tag
    formComponentKey
  = bind (reads (fun this => fields this !! tag)) (fun registered =>
    match registered with
    | Some _ => throw (DuplicateTagError tag)
    | None =>
    match f_type field with
    | None => throw MissingTypeError
    | Some _ =>
        bind (match suppliedKey formComponentKey with
              | Some key => __addComponentToUiSchemaAndReturnUiField tag key
              | None =>
                  reads (fun this =>
                           match getUiSchemaField this tag with
                           | Some uiField => uiField
                           | None => emptyUiField
                           end)
              end) (fun uiField =>
        let componentType :=
          getComponentTypeByField (with_uiField uiField field) uiField in
        let component := getComponentConfig (f_type field) componentType in
        let pattern := compilePattern (f_pattern field) in
        bind (match f_fields field with
              | Some children =>
                  bind (__decorateChildren getComponentTypeByField
                          getComponentConfig children)
                       (fun c => ret (Some c))
              | None => ret None
              end) (fun children =>
        bind (match f_options field with
              | Some options =>
                  bind (decorateOptions getComponentTypeByField
                          getComponentConfig options)
                       (fun o => ret (Some o))
              | None => ret None
              end) (fun options =>
        let decorated :=
          mkField (f_ref field) (f_id field) (f_type field) (f_calc field)
            pattern (f_definition field) (f_showCondition field)
            (f_defaultValueConditions field) (Some uiField)
            (Some componentType) (Some component) children options in
        bind (modify (fun this =>
                        set_fields (<[tag := decorated]> (fields this)) this))
             (fun _ => ret decorated))))
    end
    end).
Proof.
  assert (Hc : forall children,
    (fix decorateChildren (children : list (string * Field))
        {struct children} : M (list (string * Field)) :=
      match children with
      | [] => ret []
      | (childTag, child) :: rest =>
          bind (__decorateField getComponentTypeByField getComponentConfig
                  child childTag None) (fun child' =>
          bind (decorateChildren rest) (fun rest' =>
          ret ((childTag, child') :: rest')))
      end) children
    = __decorateChildren getComponentTypeByField getComponentConfig children).
  { induction children as [|[t f] fs IH]; simpl; [reflexivity|].
    now rewrite IH. }
  assert (Ho : forall options,
    (fix decorateOptions (options : list (FieldOption Field))
        {struct options} : M (list (FieldOption Field)) :=
      match options with
      | [] => ret []
      | o :: rest =>
          bind (match o with
                | mkOption oid conditions (Some children) =>
                    bind ((fix decorateChildren
                               (children : list (string * Field))
                               {struct children}
                               : M (list (string * Field)) :=
                             match children with
                             | [] => ret []
                             | (childTag, child) :: rest =>
                                 bind (__decorateField getComponentTypeByField
                                         getComponentConfig child childTag
                                         None) (fun child' =>
                                 bind (decorateChildren rest) (fun rest' =>
                                 ret ((childTag, child') :: rest')))
                             end) children) (fun children' =>
                    ret (mkOption oid conditions (Some children')))
                | mkOption _ _ None => ret o
                end) (fun o' =>
          bind (decorateOptions rest) (fun rest' =>
          ret (o' :: rest')))
      end) options
    = decorateOptions getComponentTypeByField getComponentConfig options).
  { induction options as [|[oid dvc [ofs|]] os IH]; simpl; [reflexivity| |].
    - unfold decorateOption; simpl. now rewrite IH, Hc.
    - unfold decorateOption; simpl. now rewrite IH. }
  destruct field as [? ? ? ? ? ? ? ? ? ? ? ffields foptions]; simpl.
  destruct ffields as [fs|]; destruct foptions as [os|];
    rewrite ?Hc, ?Ho; reflexivity.
Qed.

End DecoratorFacts.

(** *** Methods that leave the caller's objects alone *)

Lemma preserves_ret {A : Type} (a : A) : sparesCaller (ret a).
Proof. intros this. split; reflexivity. Qed.

Lemma preserves_throw {A : Type} e : sparesCaller (@throw A e).
Proof. intros this. split; reflexivity. Qed.

Lemma preserves_reads {A : Type} (f : Form -> A) : sparesCaller (reads f).
Proof. intros this. split; reflexivity. Qed.

Lemma preserves_modify f :
  (forall this, definition (f this) = definition this) ->
  (forall this, model (f this) = model this) ->
  sparesCaller (modify f).
Proof. intros Hd Hm this. split; [apply Hd | apply Hm]. Qed.

Lemma preserves_bind {A B : Type} (m : M A) (k : A -> M B) :
  sparesCaller m -> (forall a, sparesCaller (k a)) ->
  sparesCaller (bind m k).
Proof.
  intros Hm Hk this. unfold bind. specialize (Hm this).
  destruct (m this) as [[a|e] this']; simpl in *; [|exact Hm].
  destruct (Hk a this') as [Hd Hmo]. destruct Hm as [Hd' Hmo'].
  split; congruence.
Qed.

Create HintDb preserves.
#[local] Hint Resolve preserves_ret preserves_throw preserves_reads
  preserves_bind : preserves.

Section DecoratorDefinition.

Variable getComponentTypeByField : Field -> UiField -> ComponentType.
Variable getComponentConfig : option DataType -> ComponentType -> Component.

(** The body of [__decorateField] after the UI field is obtained leaves
    the definition alone as soon as the decoration of children does. *)
Lemma decorateChildren_preserves_aux children :
  Forall (fun p => forall tag,
            sparesCaller
              (__decorateField getComponentTypeByField getComponentConfig
                 (snd p) tag None)) children ->
  sparesCaller
    (__decorateChildren getComponentTypeByField getComponentConfig children).
Proof.
  induction 1 as [|[t f] fs Hf _ IH]; simpl; [apply preserves_ret|].
  apply preserves_bind; [apply Hf|]. intros child'.
  apply preserves_bind; [exact IH|]. intros rest'. apply preserves_ret.
Qed.

Lemma decorateOptions_preserves_aux options :
  Forall (fun o =>
            fieldsAll
              (fun f => forall tag,
                 sparesCaller
                   (__decorateField getComponentTypeByField
                      getComponentConfig f tag None)) (o_fields o)) options ->
  sparesCaller
    (decorateOptions getComponentTypeByField getComponentConfig options).
Proof.
  induction 1 as [|o os Ho _ IH]; simpl; [apply preserves_ret|].
  apply preserves_bind; [|intros o'; apply preserves_bind;
                           [exact IH | intros; apply preserves_ret]].
  unfold decorateOption. unfold fieldsAll in Ho.
  destruct (o_fields o) as [fs|]; [|apply preserves_ret].
  apply preserves_bind; [|intros; apply preserves_ret].
  now apply decorateChildren_preserves_aux.
Qed.

Lemma decorateField_preserves field tag :
  sparesCaller
    (__decorateField getComponentTypeByField getComponentConfig field tag None).
Proof.
  revert tag. induction field as [field IHf IHo] using Field_nested_ind.
  intros tag. rewrite decorateField_unfold. simpl suppliedKey. cbv iota.
  apply preserves_bind; [auto with preserves|]. intros [r|];
    [auto with preserves|].
  destruct (f_type field); [|auto with preserves].
  apply preserves_bind; [auto with preserves|]. intros uiField.
  cbv zeta.
  apply preserves_bind.
  { unfold fieldsAll in IHf. destruct (f_fields field) as [fs|];
      [|auto with preserves].
    apply preserves_bind; [|auto with preserves].
    now apply decorateChildren_preserves_aux. }
  intros children. apply preserves_bind.
  { unfold optionsAll in IHo. destruct (f_options field) as [os|];
      [|auto with preserves].
    apply preserves_bind; [|auto with preserves].
    now apply decorateOptions_preserves_aux. }
  intros options. apply preserves_bind; [|auto with preserves].
  apply preserves_modify; reflexivity.
Qed.

Lemma decorateChildren_preserves children :
  sparesCaller
    (__decorateChildren getComponentTypeByField getComponentConfig children).
Proof.
  apply decorateChildren_preserves_aux, Forall_all.
  intros p tag. apply decorateField_preserves.
Qed.

Lemma decorateOptions_preserves options :
  sparesCaller
    (decorateOptions getComponentTypeByField getComponentConfig options).
Proof.
  apply decorateOptions_preserves_aux, Forall_all.
  intros o. unfold fieldsAll. destruct (o_fields o); [|exact I].
  apply Forall_all. intros p tag. apply decorateField_preserves.
Qed.



End DecoratorDefinition.

(** *** The sorted copy *)

Lemma sortOrder_le_total a b :
  sortOrder_le a b = false -> sortOrder_le b a = true.
Proof.
  destruct a as [x|], b as [y|]; simpl; try congruence.
  intros H. apply Z.leb_gt in H. apply Z.leb_le. lia.
Qed.

Lemma sortOrder_le_trans a b c :
  sortOrder_le a b = true -> sortOrder_le b c = true ->
  sortOrder_le a c = true.
Proof.
  destruct a as [x|], b as [y|], c as [z|]; simpl; try congruence.
  intros H1 H2. apply Z.leb_le in H1, H2. apply Z.leb_le. lia.
Qed.

Lemma insertSection_permutation x l :
  Permutation (insertSection x l) (x :: l).
Proof.
  induction l as [|y l IH]; simpl; [reflexivity|].
  destruct (sortOrder_le (sec_sortOrder x) (sec_sortOrder y)); [reflexivity|].
  rewrite IH. apply perm_swap.
Qed.

Lemma insertSection_sorted x l :
  sortOrderSorted l -> sortOrderSorted (insertSection x l).
Proof.
  unfold sortOrderSorted.
  induction 1 as [|y l Hl IH Hy]; simpl.
  - constructor; constructor.
  - destruct (sortOrder_le (sec_sortOrder x) (sec_sortOrder y)) eqn:E.
    + constructor; [constructor; assumption|].
      constructor; [exact E|].
      eapply Forall_impl; [exact Hy|]. intros z Hz.
      eapply sortOrder_le_trans; eauto.
    + constructor; [exact IH|].
      apply sortOrder_le_total in E.
      assert (Hperm := insertSection_permutation x l).
      apply Forall_forall. intros z Hz.
      apply list_elem_of_In in Hz.
      apply (Permutation_in _ Hperm) in Hz. destruct Hz as [<-|Hz]; [exact E|].
      rewrite Forall_forall in Hy. apply Hy. now apply list_elem_of_In.
Qed.

Lemma sortBySortOrder_sorts l :
  Permutation (sortBySortOrder l) l ∧ sortOrderSorted (sortBySortOrder l).
Proof.
  unfold sortBySortOrder. induction l as [|x l [IHp IHs]]; simpl.
  - split; [reflexivity | constructor].
  - split.
    + rewrite insertSection_permutation. now constructor.
    + now apply insertSection_sorted.
Qed.

(** *** The UI schema *)




Section DecoratorClaims.

Variable getComponentTypeByField : Field -> UiField -> ComponentType.
Variable getComponentConfig : option DataType -> ComponentType -> Component.



Variable validate : M unit.
Hypothesis validate_preserves : sparesCaller validate.


End DecoratorClaims.


(** ** What the constructor throws (C8) *)

Section ConstructorErrors.

Variable getComponentTypeByField : Field -> UiField -> ComponentType.
Variable getComponentConfig : option DataType -> ComponentType -> Component.
Variable validate : M unit.

(** A missing or empty definition, or a missing or empty schema, is
    refused before anything is built. *)
Lemma factory_refuses_invalid_definition definition0 model0 :
  definition0 = None ∨
  (∃ d, definition0 = Some d ∧
        (isEmptyDefinition d = true ∨ schema d = None ∨
         ∃ s, schema d = Some s ∧ isEmptySchema s = true)) ->
  ∃ message,
    FormInstanceFactory getComponentTypeByField getComponentConfig validate
      definition0 model0 = Throw (InvalidDefinitionError message).
Proof.
  unfold FormInstanceFactory.
  intros [->|(d & -> & [He|[Hs|(s & Hs & He)]])].
  - eexists; reflexivity.
  - rewrite He. eexists; reflexivity.
  - destruct (isEmptyDefinition d); rewrite ?Hs; eexists; reflexivity.
  - destruct (isEmptyDefinition d); rewrite ?Hs, ?He; eexists; reflexivity.
Qed.

(** A tag that is already in the index is refused. *)
Lemma decorateField_registered field tag formComponentKey this :
  is_Some (fields this !! tag) ->
  __decorateField getComponentTypeByField getComponentConfig field tag
    formComponentKey this = (Throw (DuplicateTagError tag), this).
Proof.
  intros [registered H]. rewrite decorateField_unfold.
  rewrite (bind_ok _ _ this (fields this !! tag) this) by reflexivity.
  rewrite H. reflexivity.
Qed.

(** A field without a type is refused. *)
Lemma decorateField_untyped field tag formComponentKey this :
  fields this !! tag = None -> f_type field = None ->
  __decorateField getComponentTypeByField getComponentConfig field tag
    formComponentKey this = (Throw MissingTypeError, this).
Proof.
  intros H Ht. rewrite decorateField_unfold.
  rewrite (bind_ok _ _ this (fields this !! tag) this) by reflexivity.
  rewrite H, Ht. reflexivity.
Qed.

(** What decoration throws, the constructor throws: no instance comes
    back. *)
Lemma factory_rethrows d s model0 e this' :
  schema d = Some s -> isEmptySchema s = false ->
  __initFields getComponentTypeByField getComponentConfig
    (mkForm d model0 [] ∅ ∅) = (Throw e, this') ->
  FormInstanceFactory getComponentTypeByField getComponentConfig validate
    (Some d) model0 = Throw e.
Proof.
  intros Hs He Hinit. unfold FormInstanceFactory, __initInstance.
  assert (Hd : isEmptyDefinition d = false)
    by (unfold isEmptyDefinition; now rewrite Hs).
  rewrite Hd, Hs, He. unfold bind. rewrite Hinit. reflexivity.
Qed.

(** A tag used under two different fields is refused. *)
Lemma factory_refuses_cousin_duplicate :
  FormInstanceFactory getComponentTypeByField getComponentConfig validate
    (Some sampleCousinDuplicate) ∅ = Throw (DuplicateTagError "x").
Proof.
  eapply factory_rethrows; [reflexivity | reflexivity |].
  vm_compute. reflexivity.
Qed.

End ConstructorErrors.

(** C8, at the input where the code departs from it.  A field "a" that
    owns a child field "a" passes construction: the child is decorated and
    registered while the index does not yet hold its parent, which then
    takes the entry over.  No error is thrown and the instance is
    returned, its index holding the parent under "a". *)
Theorem nested_duplicate_tag_is_accepted
    (getComponentTypeByField : Field -> UiField -> ComponentType)
    (getComponentConfig : option DataType -> ComponentType -> Component) :
  ∃ this,
    FormInstanceFactory getComponentTypeByField getComponentConfig (ret tt)
      (Some sampleNestedDuplicate) ∅ = Ok this ∧
    f_ref <$> fields this !! "a" = Some 1 ∧
    size (fields this) = 1.
Proof.
  eexists. split; [vm_compute; reflexivity|].
  split; vm_compute; reflexivity.
Qed.

(** * Further properties of the engine *)

(** ** The reach of [setModelValue] *)

Lemma writeModelValue_dirty_elsewhere tag value field this r :
  r ≠ f_ref field ->
  dirty (writeModelValue tag value field this) !! r = dirty this !! r.
Proof.
  intros Hne. unfold writeModelValue.
  destruct (isUndefined value); simpl; now apply lookup_insert_ne.
Qed.

Lemma writeModelValue_shape tag value field this :
  definition (writeModelValue tag value field this) = definition this ∧
  sections (writeModelValue tag value field this) = sections this ∧
  fields (writeModelValue tag value field this) = fields this.
Proof. unfold writeModelValue. destruct (isUndefined value); simpl; auto. Qed.

Lemma setModelValue_reach
    (hasValue __blank : JsValue -> bool) tag value field this :
  let this' := setModelValue hasValue __blank tag value field this in
  definition this' = definition this ∧
  sections this' = sections this ∧
  fields this' = fields this ∧
  (forall k, k ≠ tag ->
     model this' !! k = model this !! k ∨
     (k ∈ tagsBelow field ∧ model this' !! k = None)) ∧
  (forall r, r ≠ f_ref field ->
     dirty this' !! r = dirty this !! r ∨
     (r ∈ refsBelow field ∧ dirty this' !! r = Some false)).
Proof.
  intros this'.
  destruct (setModelValue_after_write hasValue __blank tag value field this)
    as (Hd & Hs & Hf & Hm & Hr).
  destruct (writeModelValue_shape tag value field this) as (Hd' & Hs' & Hf').
  repeat split; try (unfold this'; congruence).
  - intros k Hne. destruct (Hm k) as [E|H]; [left|now right].
    unfold this'. rewrite E. now apply writeModelValue_elsewhere.
  - intros r Hne. destruct (Hr r) as [E|H]; [left|now right].
    unfold this'. rewrite E. now apply writeModelValue_dirty_elsewhere.
Qed.

(** [setModelValue] writes one model entry and one dirty flag; besides
    them it can only remove entries and reset flags, and only those of the
    fields below the one it is called on.  The definition, the sections and
    the index of fields are never touched. *)
Theorem setModelValue_reaches_only_below
    (hasValue __blank : JsValue -> bool) tag value field this :
  let this' := setModelValue hasValue __blank tag value field this in
  definition this' = definition this ∧
  sections this' = sections this ∧
  fields this' = fields this ∧
  (forall k, k ≠ tag ->
     model this' !! k = model this !! k ∨
     (k ∈ tagsBelow field ∧ model this' !! k = None)) ∧
  (forall r, r ≠ f_ref field ->
     dirty this' !! r = dirty this !! r ∨
     (r ∈ refsBelow field ∧ dirty this' !! r = Some false)).
Proof. apply setModelValue_reach. Qed.

(** ** Clearing twice *)

Section ClearingTwice.

Variable hasValue : JsValue -> bool.
Variable __blank : JsValue -> bool.

Lemma clearFields_noop fs this :
  (forall t f, (t, f) ∈ fs -> hasValue (getModelValue this t) = false) ->
  __clearFields hasValue __blank fs this = this.
Proof.
  induction fs as [|[t f] fs IH]; intros Hall; simpl; [reflexivity|].
  rewrite (Hall t f) by apply list_elem_of_here.
  apply IH. intros t' f' Hin. apply (Hall t' f').
  now apply list_elem_of_further.
Qed.

Lemma clearOptionChildren_noop os value this :
  (forall o fs t f,
      o ∈ os -> o_fields o = Some fs ->
      _includes value (id_toString (o_id o)) = false ->
      (t, f) ∈ fs -> hasValue (getModelValue this t) = false) ->
  __clearOptionChildren hasValue __blank os value this = this.
Proof.
  induction os as [|o os IH]; intros Hall; simpl; [reflexivity|].
  assert (Hstep : clearOptionStep hasValue __blank value o this = this).
  { unfold clearOptionStep.
    destruct (o_fields o) as [fs|] eqn:Efs; [|reflexivity].
    destruct (_includes value (id_toString (o_id o))) eqn:Einc;
      [reflexivity|]. simpl.
    apply clearFields_noop. intros t f Hin.
    apply (Hall o fs t f); auto. apply list_elem_of_here. }
  rewrite Hstep. apply IH. intros o' fs t f Ho. apply Hall.
  now apply list_elem_of_further.
Qed.

Hypothesis hasValue_undefined : hasValue VUndefined = false.

(** [__clearFields] leaves alone a collection none of whose fields holds
    a value, whatever lies further down; hence clearing a collection twice
    is clearing it once. *)
Theorem clearFields_twice fs this :
  ((forall t f, (t, f) ∈ fs -> hasValue (getModelValue this t) = false) ->
   __clearFields hasValue __blank fs this = this) ∧
  __clearFields hasValue __blank fs (__clearFields hasValue __blank fs this)
  = __clearFields hasValue __blank fs this.
Proof.
  split; [apply clearFields_noop|].
  apply clearFields_noop. intros t f Hin.
  now apply (clearFields_cleared hasValue __blank hasValue_undefined)
    with (f := f).
Qed.

Lemma setModelValue_deselected_valueless tag value field os this o fs t f :
  f_options field = Some os ->
  o ∈ os -> o_fields o = Some fs ->
  _includes value (id_toString (o_id o)) = false ->
  (t, f) ∈ fs ->
  hasValue (getModelValue
              (setModelValue hasValue __blank tag value field this) t)
    = false.
Proof.
  intros Hos Ho Hfs Hinc Hin.
  assert (Ha : hasValue (getModelValue
                 (afterOptions hasValue __blank tag value field this) t)
               = false).
  { unfold afterOptions. rewrite Hos.
    now apply (clearOptionChildren_cleared hasValue __blank
                 hasValue_undefined) with (o := o) (fs := fs) (f := f). }
  rewrite setModelValue_unfold.
  destruct (f_fields field) as [cs|]; [|exact Ha].
  destruct (emptyForType _ _ _); [|exact Ha].
  eapply (valueless_stays hasValue hasValue_undefined);
    [apply clearFields_clears | exact Ha].
Qed.

Lemma setModelValue_children_valueless tag value field fs this t f :
  f_fields field = Some fs ->
  emptyForType __blank (f_type field) value = true ->
  (t, f) ∈ fs ->
  hasValue (getModelValue
              (setModelValue hasValue __blank tag value field this) t)
    = false.
Proof.
  intros Hfs He Hin. rewrite setModelValue_unfold, Hfs, He.
  now apply (clearFields_cleared hasValue __blank hasValue_undefined)
    with (f := f).
Qed.

Lemma writeModelValue_again tag value field this :
  (if isUndefined value
   then model this !! tag = None ∧ dirty this !! f_ref field = Some false
   else model this !! tag = Some (envelope value field) ∧
        dirty this !! f_ref field = Some true) ->
  writeModelValue tag value field this = this.
Proof.
  unfold writeModelValue, set_dirty, set_model.
  destruct this as [d m se fi di]; simpl.
  destruct (isUndefined value); intros [Hm Hd]; simpl; f_equal.
  - now apply delete_id.
  - now apply insert_id.
  - now apply insert_id.
  - now apply insert_id.
Qed.

(** Setting a value a second time changes nothing: the write finds what
    it wrote, and every child the first call had to clear holds no value
    any more.  For a value other than [undefined] the tag and the field
    object must not come back below the field. *)
Theorem setModelValue_twice tag value field this :
  (value ≠ VUndefined -> wellNested tag field) ->
  setModelValue hasValue __blank tag value field
    (setModelValue hasValue __blank tag value field this)
  = setModelValue hasValue __blank tag value field this.
Proof.
  intros Hwn.
  set (once := setModelValue hasValue __blank tag value field this).
  assert (Hw : writeModelValue tag value field once = once).
  { apply writeModelValue_again.
    destruct (isUndefined value) eqn:Eu.
    - destruct value; try discriminate.
      split; [apply setModelValue_undefined_removes
             | apply setModelValue_undefined_not_dirty].
    - assert (Hv : value ≠ VUndefined) by (intros ->; discriminate).
      destruct (Hwn Hv) as [Ht Hr].
      split; [now apply setModelValue_stores | now apply setModelValue_dirty]. }
  assert (Ho : afterOptions hasValue __blank tag value field once = once).
  { unfold afterOptions. rewrite Hw.
    destruct (f_options field) as [os|] eqn:Eos; [|reflexivity].
    apply clearOptionChildren_noop. intros o fs t f Hin Hfs Hinc Htf.
    now apply setModelValue_deselected_valueless
      with (os := os) (o := o) (fs := fs) (f := f). }
  rewrite setModelValue_unfold, Ho.
  destruct (f_fields field) as [fs|] eqn:Efs; [|reflexivity].
  destruct (emptyForType __blank (f_type field) value) eqn:Ee; [|reflexivity].
  apply clearFields_noop. intros t f Hin.
  now apply setModelValue_children_valueless with (fs := fs) (f := f).
Qed.

End ClearingTwice.

(** ** Show conditions *)


(** ** What the cascades can reach *)

Lemma sameShape_refl this : sameShape this this.
Proof. repeat split. Qed.

Lemma sameShape_getField this0 this tag :
  sameShape this0 this -> getField this tag = getField this0 tag.
Proof. intros (_ & _ & Hf). unfold getField. now rewrite Hf. Qed.

Lemma sameShape_dependents this0 this tag :
  sameShape this0 this ->
  defaultValueDependents this tag = defaultValueDependents this0 tag.
Proof. intros (Hd & _ & _). unfold defaultValueDependents. now rewrite Hd. Qed.

Lemma confined_ret {A : Type} this0 T (a : A) : confined this0 T (ret a).
Proof. intros this Hs. split; [exact Hs | reflexivity]. Qed.

Lemma confined_throw {A : Type} this0 T e : confined this0 T (@throw A e).
Proof. intros this Hs. split; [exact Hs | reflexivity]. Qed.

Lemma confined_bind {A B : Type} this0 T (m : M A) (k : A -> M B) :
  confined this0 T m -> (forall a, confined this0 T (k a)) ->
  confined this0 T (bind m k).
Proof.
  intros Hm Hk this Hs. unfold bind. destruct (Hm this Hs) as [Hs1 Hm1].
  destruct (m this) as [[a|e] this1]; simpl in *; [|auto].
  destruct (Hk a this1 Hs1) as [Hs2 Hm2]. split; [exact Hs2|].
  intros k' Hk'. rewrite Hm2 by exact Hk'. now apply Hm1.
Qed.

Lemma confined_reads_bind {A B : Type} this0 T (f : Form -> A)
    (k : A -> M B) :
  (forall this, sameShape this0 this -> confined this0 T (k (f this))) ->
  confined this0 T (bind (reads f) k).
Proof. intros H this Hs. unfold bind, reads. now apply H. Qed.

Lemma confined_forEach {A : Type} this0 T (l : list A) body :
  (forall x, x ∈ l -> confined this0 T (body x)) ->
  confined this0 T (forEach l body).
Proof.
  induction l as [|x l IH]; intros H; simpl; [apply confined_ret|].
  apply confined_bind; [apply H, list_elem_of_here|].
  intros _. apply IH. intros y Hy. apply H. now apply list_elem_of_further.
Qed.

Lemma confined_weaken {A : Type} this0 T T' (m : M A) :
  T ⊆ T' -> confined this0 T m -> confined this0 T' m.
Proof.
  intros Hsub Hm this Hs. destruct (Hm this Hs) as [Hs1 Hm1].
  split; [exact Hs1|]. intros k Hk. apply Hm1. intros Hin. apply Hk.
  now apply Hsub.
Qed.

Section CascadeReach.

Variable hasValue : JsValue -> bool.
Variable __blank : JsValue -> bool.
Variable evalCondition : Expr -> Form -> bool.
Variable evalExpression : Expr -> Form -> JsValue.
Variable onUpdate : Field -> JsValue -> JsValue -> JsValue.

Lemma confined_setModelValue this0 T tag value field :
  tag ∈ T -> (forall k, k ∈ tagsBelow field -> k ∈ T) ->
  confined this0 T (modify (setModelValue hasValue __blank tag value field)).
Proof.
  intros Ht Hb this (Hd0 & Hs0 & Hf0). unfold modify; simpl.
  destruct (setModelValue_reach hasValue __blank tag value field this)
    as (Hd & Hs & Hf & Hm & _).
  split; [repeat split; congruence|].
  intros k Hk.
  assert (Hne : k ≠ tag) by (intros ->; contradiction).
  destruct (Hm k Hne) as [E|[Hin _]]; [exact E|].
  exfalso. apply Hk. now apply Hb.
Qed.

Lemma confined_applyDefaultValueCondition this0 T tag field ce :
  tag ∈ T -> (forall k, k ∈ tagsBelow field -> k ∈ T) ->
  confined this0 T
    (applyDefaultValueCondition hasValue __blank evalCondition evalExpression
       onUpdate tag field ce).
Proof.
  intros Ht Hb. unfold applyDefaultValueCondition.
  destruct ce as [ce|]; [|apply confined_throw].
  apply confined_reads_bind. intros this Hs.
  destruct (evalCondition (ce_condition ce) this); [|apply confined_ret].
  apply confined_reads_bind. intros this1 Hs1.
  apply confined_bind.
  - destruct (isArrayType (f_type field)); [|apply confined_ret].
    intros this2 Hs2. split; [exact Hs2 | reflexivity].
  - intros v. now apply confined_setModelValue.
Qed.

Lemma confined_evaluateDefaultValueConditionsOf this0 tag :
  confined this0 (reachOfTag this0 tag)
    (evaluateDefaultValueConditionsOf hasValue __blank evalCondition
       evalExpression onUpdate tag).
Proof.
  unfold evaluateDefaultValueConditionsOf.
  apply confined_reads_bind. intros this Hs.
  rewrite (sameShape_getField this0 this tag Hs). unfold reachOfTag.
  destruct (getField this0 tag) as [field|]; [|apply confined_throw].
  apply confined_forEach. intros ce _.
  apply confined_applyDefaultValueCondition.
  - apply list_elem_of_here.
  - intros k Hk. now apply list_elem_of_further.
Qed.

Lemma reachOfTags_member this tag tags k :
  tag ∈ tags -> k ∈ reachOfTag this tag -> k ∈ reachOfTags this tags.
Proof.
  intros Ht Hk. unfold reachOfTags. apply list_elem_of_In, in_flat_map.
  exists tag. split; now apply list_elem_of_In.
Qed.

Lemma confined_evaluateDefaultValueConditions this0 tags :
  confined this0 (reachOfTags this0 tags)
    (evaluateDefaultValueConditions hasValue __blank evalCondition
       evalExpression onUpdate tags).
Proof.
  unfold evaluateDefaultValueConditions.
  apply confined_forEach. intros tag Hin.
  eapply confined_weaken; [|apply confined_evaluateDefaultValueConditionsOf].
  intros k Hk. now apply reachOfTags_member with (tag := tag).
Qed.

Lemma confined_triggerDefaultValueEvaluation this0 tag :
  confined this0 (reachOfTags this0 (defaultValueDependents this0 tag))
    (triggerDefaultValueEvaluation hasValue __blank evalCondition
       evalExpression onUpdate tag).
Proof.
  intros this Hs. unfold triggerDefaultValueEvaluation, bind, lookupIn.
  assert (Hdep := sameShape_dependents this0 this tag Hs).
  unfold defaultValueDependents in Hdep.
  unfold defaultValueDependents at 1.
  destruct Hs as (Hd & Hs' & Hf).
  destruct (defaultValueTriggerMap (definition this)) as [triggers|] eqn:Et;
    rewrite <- Hd; rewrite Et in *.
  2:{ simpl. split; [repeat split; assumption | reflexivity]. }
  unfold ret at 1.
  destruct (triggers !! tag) as [tags|]; simpl.
  - apply confined_evaluateDefaultValueConditions. repeat split; assumption.
  - split; [repeat split; assumption | reflexivity].
Qed.

Lemma confined_setModelValueOn this0 tag value :
  confined this0 (reachOfTag this0 tag)
    (bind (reads (fun this => getField this tag))
          (setModelValueOn hasValue __blank tag value)).
Proof.
  apply confined_reads_bind. intros this Hs.
  rewrite (sameShape_getField this0 this tag Hs).
  unfold reachOfTag, setModelValueOn.
  destruct (getField this0 tag) as [field|].
  - apply confined_setModelValue.
    + apply list_elem_of_here.
    + intros k Hk. now apply list_elem_of_further.
  - destruct (isUndefined value); [|apply confined_throw].
    apply confined_bind; [|intros; apply confined_throw].
    intros this1 (Hd & Hs1 & Hf). unfold modify; simpl.
    split; [repeat split; assumption|].
    intros k Hk. apply lookup_delete_ne. intros ->. apply Hk.
    apply list_elem_of_here.
Qed.

Lemma confined_calculateTag this0 tag :
  confined this0
    (reachOfTag this0 tag ++
     reachOfTags this0 (defaultValueDependents this0 tag))
    (calculateTag hasValue __blank evalCondition evalExpression onUpdate tag).
Proof.
  unfold calculateTag. apply confined_reads_bind. intros this Hs.
  destruct (getCalcExpressionByTag this tag) as [e|]; [|apply confined_ret].
  apply confined_reads_bind. intros this1 Hs1.
  intros this2 Hs2.
  assert (Hw := confined_setModelValueOn this0 tag (evalExpression e this1)).
  assert (Ht := confined_triggerDefaultValueEvaluation this0 tag).
  assert (Hb := confined_bind this0
                  (reachOfTag this0 tag ++
                   reachOfTags this0 (defaultValueDependents this0 tag))
                  (bind (reads (fun this => getField this tag))
                        (setModelValueOn hasValue __blank tag
                           (evalExpression e this1)))
                  (fun _ => triggerDefaultValueEvaluation hasValue __blank
                              evalCondition evalExpression onUpdate tag)).
  apply Hb; [| |exact Hs2].
  - eapply confined_weaken; [|exact Hw]. intros k Hk.
    apply elem_of_app. now left.
  - intros _. eapply confined_weaken; [|exact Ht]. intros k Hk.
    apply elem_of_app. now right.
Qed.

Lemma confined_calculateFields this0 field :
  confined this0 (calculationReach this0 field)
    (calculateFields hasValue __blank evalCondition evalExpression onUpdate
       field).
Proof.
  unfold calculateFields.
  destruct (f_calc field); [|apply confined_ret].
  intros this Hs. unfold bind, lookupIn.
  unfold calculationReach, calculatedTags.
  destruct Hs as (Hd & Hs' & Hf). rewrite <- Hd.
  destruct (calcTriggerMap (definition this)) as [triggers|];
    [|simpl; split; [repeat split; assumption | reflexivity]].
  unfold ret.
  destruct (triggers !! propertyKey (f_id field)) as [tags|]; simpl;
    [|split; [repeat split; assumption | reflexivity]].
  apply (confined_forEach this0); [|repeat split; assumption].
  intros tag Hin. eapply confined_weaken; [|apply confined_calculateTag].
  intros k Hk. apply list_elem_of_In, in_flat_map.
  exists tag. split; now apply list_elem_of_In.
Qed.

(** [evaluateDefaultValueConditions] keeps the definition, the sections
    and the index of fields, and changes no model entry other than those
    of the tags it is given and of the fields below them, whether it
    returns or throws. *)
Theorem evaluateDefaultValueConditions_stays_within tags this :
  let this' :=
    snd (evaluateDefaultValueConditions hasValue __blank evalCondition
           evalExpression onUpdate tags this) in
  sameShape this this' ∧
  (forall k, k ∉ reachOfTags this tags -> model this' !! k = model this !! k).
Proof.
  apply (confined_evaluateDefaultValueConditions this tags this).
  apply sameShape_refl.
Qed.

(** [calculateFields] keeps the definition, the sections and the index of
    fields, and changes no model entry other than those of the tags of
    [calcTriggerMap[field.id]], of their dependents in the default-value
    trigger map and of the fields below them, whether it returns or
    throws. *)
Theorem calculateFields_stays_within field this :
  let this' :=
    snd (calculateFields hasValue __blank evalCondition evalExpression
           onUpdate field this) in
  sameShape this this' ∧
  (forall k, k ∉ calculationReach this field ->
     model this' !! k = model this !! k).
Proof.
  apply (confined_calculateFields this field this). apply sameShape_refl.
Qed.

End CascadeReach.

(** ** The cascades at their edges *)

Section CascadeEdges.

Variable hasValue : JsValue -> bool.
Variable __blank : JsValue -> bool.
Variable evalCondition : Expr -> Form -> bool.
Variable evalExpression : Expr -> Form -> JsValue.
Variable onUpdate : Field -> JsValue -> JsValue -> JsValue.

Lemma forEach_calculateTag_idle tags this :
  Forall (fun tag => getCalcExpressionByTag this tag = None) tags ->
  forEach tags
    (calculateTag hasValue __blank evalCondition evalExpression onUpdate) this
  = (Ok tt, this).
Proof.
  induction 1 as [|tag tags Htag _ IH]; [reflexivity|].
  rewrite forEach_cons. unfold calculateTag at 1.
  rewrite (bind_ok _ _ this (getCalcExpressionByTag this tag) this)
    by reflexivity.
  rewrite Htag. exact IH.
Qed.

(** A field with the [calc] flag on a definition without [calcTriggerMap]
    makes [calculateFields] throw, the instance untouched.  With the map,
    the call returns with the instance untouched when no tag listed for the
    field's id has an entry in [calcExpressionMap]: the id is not in the
    map, the list is empty, or [calcExpressionMap] is missing
    altogether. *)
Theorem calculateFields_nothing_to_calculate field this :
  f_calc field = true ->
  (calcTriggerMap (definition this) = None ->
   calculateFields hasValue __blank evalCondition evalExpression onUpdate
     field this = (Throw TypeError, this)) ∧
  (forall triggers,
      calcTriggerMap (definition this) = Some triggers ->
      (Forall (fun tag => getCalcExpressionByTag this tag = None)
              (orEmpty (triggers !! propertyKey (f_id field))) ∨
       calcExpressionMap (definition this) = None) ->
      calculateFields hasValue __blank evalCondition evalExpression onUpdate
        field this = (Ok tt, this)).
Proof.
  intros Hcalc. unfold calculateFields. rewrite Hcalc. split.
  - intros Hnone. unfold bind, lookupIn. now rewrite Hnone.
  - intros triggers Ht Hidle.
    rewrite (bind_ok _ _ this (triggers !! propertyKey (f_id field)) this)
      by (unfold lookupIn; now rewrite Ht).
    assert (Hall : Forall (fun tag => getCalcExpressionByTag this tag = None)
                          (orEmpty (triggers !! propertyKey (f_id field)))).
    { destruct Hidle as [H|H]; [exact H|].
      apply Forall_all. intros tag. unfold getCalcExpressionByTag.
      now rewrite H. }
    destruct (triggers !! propertyKey (f_id field)) as [tags|]; simpl in *;
      [|reflexivity].
    now apply forEach_calculateTag_idle.
Qed.

(** What a throw of [calculateFields] at the first tag leaves behind.  A
    tag with an expression that is not in the index makes the write throw:
    before anything is stored for a value other than [undefined], after
    the model entry is removed for [undefined].  A tag in the index on a
    definition without [defaultValueTriggerMap] is written, cascades
    included, and the throw comes after. *)
Theorem calculateFields_throws_around_the_write field this triggers tag rest
    expression :
  f_calc field = true ->
  calcTriggerMap (definition this) = Some triggers ->
  triggers !! propertyKey (f_id field) = Some (tag :: rest) ->
  getCalcExpressionByTag this tag = Some expression ->
  (getField this tag = None ->
   calculateFields hasValue __blank evalCondition evalExpression onUpdate
     field this
   = (Throw TypeError,
      if isUndefined (evalExpression expression this)
      then set_model (delete tag (model this)) this
      else this)) ∧
  (forall target,
      getField this tag = Some target ->
      defaultValueTriggerMap (definition this) = None ->
      calculateFields hasValue __blank evalCondition evalExpression onUpdate
        field this
      = (Throw TypeError,
         setModelValue hasValue __blank tag (evalExpression expression this)
           target this)).
Proof.
  intros Hcalc Ht Htags He.
  assert (Hstart :
    calculateFields hasValue __blank evalCondition evalExpression onUpdate
      field this
    = match calculateTag hasValue __blank evalCondition evalExpression
              onUpdate tag this with
      | (Ok _, this') =>
          forEach rest
            (calculateTag hasValue __blank evalCondition evalExpression
               onUpdate) this'
      | (Throw e, this') => (Throw e, this')
      end).
  { unfold calculateFields. rewrite Hcalc.
    rewrite (bind_ok _ _ this (Some (tag :: rest)) this)
      by (unfold lookupIn; now rewrite Ht, <- Htags).
    apply forEach_cons. }
  rewrite Hstart. unfold calculateTag.
  rewrite (bind_ok _ _ this (Some expression) this)
    by (unfold reads; now rewrite He).
  rewrite (bind_ok _ _ this (evalExpression expression this) this)
    by reflexivity.
  split.
  - intros Hnone.
    rewrite (bind_ok _ _ this None this) by (unfold reads; now rewrite Hnone).
    unfold setModelValueOn, bind, modify, throw.
    destruct (isUndefined (evalExpression expression this)); reflexivity.
  - intros target Htarget Hmissing.
    rewrite (bind_ok _ _ this (Some target) this)
      by (unfold reads; now rewrite Htarget).
    rewrite (bind_ok _ _ this tt
               (setModelValue hasValue __blank tag
                  (evalExpression expression this) target this))
      by reflexivity.
    unfold triggerDefaultValueEvaluation, bind, lookupIn.
    destruct (setModelValue_frame hasValue __blank tag
                (evalExpression expression this) target this) as (Hd & _).
    rewrite Hd, Hmissing. reflexivity.
Qed.

(** A run of [evaluateDefaultValueConditions] for a target of the index
    changes nothing when the target's own list of conditions is empty,
    whatever its options declare, and when no guard of the list it resolves
    holds. *)
Theorem evaluateDefaultValueConditions_without_effect tag field this :
  getField this tag = Some field ->
  (f_defaultValueConditions field = Some [] ->
   evaluateDefaultValueConditions hasValue __blank evalCondition
     evalExpression onUpdate [tag] this = (Ok tt, this)) ∧
  (forall conditions,
      resolveDefaultValueConditions field = map Some conditions ->
      Forall (fun c => evalCondition (ce_condition c) this = false)
             conditions ->
      evaluateDefaultValueConditions hasValue __blank evalCondition
        evalExpression onUpdate [tag] this = (Ok tt, this)).
Proof.
  intros Hfield.
  assert (Hrun : forall conditions,
    resolveDefaultValueConditions field = map Some conditions ->
    Forall (fun c => evalCondition (ce_condition c) this = false)
           conditions ->
    evaluateDefaultValueConditions hasValue __blank evalCondition
      evalExpression onUpdate [tag] this = (Ok tt, this)).
  { intros conditions Hres Hfalse.
    unfold evaluateDefaultValueConditions. rewrite forEach_cons.
    unfold evaluateDefaultValueConditionsOf.
    rewrite (bind_ok _ _ this (Some field) this)
      by (unfold reads; now rewrite Hfield).
    rewrite Hres, forEach_conditions.
    rewrite (fold_false_conditions hasValue __blank evalCondition
               evalExpression onUpdate tag field conditions this Hfalse).
    reflexivity. }
  split; [|exact Hrun].
  intros Hempty. apply (Hrun []); [|constructor].
  unfold resolveDefaultValueConditions. now rewrite Hempty.
Qed.

Lemma forEach_throws_at_undefined tag field conditions rest this :
  forEach (map Some conditions ++ None :: rest)
    (applyDefaultValueCondition hasValue __blank evalCondition
       evalExpression onUpdate tag field) this
  = (Throw TypeError,
     fold_left (defaultValueStep hasValue __blank evalCondition
                  evalExpression onUpdate tag field) conditions this).
Proof.
  revert this. induction conditions as [|ce cs IH]; intros this.
  - reflexivity.
  - cbn [map app fold_left].
    rewrite forEach_cons, applyDefaultValueCondition_step. apply IH.
Qed.

Lemma resolve_undefined_iff field :
  None ∈ resolveDefaultValueConditions field <->
  f_defaultValueConditions field = None ∧
  ∃ o, o ∈ orEmpty (f_options field) ∧ o_defaultValueConditions o = None.
Proof.
  unfold resolveDefaultValueConditions.
  destruct (f_defaultValueConditions field) as [cs|].
  { split; [|intros [H _]; discriminate].
    intros H. apply list_elem_of_fmap in H as (c & Hc & _). discriminate. }
  destruct (f_options field) as [os|]; simpl.
  2:{ split; [intros H; inversion H | intros [_ (o & Ho & _)]; inversion Ho]. }
  split.
  - intros H. split; [reflexivity|].
    apply list_elem_of_In, in_flat_map in H as (o & Ho & Hin).
    exists o. split; [now apply list_elem_of_In|].
    destruct (o_defaultValueConditions o) as [cs|]; [|reflexivity].
    apply list_elem_of_In, list_elem_of_fmap in Hin as (c & Hc & _).
    discriminate.
  - intros [_ (o & Ho & Hnone)].
    apply list_elem_of_In, in_flat_map. exists o.
    split; [now apply list_elem_of_In|]. rewrite Hnone. now left.
Qed.

(** The list [evaluateDefaultValueConditions] resolves for a target holds
    an [undefined] exactly when the target has no list of its own and one
    of its options has none either.  The run then throws at the first such
    element, after the conditions before it have been applied. *)
Theorem evaluateDefaultValueConditions_throws_at_undefined tag field this :
  getField this tag = Some field ->
  (None ∈ resolveDefaultValueConditions field <->
   f_defaultValueConditions field = None ∧
   ∃ o, o ∈ orEmpty (f_options field) ∧ o_defaultValueConditions o = None) ∧
  (forall conditions rest,
      resolveDefaultValueConditions field
      = map Some conditions ++ None :: rest ->
      evaluateDefaultValueConditions hasValue __blank evalCondition
        evalExpression onUpdate [tag] this
      = (Throw TypeError,
         fold_left (defaultValueStep hasValue __blank evalCondition
                      evalExpression onUpdate tag field) conditions this)).
Proof.
  intros Hfield. split; [apply resolve_undefined_iff|].
  intros conditions rest Hres.
  unfold evaluateDefaultValueConditions. rewrite forEach_cons.
  unfold evaluateDefaultValueConditionsOf.
  rewrite (bind_ok _ _ this (Some field) this)
    by (unfold reads; now rewrite Hfield).
  rewrite Hres, forEach_throws_at_undefined. reflexivity.
Qed.

End CascadeEdges.

(** ** More on the status rollup *)

Lemma fold_keepMoreSevere_member cmp statuses held :
  fold_left (keepMoreSevere cmp) statuses held = held ∨
  fold_left (keepMoreSevere cmp) statuses held ∈ statuses.
Proof.
  revert held. induction statuses as [|s rest IH]; intros held; simpl.
  - now left.
  - destruct (IH (keepMoreSevere cmp held s)) as [E|Hin].
    + rewrite E. unfold keepMoreSevere.
      destruct (cmp s held); [right; apply list_elem_of_here | now left].
    + right. now apply list_elem_of_further.
Qed.

(** Whatever the comparison of the validation service does, [getStatus]
    answers OK or one of the statuses its callback gave it, and OK when
    the comparison never holds. *)
Theorem getStatus_answers_a_status_it_met
    (isMoreSevereStatus : Status -> Status -> bool) (K A : Type)
    (iterator : list (K * A)) statusOf useTag :
  (getStatus isMoreSevereStatus iterator statusOf useTag = OK ∨
   getStatus isMoreSevereStatus iterator statusOf useTag
     ∈ statusesOf iterator statusOf useTag) ∧
  ((forall a b, isMoreSevereStatus a b = false) ->
   getStatus isMoreSevereStatus iterator statusOf useTag = OK).
Proof.
  rewrite getStatus_fold. split; [apply fold_keepMoreSevere_member|].
  intros Hnever. generalize OK.
  induction (statusesOf iterator statusOf useTag) as [|s rest IH];
    intros held; simpl; [reflexivity|].
  unfold keepMoreSevere at 2. rewrite Hnever. apply IH.
Qed.

Lemma maxSeverity_app l1 l2 :
  maxSeverity (l1 ++ l2) = Nat.max (maxSeverity l1) (maxSeverity l2).
Proof.
  unfold maxSeverity. induction l1 as [|s l1 IH]; simpl; [reflexivity|].
  rewrite IH. lia.
Qed.

Lemma maxSeverity_flat_map {A : Type} (f : A -> list Status) (g : A -> Status)
    (l : list A) :
  (forall x, severity (g x) = maxSeverity (f x)) ->
  maxSeverity (map g l) = maxSeverity (flat_map f l).
Proof.
  intros H. induction l as [|x l IH]; simpl; [reflexivity|].
  rewrite maxSeverity_app, <- IH, <- H. reflexivity.
Qed.

Lemma maxSeverity_zero statuses :
  maxSeverity statuses = 0 <-> Forall (fun s => s = OK) statuses.
Proof.
  unfold maxSeverity. induction statuses as [|s rest IH]; simpl.
  - split; [constructor | reflexivity].
  - split.
    + intros H. constructor; [destruct s; simpl in H; (reflexivity || lia)|].
      apply IH. lia.
    + intros H. apply Forall_cons in H as [-> H]. apply IH in H.
      simpl. lia.
Qed.

Lemma maxSeverity_le_two statuses : maxSeverity statuses <= 2.
Proof.
  unfold maxSeverity. induction statuses as [|s rest IH]; simpl; [lia|].
  assert (severity s <= 2) by (destruct s; simpl; lia). lia.
Qed.

Lemma maxSeverity_two statuses :
  maxSeverity statuses = 2 <-> Exists (fun s => s = ERROR) statuses.
Proof.
  induction statuses as [|s rest IH].
  - split; [discriminate | intros H; inversion H].
  - assert (Hle := maxSeverity_le_two rest).
    assert (Hs : severity s <= 2) by (destruct s; simpl; lia).
    unfold maxSeverity in *. simpl. split.
    + intros H. destruct s; simpl in H;
        try (apply Exists_cons_tl, IH; lia).
      now apply Exists_cons_hd.
    + intros H. apply Exists_cons in H as [->|H]; [simpl; lia|].
      apply IH in H. lia.
Qed.

Section RollupOverFields.

Variable isMoreSevereStatus : Status -> Status -> bool.
Variable getResults : string -> ValidationResult.
Hypothesis order : ordersBySeverity isMoreSevereStatus.

Lemma getSubsectionStatus_severity subsection :
  severity (getSubsectionStatus isMoreSevereStatus getResults subsection)
  = maxSeverity
      (map (getValidationStatusByTag getResults) (subsectionTags subsection)).
Proof.
  unfold getSubsectionStatus, subsectionTags.
  rewrite getStatus_fold, (fold_keepMoreSevere_max isMoreSevereStatus order).
  simpl. unfold statusesOf. now rewrite map_map.
Qed.

Lemma getSectionStatus_severity section :
  severity (getSectionStatus isMoreSevereStatus getResults section)
  = maxSeverity
      (map (getValidationStatusByTag getResults) (sectionTags section)).
Proof.
  unfold getSectionStatus, sectionTags.
  rewrite getStatus_fold, (fold_keepMoreSevere_max isMoreSevereStatus order).
  simpl. rewrite statusesOf_arrayEntries.
  rewrite (maxSeverity_flat_map
             (fun ss => map (getValidationStatusByTag getResults)
                            (subsectionTags ss))
             (getSubsectionStatus isMoreSevereStatus getResults))
    by apply getSubsectionStatus_severity.
  f_equal. induction (orEmpty (sec_subsections section)) as [|ss l IH];
    simpl; [reflexivity|]. now rewrite map_app, IH.
Qed.

(** The status of a section is the most severe validation status among
    the fields of all its subsections taken together: OK exactly when
    every field is OK, ERROR exactly when some field is in error. *)
Theorem section_status_over_all_fields section :
  severity (getSectionStatus isMoreSevereStatus getResults section)
  = maxSeverity
      (map (getValidationStatusByTag getResults) (sectionTags section)) ∧
  (getSectionStatus isMoreSevereStatus getResults section = OK <->
   forall tag, tag ∈ sectionTags section ->
               getValidationStatusByTag getResults tag = OK) ∧
  (getSectionStatus isMoreSevereStatus getResults section = ERROR <->
   ∃ tag, tag ∈ sectionTags section ∧
          getValidationStatusByTag getResults tag = ERROR).
Proof.
  assert (Hsev := getSectionStatus_severity section).
  split; [exact Hsev|]. split.
  - split.
    + intros Hok. rewrite Hok in Hsev. symmetry in Hsev.
      apply maxSeverity_zero in Hsev. rewrite Forall_forall in Hsev.
      intros tag Hin. apply Hsev. apply list_elem_of_fmap. eauto.
    + intros Hall. apply severity_inj. rewrite Hsev. simpl.
      apply maxSeverity_zero, Forall_forall. intros s Hs.
      apply list_elem_of_fmap in Hs as (tag & -> & Hin). now apply Hall.
  - split.
    + intros Herr. rewrite Herr in Hsev. symmetry in Hsev.
      apply maxSeverity_two, Exists_exists in Hsev as (s & Hs & ->).
      apply list_elem_of_fmap in Hs as (tag & Heq & Hin). eauto.
    + intros (tag & Hin & Herr). apply severity_inj. rewrite Hsev. simpl.
      apply maxSeverity_two, Exists_exists. exists ERROR.
      split; [|reflexivity]. apply list_elem_of_fmap. eauto.
Qed.

End RollupOverFields.

(** ** More on the sorted copy *)

Lemma insertSection_withSortOrder k x l :
  withSortOrder k (insertSection x l) = withSortOrder k (x :: l).
Proof.
  unfold withSortOrder. induction l as [|y l IH]; simpl; [reflexivity|].
  destruct (sortOrder_le (sec_sortOrder x) (sec_sortOrder y)) eqn:E;
    [reflexivity|].
  rewrite (filter_cons _ y), IH, !filter_cons.
  destruct (decide (sec_sortOrder x = k)) as [Hx|Hx]; [|reflexivity].
  destruct (decide (sec_sortOrder y = k)) as [Hy|Hy]; [|reflexivity].
  exfalso. rewrite Hx, Hy in E.
  destruct k as [z|]; simpl in E; [|discriminate].
  apply Z.leb_gt in E. lia.
Qed.

Lemma insertSection_head x l :
  Forall (fun y => sortOrder_le (sec_sortOrder x) (sec_sortOrder y) = true) l ->
  insertSection x l = x :: l.
Proof.
  destruct l as [|y l]; [reflexivity|]. intros H.
  apply Forall_cons in H as [H _]. simpl. now rewrite H.
Qed.

(** [_.sortBy(sections, 'sortOrder')] is stable: the sections that share a
    [sortOrder] keep their order.  Sections already in ascending order come
    back as they are, so sorting twice is sorting once. *)
Theorem sortBySortOrder_is_stable l :
  (forall k, withSortOrder k (sortBySortOrder l) = withSortOrder k l) ∧
  (sortOrderSorted l -> sortBySortOrder l = l) ∧
  sortBySortOrder (sortBySortOrder l) = sortBySortOrder l.
Proof.
  assert (Hfixed : forall l', sortOrderSorted l' -> sortBySortOrder l' = l').
  { unfold sortOrderSorted, sortBySortOrder.
    induction 1 as [|x l' Hl IH Hx]; simpl; [reflexivity|].
    rewrite IH. now apply insertSection_head. }
  split; [|split].
  - intros k. unfold sortBySortOrder.
    induction l as [|x l IH]; simpl; [reflexivity|].
    rewrite insertSection_withSortOrder. unfold withSortOrder in *.
    rewrite !filter_cons, IH. reflexivity.
  - apply Hfixed.
  - apply Hfixed. apply sortBySortOrder_sorts.
Qed.

(** ** What decoration leaves behind *)

Lemma bind_inv_ok {A B : Type} (m : M A) (k : A -> M B) this b this' :
  bind m k this = (Ok b, this') ->
  ∃ a mid, m this = (Ok a, mid) ∧ k a mid = (Ok b, this').
Proof.
  unfold bind. destruct (m this) as [[a|e] mid]; [eauto | discriminate].
Qed.

Lemma ret_inv_ok {A : Type} (a b : A) this this' :
  ret a this = (Ok b, this') -> a = b ∧ this = this'.
Proof. unfold ret. intros [= -> ->]. auto. Qed.

Lemma registers_nil this : registers [] this this.
Proof. split; [intros k H; inversion H | reflexivity]. Qed.

Lemma registers_app T1 T2 a b c :
  registers T1 a b -> registers T2 b c -> registers (T1 ++ T2) a c.
Proof.
  intros [H1 H1'] [H2 H2']. split.
  - intros k Hk. apply elem_of_app in Hk.
    destruct (decide (k ∈ T1)) as [Hin1|Hout1].
    + destruct (H1 k Hin1) as [Hnone Hsome]. split; [exact Hnone|].
      destruct (decide (k ∈ T2)) as [Hin2|Hout2].
      * now apply H2.
      * now rewrite H2'.
    + destruct Hk as [Hin1|Hin2]; [contradiction|].
      destruct (H2 k Hin2) as [Hnone Hsome]. split; [|exact Hsome].
      now rewrite <- H1'.
  - intros k Hk. rewrite H2', H1'; [reflexivity| |];
      intros Hin; apply Hk, elem_of_app; auto.
Qed.

Lemma registers_equiv T T' a b :
  (forall k, k ∈ T <-> k ∈ T') -> registers T a b -> registers T' a b.
Proof.
  intros He [H1 H2]. split.
  - intros k Hk. apply H1, He, Hk.
  - intros k Hk. apply H2. intros Hin. apply Hk, He, Hin.
Qed.

Lemma compilePattern_compiled p source :
  compilePattern p ≠ Some (PatString source).
Proof. destruct p as [[s|s|v]|]; simpl; congruence. Qed.

Section Decorating.

Variable getComponentTypeByField : Field -> UiField -> ComponentType.
Variable getComponentConfig : option DataType -> ComponentType -> Component.

Lemma decorateChildren_facts_aux fs :
  Forall (fun p => decoratesWell getComponentTypeByField getComponentConfig
                     (snd p)) fs ->
  forall this fs' this',
    __decorateChildren getComponentTypeByField getComponentConfig fs this
    = (Ok fs', this') ->
    childrenFacts fs this fs' this' ∧ map fst fs' = map fst fs.
Proof.
  induction 1 as [|[t f] fs Hf _ IH]; intros this fs' this' Hrun.
  - apply ret_inv_ok in Hrun as [<- <-].
    split; [|reflexivity].
    split; [apply registers_nil|].
    split; [reflexivity|]. split; [reflexivity|].
    split; constructor.
  - simpl in Hrun.
    apply bind_inv_ok in Hrun as (f' & mid & Hchild & Hrun).
    apply bind_inv_ok in Hrun as (rest' & last & Hrest & Hrun).
    apply ret_inv_ok in Hrun as [<- <-].
    destruct (Hf t None this f' mid Hchild)
      as (Hreg & Hown & Hdec & Hd & Hbelow & Htyped).
    destruct (IH mid rest' last Hrest)
      as ((Hreg' & Htags & Hrefs & Hall & Htypes) & Hkeys).
    simpl in Hreg, Hdec, Htyped.
    destruct Hdec as (Href & ? & Hty & ? & ? & ? & ? & ? & Htb & Hrb).
    split; [|simpl; now rewrite Hkeys].
    unfold childrenFacts, tagsOf, refsOf in *. simpl.
    rewrite !map_app. fold (tagsBelow f') (tagsBelow f) (refsBelow f')
      (refsBelow f).
    rewrite Htb, Hrb, Htags, Hrefs, Href.
    split; [|split; [reflexivity|split; [reflexivity|split]]].
    + apply (registers_app (t :: tagsBelow f) _ this mid last Hreg Hreg').
    + constructor; [exact Hd|]. apply Forall_app. split; assumption.
    + constructor; [|apply Forall_app; split; assumption].
      simpl. rewrite <- Hty. apply Hd.
Qed.

Lemma decorateOptions_facts_aux os :
  Forall (fun o => fieldsAll
                     (decoratesWell getComponentTypeByField getComponentConfig)
                     (o_fields o)) os ->
  forall this os' this',
    decorateOptions getComponentTypeByField getComponentConfig os this
    = (Ok os', this') ->
    optionsFacts os this os' this'.
Proof.
  induction 1 as [|o os Ho _ IH]; intros this os' this' Hrun.
  - apply ret_inv_ok in Hrun as [<- <-].
    split; [apply registers_nil|].
    split; [reflexivity|]. split; [reflexivity|].
    split; constructor.
  - simpl in Hrun.
    apply bind_inv_ok in Hrun as (o' & mid & Hopt & Hrun).
    apply bind_inv_ok in Hrun as (rest' & last & Hrest & Hrun).
    apply ret_inv_ok in Hrun as [<- <-].
    destruct (IH mid rest' last Hrest)
      as (Hreg' & Htags & Hrefs & Hall & Htypes).
    assert (Hone :
      registers (tagsOf (descendantsOfOption o)) this mid ∧
      tagsOf (descendantsOfOption o') = tagsOf (descendantsOfOption o) ∧
      refsOf (descendantsOfOption o') = refsOf (descendantsOfOption o) ∧
      Forall (fun p => decorated (snd p)) (descendantsOfOption o') ∧
      Forall (fun p => is_Some (f_type (snd p))) (descendantsOfOption o)).
    { unfold decorateOption in Hopt. unfold descendantsOfOption.
      unfold fieldsAll in Ho.
      destruct (o_fields o) as [fs|] eqn:Efs.
      - apply bind_inv_ok in Hopt as (fs' & mid' & Hfs & Hopt).
        apply ret_inv_ok in Hopt as [<- <-]. simpl.
        destruct (decorateChildren_facts_aux fs Ho this fs' mid' Hfs)
          as ((? & ? & ? & ? & ?) & _).
        auto.
      - apply ret_inv_ok in Hopt as [<- <-]. rewrite Efs.
        split; [apply registers_nil|].
        split; [reflexivity|]. split; [reflexivity|].
        split; constructor. }
    destruct Hone as (Hreg & Htags1 & Hrefs1 & Hall1 & Htypes1).
    unfold optionsFacts, tagsOf, refsOf in *. simpl.
    rewrite !map_app, Htags, Hrefs, Htags1, Hrefs1.
    split; [|split; [reflexivity|split; [reflexivity|split]]].
    + apply (registers_app _ _ this mid last Hreg Hreg').
    + apply Forall_app. split; assumption.
    + apply Forall_app. split; assumption.
Qed.

Lemma addComponent_fields tag type this uiField this' :
  __addComponentToUiSchemaAndReturnUiField tag type this = (Ok uiField, this')
  -> fields this' = fields this.
Proof.
  unfold __addComponentToUiSchemaAndReturnUiField.
  destruct (uiSchema (definition this)); [|discriminate].
  intros [= _ <-]. reflexivity.
Qed.

Lemma registers_fields_eq T a b a' :
  fields a' = fields a -> registers T a' b -> registers T a b.
Proof. unfold registers. now intros ->. Qed.

Lemma registers_own tag T a b (d : Field) :
  fields a !! tag = None ->
  registers T a b ->
  registers (tag :: T) a (set_fields (<[tag := d]> (fields b)) b).
Proof.
  intros Hnone [H1 H2]. split.
  - intros k Hk. simpl. destruct (decide (k = tag)) as [->|Hne].
    + rewrite lookup_insert_eq. eauto.
    + rewrite lookup_insert_ne by congruence.
      apply elem_of_cons in Hk as [?|Hk]; [contradiction|]. now apply H1.
  - intros k Hk. simpl. apply not_elem_of_cons in Hk as [Hne Hk].
    rewrite lookup_insert_ne by congruence. now apply H2.
Qed.

(** A successful [__decorateField] registers the tag and every tag below,
    keeps the field's own data, and leaves it and every field below
    decorated; every field below had a type. *)
Lemma decorateField_facts field :
  decoratesWell getComponentTypeByField getComponentConfig field.
Proof.
  induction field as [field Hfs Hos] using Field_nested_ind.
  intros tag key this field' this' Hrun.
  rewrite decorateField_unfold in Hrun.
  apply bind_inv_ok in Hrun as (registered & s0 & Hread & Hrun).
  unfold reads in Hread. injection Hread as <- <-.
  destruct (fields this !! tag) eqn:Hfree; [discriminate|].
  destruct (f_type field) as [type|] eqn:Htype; [|discriminate].
  apply bind_inv_ok in Hrun as (uiField & s1 & Hui & Hrun).
  assert (Hs1 : fields s1 = fields this).
  { destruct (suppliedKey key).
    - eapply addComponent_fields, Hui.
    - unfold reads in Hui. now injection Hui as _ <-. }
  cbv zeta in Hrun.
  apply bind_inv_ok in Hrun as (children & s2 & Hch & Hrun).
  apply bind_inv_ok in Hrun as (options & s3 & Hop & Hrun).
  apply bind_inv_ok in Hrun as ([] & s4 & Hmod & Hrun).
  apply ret_inv_ok in Hrun as [<- <-].
  unfold modify in Hmod. injection Hmod as <-.
  assert (Hcf : childrenFacts (orEmpty (f_fields field)) s1
                  (orEmpty children) s2).
  { unfold fieldsAll in Hfs. destruct (f_fields field) as [fs|].
    - apply bind_inv_ok in Hch as (fs' & s2' & Hch & Hret).
      apply ret_inv_ok in Hret as [<- <-].
      apply (decorateChildren_facts_aux fs Hfs s1 fs' s2' Hch).
    - apply ret_inv_ok in Hch as [<- <-].
      split; [apply registers_nil|].
      split; [reflexivity|]. split; [reflexivity|].
      split; constructor. }
  assert (Hof : optionsFacts (orEmpty (f_options field)) s2
                  (orEmpty options) s3).
  { unfold optionsAll in Hos. destruct (f_options field) as [os|].
    - apply bind_inv_ok in Hop as (os' & s3' & Hop & Hret).
      apply ret_inv_ok in Hret as [<- <-].
      apply (decorateOptions_facts_aux os Hos s2 os' s3' Hop).
    - apply ret_inv_ok in Hop as [<- <-].
      split; [apply registers_nil|].
      split; [reflexivity|]. split; [reflexivity|].
      split; constructor. }
  destruct Hcf as (Hreg1 & Htags1 & Hrefs1 & Hall1 & Htypes1).
  destruct Hof as (Hreg2 & Htags2 & Hrefs2 & Hall2 & Htypes2).
  unfold decorateFacts, decorationOf, tagsBelow, refsBelow.
  rewrite !descendants_unfold. simpl f_options. simpl f_fields.
  fold (tagsOf (descendantsOfOptions (orEmpty options) ++
                descendantsOfFields (orEmpty children))).
  fold (refsOf (descendantsOfOptions (orEmpty options) ++
                descendantsOfFields (orEmpty children))).
  unfold tagsOf, refsOf in *. rewrite !map_app.
  rewrite Htags1, Htags2, Hrefs1, Hrefs2.
  split; [|split; [|split; [|split; [|split]]]].
  - apply registers_own; [exact Hfree|].
    apply (registers_fields_eq _ this s3 s1 Hs1).
    eapply registers_equiv; [|exact (registers_app _ _ _ _ _ Hreg1 Hreg2)].
    intros k. rewrite !elem_of_app. tauto.
  - simpl. apply lookup_insert_eq.
  - simpl. rewrite Htype. split_and!; reflexivity.
  - unfold decorated. split_and!; simpl; eauto. intros source.
    apply compilePattern_compiled.
  - apply Forall_app. split; assumption.
  - apply Forall_app. split; assumption.
Qed.

End Decorating.

(** ** The index after decoration *)

Lemma indexed_persists T a b l :
  indexed a l -> registers T a b -> indexed b l.
Proof.
  unfold indexed, getField. intros Ha [H1 H2].
  eapply Forall_impl; [exact Ha|]. intros [k c] Hk. simpl in *.
  destruct (decide (k ∈ T)) as [Hin|Hout].
  - destruct (H1 k Hin) as [Hnone _]. congruence.
  - now rewrite H2.
Qed.

Lemma grown_nil this : grown [] this [] this.
Proof.
  split; [apply registers_nil|].
  split; [reflexivity|]. split; [reflexivity|].
  split; [constructor|]. split; [constructor|]. intros _. constructor.
Qed.

Lemma grown_app l1 l2 l1' l2' a b c :
  grown l1 a l1' b -> grown l2 b l2' c ->
  grown (l1 ++ l2) a (l1' ++ l2') c.
Proof.
  intros (Hr1 & Ht1 & Hf1 & Hd1 & Hy1 & Hi1) (Hr2 & Ht2 & Hf2 & Hd2 & Hy2 & Hi2).
  unfold grown, tagsOf, refsOf, noTagBelowItself, indexed in *.
  rewrite !map_app, Ht1, Ht2, Hf1, Hf2.
  split; [exact (registers_app _ _ _ _ _ Hr1 Hr2)|].
  split; [reflexivity|]. split; [reflexivity|].
  split; [apply Forall_app; auto|]. split; [apply Forall_app; auto|].
  intros Hn. apply Forall_app in Hn as [Hn1 Hn2]. apply Forall_app. split.
  - apply (indexed_persists _ b c l1' (Hi1 Hn1) Hr2).
  - apply Hi2, Hn2.
Qed.

Section Indexing.

Variable getComponentTypeByField : Field -> UiField -> ComponentType.
Variable getComponentConfig : option DataType -> ComponentType -> Component.

Lemma decorateChildren_facts fs this fs' this' :
  __decorateChildren getComponentTypeByField getComponentConfig fs this
  = (Ok fs', this') ->
  childrenFacts fs this fs' this' ∧ map fst fs' = map fst fs.
Proof.
  apply decorateChildren_facts_aux, Forall_forall.
  intros p _. apply decorateField_facts.
Qed.

Lemma decorateOptions_facts os this os' this' :
  decorateOptions getComponentTypeByField getComponentConfig os this
  = (Ok os', this') ->
  optionsFacts os this os' this'.
Proof.
  apply decorateOptions_facts_aux, Forall_forall.
  intros o _. unfold fieldsAll. destruct (o_fields o); [|exact I].
  apply Forall_forall. intros p _. apply decorateField_facts.
Qed.

(** What a run of [__decorateField] that goes through has gone through. *)
Lemma decorateField_inv field tag formComponentKey this field' this' :
  __decorateField getComponentTypeByField getComponentConfig field tag
    formComponentKey this = (Ok field', this') ->
  ∃ uiField s1 s2 s3,
    fields this !! tag = None ∧
    uiFieldRun formComponentKey tag this uiField s1 ∧
    f_uiField field' = Some uiField ∧
    fields s1 = fields this ∧
    childrenRun getComponentTypeByField getComponentConfig
      (f_fields field) s1 (f_fields field') s2 ∧
    optionsRun getComponentTypeByField getComponentConfig
      (f_options field) s2 (f_options field') s3 ∧
    this' = set_fields (<[tag := field']> (fields s3)) s3.
Proof.
  intros Hrun. rewrite decorateField_unfold in Hrun.
  apply bind_inv_ok in Hrun as (registered & s0 & Hread & Hrun).
  unfold reads in Hread. injection Hread as <- <-.
  destruct (fields this !! tag) eqn:Hfree; [discriminate|].
  destruct (f_type field) as [type|] eqn:Htype; [|discriminate].
  apply bind_inv_ok in Hrun as (uiField & s1 & Hui & Hrun).
  assert (Hs1 : fields s1 = fields this).
  { destruct (suppliedKey formComponentKey).
    - eapply addComponent_fields, Hui.
    - unfold reads in Hui. now injection Hui as _ <-. }
  cbv zeta in Hrun.
  apply bind_inv_ok in Hrun as (children & s2 & Hch & Hrun).
  apply bind_inv_ok in Hrun as (options & s3 & Hop & Hrun).
  apply bind_inv_ok in Hrun as ([] & s4 & Hmod & Hrun).
  apply ret_inv_ok in Hrun as [<- <-].
  unfold modify in Hmod. injection Hmod as <-.
  exists uiField, s1, s2, s3. simpl f_fields. simpl f_options.
  split; [reflexivity|].
  split; [|split; [reflexivity|]].
  { unfold uiFieldRun. destruct (suppliedKey formComponentKey);
      [exact Hui|]. unfold reads in Hui. injection Hui as <- <-. auto. }
  split; [exact Hs1|].
  split; [|split; [|reflexivity]].
  - unfold childrenRun. destruct (f_fields field) as [fs|].
    + apply bind_inv_ok in Hch as (fs' & s2' & Hch & Hret).
      apply ret_inv_ok in Hret as [<- <-]. eauto.
    + apply ret_inv_ok in Hch as [<- <-]. auto.
  - unfold optionsRun. destruct (f_options field) as [os|].
    + apply bind_inv_ok in Hop as (os' & s3' & Hop & Hret).
      apply ret_inv_ok in Hret as [<- <-]. eauto.
    + apply ret_inv_ok in Hop as [<- <-]. auto.
Qed.

Lemma decorateChildren_indexed_aux fs :
  Forall (fun p => indexesWell getComponentTypeByField getComponentConfig
                     (snd p)) fs ->
  forall this fs' this',
    __decorateChildren getComponentTypeByField getComponentConfig fs this
    = (Ok fs', this') ->
    noTagBelowItself (descendantsOfFields fs) ->
    indexed this' (descendantsOfFields fs').
Proof.
  induction 1 as [|[t f] fs Hf _ IH]; intros this fs' this' Hrun Hn.
  - apply ret_inv_ok in Hrun as [<- <-]. constructor.
  - simpl in Hrun.
    apply bind_inv_ok in Hrun as (f' & mid & Hchild & Hrun).
    apply bind_inv_ok in Hrun as (rest' & last & Hrest & Hrun).
    apply ret_inv_ok in Hrun as [<- <-].
    simpl in Hn. apply Forall_cons in Hn as [Ht Hn].
    apply Forall_app in Hn as [Hnf Hnrest]. simpl in Ht, Hf.
    pose proof (Hf t None this f' mid Hchild Ht Hnf) as Hchild_indexed.
    destruct (decorateChildren_facts fs mid rest' last Hrest)
      as ((Hreg & _) & _).
    pose proof (indexed_persists _ mid last _ Hchild_indexed Hreg) as Hkept.
    unfold indexed in *. simpl.
    apply Forall_cons in Hkept as [Hown Hbelow].
    constructor; [exact Hown|]. apply Forall_app. split; [exact Hbelow|].
    apply (IH mid rest' last Hrest Hnrest).
Qed.

Lemma decorateOptions_indexed_aux os :
  Forall (fun o => fieldsAll
                     (indexesWell getComponentTypeByField getComponentConfig)
                     (o_fields o)) os ->
  forall this os' this',
    decorateOptions getComponentTypeByField getComponentConfig os this
    = (Ok os', this') ->
    noTagBelowItself (descendantsOfOptions os) ->
    indexed this' (descendantsOfOptions os').
Proof.
  induction 1 as [|o os Ho _ IH]; intros this os' this' Hrun Hn.
  - apply ret_inv_ok in Hrun as [<- <-]. constructor.
  - simpl in Hrun.
    apply bind_inv_ok in Hrun as (o' & mid & Hopt & Hrun).
    apply bind_inv_ok in Hrun as (rest' & last & Hrest & Hrun).
    apply ret_inv_ok in Hrun as [<- <-].
    simpl in Hn. apply Forall_app in Hn as [Hno Hnrest].
    destruct (decorateOptions_facts os mid rest' last Hrest) as (Hreg & _).
    assert (Hone : indexed mid (descendantsOfOption o')).
    { unfold decorateOption in Hopt. unfold descendantsOfOption in *.
      unfold fieldsAll in Ho.
      destruct (o_fields o) as [fs|] eqn:Efs.
      - apply bind_inv_ok in Hopt as (fs' & mid' & Hfs & Hopt).
        apply ret_inv_ok in Hopt as [<- <-]. simpl.
        apply (decorateChildren_indexed_aux fs Ho this fs' mid' Hfs Hno).
      - apply ret_inv_ok in Hopt as [<- <-]. rewrite Efs. constructor. }
    unfold indexed in *. simpl. apply Forall_app. split.
    + apply (indexed_persists _ mid last _ Hone Hreg).
    + apply (IH mid rest' last Hrest Hnrest).
Qed.

(** When no tag comes back below itself, the index answers the tag of the
    field, and every tag below it, with the decorated field of the tree. *)
Lemma decorateField_indexed field :
  indexesWell getComponentTypeByField getComponentConfig field.
Proof.
  induction field as [field Hfs Hos] using Field_nested_ind.
  intros tag key this field' this' Hrun Htag Hn.
  destruct (decorateField_facts getComponentTypeByField getComponentConfig
              field tag key this field' this' Hrun)
    as (_ & Hown & Hdec & _).
  destruct Hdec as (_ & _ & _ & _ & _ & _ & _ & _ & Htb & _).
  apply decorateField_inv in Hrun
    as (uiField & s1 & s2 & s3 & Hfree & _ & _ & Hs1 & Hch & Hop & Hlast).
  rewrite descendants_unfold in Hn. apply Forall_app in Hn as [Hno Hnf].
  assert (Hfields : indexed s3 (descendantsOfFields (orEmpty (f_fields field')))).
  { assert (H2 : indexed s2 (descendantsOfFields (orEmpty (f_fields field')))).
    { unfold childrenRun in Hch. unfold fieldsAll in Hfs.
      destruct (f_fields field) as [fs|].
      - destruct Hch as (fs' & -> & Hch). simpl.
        apply (decorateChildren_indexed_aux fs Hfs s1 fs' s2 Hch Hnf).
      - destruct Hch as [-> _]. constructor. }
    unfold optionsRun in Hop. destruct (f_options field) as [os|].
    - destruct Hop as (os' & _ & Hop).
      destruct (decorateOptions_facts os s2 os' s3 Hop) as (Hreg & _).
      apply (indexed_persists _ s2 s3 _ H2 Hreg).
    - destruct Hop as [_ ->]. exact H2. }
  assert (Hoptions :
    indexed s3 (descendantsOfOptions (orEmpty (f_options field')))).
  { unfold optionsRun in Hop. unfold optionsAll in Hos.
    destruct (f_options field) as [os|].
    - destruct Hop as (os' & -> & Hop). simpl.
      apply (decorateOptions_indexed_aux os Hos s2 os' s3 Hop Hno).
    - destruct Hop as [-> _]. constructor. }
  unfold indexed. constructor; [exact Hown|].
  assert (Hbelow : indexed s3 (descendants field')).
  { rewrite descendants_unfold. apply Forall_app. split; assumption. }
  unfold indexed in Hbelow. rewrite Forall_forall in Hbelow.
  apply Forall_forall. intros [k c] Hin. simpl.
  pose proof (Hbelow _ Hin) as Hk. simpl in Hk.
  assert (Hne : k ≠ tag).
  { intros ->. apply Htag. rewrite <- Htb. unfold tagsBelow.
    apply (list_elem_of_fmap_2 fst _ (tag, c)), Hin. }
  subst this'. unfold getField in *. simpl.
  rewrite lookup_insert_ne by congruence. exact Hk.
Qed.

(** The run over a collection of keyed fields. *)
Lemma decorateChildren_grown fs this fs' this' :
  __decorateChildren getComponentTypeByField getComponentConfig fs this
  = (Ok fs', this') ->
  grown (descendantsOfFields fs) this (descendantsOfFields fs') this'.
Proof.
  intros Hrun.
  destruct (decorateChildren_facts fs this fs' this' Hrun)
    as ((Hreg & Htags & Hrefs & Hall & Htyped) & _).
  split; [exact Hreg|]. split; [exact Htags|]. split; [exact Hrefs|].
  split; [exact Hall|]. split; [exact Htyped|].
  apply (decorateChildren_indexed_aux fs) with (this := this);
    [|exact Hrun].
  apply Forall_forall. intros p _. apply decorateField_indexed.
Qed.

Lemma decorateSubsection_grown s this s' this' :
  decorateSubsection getComponentTypeByField getComponentConfig s this
  = (Ok s', this') ->
  grown (descendantsOfSubsection s) this (descendantsOfSubsection s') this'.
Proof.
  unfold decorateSubsection, descendantsOfSubsection.
  destruct (ss_fields s) as [fs|] eqn:Efs; intros Hrun.
  - apply bind_inv_ok in Hrun as (fs' & mid & Hfs & Hret).
    apply ret_inv_ok in Hret as [<- <-]. simpl.
    apply decorateChildren_grown, Hfs.
  - apply ret_inv_ok in Hrun as [<- <-]. rewrite Efs. apply grown_nil.
Qed.

Lemma decorateSubsections_grown l : forall this l' this',
  decorateSubsections getComponentTypeByField getComponentConfig l this
  = (Ok l', this') ->
  grown (flat_map descendantsOfSubsection l) this
        (flat_map descendantsOfSubsection l') this'.
Proof.
  induction l as [|s l IH]; intros this l' this' Hrun.
  - apply ret_inv_ok in Hrun as [<- <-]. apply grown_nil.
  - simpl in Hrun.
    apply bind_inv_ok in Hrun as (s' & mid & Hs & Hrun).
    apply bind_inv_ok in Hrun as (rest' & last & Hrest & Hrun).
    apply ret_inv_ok in Hrun as [<- <-]. simpl.
    eapply grown_app; [apply decorateSubsection_grown, Hs | apply IH, Hrest].
Qed.

Lemma decorateSection_grown s this s' this' :
  decorateSection getComponentTypeByField getComponentConfig s this
  = (Ok s', this') ->
  grown (descendantsOfSection s) this (descendantsOfSection s') this' ∧
  sec_sortOrder s' = sec_sortOrder s.
Proof.
  unfold decorateSection, descendantsOfSection.
  destruct (sec_subsections s) as [l|] eqn:El; intros Hrun.
  - apply bind_inv_ok in Hrun as (l' & mid & Hl & Hret).
    apply ret_inv_ok in Hret as [<- <-]. simpl.
    split; [|reflexivity]. apply decorateSubsections_grown, Hl.
  - apply ret_inv_ok in Hrun as [<- <-]. rewrite El.
    split; [apply grown_nil | reflexivity].
Qed.

Lemma decorateSections_grown l : forall this l' this',
  decorateSections getComponentTypeByField getComponentConfig l this
  = (Ok l', this') ->
  grown (descendantsOfSections l) this (descendantsOfSections l') this' ∧
  map sec_sortOrder l' = map sec_sortOrder l.
Proof.
  induction l as [|s l IH]; intros this l' this' Hrun.
  - apply ret_inv_ok in Hrun as [<- <-]. split; [apply grown_nil|reflexivity].
  - simpl in Hrun.
    apply bind_inv_ok in Hrun as (s' & mid & Hs & Hrun).
    apply bind_inv_ok in Hrun as (rest' & last & Hrest & Hrun).
    apply ret_inv_ok in Hrun as [<- <-].
    destruct (decorateSection_grown s this s' mid Hs) as [Hg Ho].
    destruct (IH mid rest' last Hrest) as [Hg' Ho'].
    split; [|simpl; now rewrite Ho, Ho'].
    unfold descendantsOfSections. simpl.
    eapply grown_app; [exact Hg | exact Hg'].
Qed.

End Indexing.

Lemma sortOrderSorted_by_orders l : forall l',
  map sec_sortOrder l' = map sec_sortOrder l ->
  sortOrderSorted l -> sortOrderSorted l'.
Proof.
  unfold sortOrderSorted.
  induction l as [|x l IH]; intros [|x' l'] Heq Hs; try discriminate;
    [constructor|].
  simpl in Heq. injection Heq as Hx Hl.
  apply StronglySorted_inv in Hs as [Hs Hall].
  constructor; [apply IH; assumption|].
  rewrite Hx.
  apply (proj1 (List.Forall_map sec_sortOrder
                  (fun o => sortOrder_le (sec_sortOrder x) o = true) l')).
  rewrite Hl.
  apply (proj2 (List.Forall_map sec_sortOrder
                  (fun o => sortOrder_le (sec_sortOrder x) o = true) l)).
  exact Hall.
Qed.

Lemma registers_permutation T T' a b :
  Permutation T T' -> registers T a b -> registers T' a b.
Proof.
  intros Hp. apply registers_equiv. intros k. now rewrite Hp.
Qed.

Section DecorationProperties.

Variable getComponentTypeByField : Field -> UiField -> ComponentType.
Variable getComponentConfig : option DataType -> ComponentType -> Component.

Lemma decorateChildren_app before : forall rest this fs' this',
  __decorateChildren getComponentTypeByField getComponentConfig
    (before ++ rest) this = (Ok fs', this') ->
  ∃ before' mid rest',
    __decorateChildren getComponentTypeByField getComponentConfig before this
    = (Ok before', mid) ∧
    __decorateChildren getComponentTypeByField getComponentConfig rest mid
    = (Ok rest', this').
Proof.
  induction before as [|[t f] before IH]; intros rest this fs' this' Hrun.
  - exists [], this, fs'. split; [reflexivity | exact Hrun].
  - simpl in Hrun.
    apply bind_inv_ok in Hrun as (f' & s1 & Hf & Hrun).
    apply bind_inv_ok in Hrun as (tail' & s2 & Htail & Hrun).
    apply ret_inv_ok in Hrun as [<- <-].
    destruct (IH rest s1 tail' s2 Htail) as (b' & mid & r' & Hb & Hr).
    exists ((t, f') :: b'), mid, r'. split; [|exact Hr].
    simpl. unfold bind. rewrite Hf, Hb. reflexivity.
Qed.

(** A run of [__decorateField] that goes through puts the tag and every
    tag below the field into the index, none of which it held before, and
    leaves every other entry alone; [getField(tag)] then answers the field
    as decorated. *)
Theorem decorateField_registers_the_tree
    field tag formComponentKey this field' this' :
  __decorateField getComponentTypeByField getComponentConfig field tag
    formComponentKey this = (Ok field', this') ->
  registers (tag :: tagsBelow field) this this' ∧
  getField this' tag = Some field'.
Proof.
  intros Hrun.
  destruct (decorateField_facts getComponentTypeByField getComponentConfig
              field tag formComponentKey this field' this' Hrun)
    as (Hreg & Hown & _).
  split; [exact Hreg | exact Hown].
Qed.

(** A run of [__decorateField] that goes through keeps what the field
    says of itself (its id, type, calculation flag, domain definition,
    show condition and default-value conditions, and the tags below it),
    compiles a string pattern, and leaves the field and every field below
    it with a UI field, a component type and a component. *)
Theorem decorateField_keeps_and_decorates
    field tag formComponentKey this field' this' :
  __decorateField getComponentTypeByField getComponentConfig field tag
    formComponentKey this = (Ok field', this') ->
  decorationOf field field' ∧
  decorated field' ∧
  Forall (fun p => decorated (snd p)) (descendants field').
Proof.
  intros Hrun.
  destruct (decorateField_facts getComponentTypeByField getComponentConfig
              field tag formComponentKey this field' this' Hrun)
    as (_ & _ & Hdec & Hd & Hall & _).
  auto.
Qed.

(** A field without a type, wherever it sits at or below the field being
    decorated, makes [__decorateField] throw. *)
Theorem decorateField_throws_at_an_untyped_field
    field tag formComponentKey this k c :
  (k, c) ∈ (tag, field) :: descendants field ->
  f_type c = None ->
  throws (__decorateField getComponentTypeByField getComponentConfig field
            tag formComponentKey) this.
Proof.
  intros Hin Hnone. unfold throws.
  destruct (__decorateField getComponentTypeByField getComponentConfig field
              tag formComponentKey this) as [[field'|e] this'] eqn:Hrun;
    [|eauto].
  exfalso.
  destruct (decorateField_facts getComponentTypeByField getComponentConfig
              field tag formComponentKey this field' this' Hrun)
    as (_ & _ & Hdec & Hd & _ & Htyped).
  apply elem_of_cons in Hin as [Heq|Hin].
  - injection Heq as -> ->.
    destruct Hdec as (_ & _ & Hty & _). destruct Hd as [[ty Hsome] _].
    congruence.
  - rewrite Forall_forall in Htyped.
    destruct (Htyped _ Hin) as [ty Hsome]. simpl in Hsome. congruence.
Qed.

(** A tag that was met under an earlier field of a collection, or is the
    tag of one, and comes back as the tag of a later field or below it,
    makes [__decorateChildren] throw. *)
Theorem decorateChildren_refuses_a_tag_met_before
    before t f after k this :
  k ∈ tagsOf (descendantsOfFields before) ->
  k ∈ t :: tagsBelow f ->
  throws (__decorateChildren getComponentTypeByField getComponentConfig
            (before ++ (t, f) :: after)) this.
Proof.
  intros Hbefore Hlater. unfold throws.
  destruct (__decorateChildren getComponentTypeByField getComponentConfig
              (before ++ (t, f) :: after) this) as [[fs'|e] this'] eqn:Hrun;
    [|eauto].
  exfalso.
  apply decorateChildren_app in Hrun as (b' & mid & r' & Hb & Hr).
  destruct (decorateChildren_facts getComponentTypeByField getComponentConfig
              before this b' mid Hb) as (((Hin & _) & _) & _).
  destruct (Hin k Hbefore) as [_ [registered Hsome]].
  simpl in Hr.
  apply bind_inv_ok in Hr as (f' & s1 & Hf & _).
  destruct (decorateField_facts getComponentTypeByField getComponentConfig
              f t None mid f' s1 Hf) as ((Hfree & _) & _).
  destruct (Hfree k Hlater) as [Hnone _]. congruence.
Qed.

(** When the tag does not come back below the field, and no field below
    carries its own tag again below itself, the index after a run that
    goes through answers the tag, and every tag below, with the decorated
    field of the tree. *)
Theorem decorateField_index_answers_the_tree
    field tag formComponentKey this field' this' :
  __decorateField getComponentTypeByField getComponentConfig field tag
    formComponentKey this = (Ok field', this') ->
  tag ∉ tagsBelow field ->
  noTagBelowItself (descendants field) ->
  indexed this' ((tag, field') :: descendants field').
Proof. apply decorateField_indexed. Qed.

(** The UI field of a decorated field.  With a component key the field
    holds the entry that the UI schema holds for its tag afterwards, and
    that entry names the key as its component.  Without one the
    definition is left as it was, and the field holds the entry the UI
    schema had for the tag, or the empty object. *)
Theorem decorateField_ui_field
    field tag formComponentKey this field' this' :
  __decorateField getComponentTypeByField getComponentConfig field tag
    formComponentKey this = (Ok field', this') ->
  ∃ uiField,
    f_uiField field' = Some uiField ∧
    match suppliedKey formComponentKey with
    | Some type =>
        getUiSchemaField this' tag = Some uiField ∧
        ui_component uiField = Some type
    | None =>
        definition this' = definition this ∧
        uiField = match getUiSchemaField this tag with
                  | Some uiField => uiField
                  | None => emptyUiField
                  end
    end.
Proof.
  intros Hrun.
  apply decorateField_inv in Hrun
    as (uiField & s1 & s2 & s3 & _ & Hui & Hfield & _ & Hch & Hop & ->).
  exists uiField. split; [exact Hfield|].
  assert (Hdef : definition s3 = definition s1).
  { assert (H2 : definition s2 = definition s1).
    { unfold childrenRun in Hch. destruct (f_fields field) as [fs|].
      - destruct Hch as (fs' & _ & Hch).
        pose proof (proj1 (decorateChildren_preserves
                             getComponentTypeByField getComponentConfig
                             fs s1)) as Hp.
        now rewrite Hch in Hp.
      - now destruct Hch as [_ ->]. }
    unfold optionsRun in Hop. destruct (f_options field) as [os|].
    - destruct Hop as (os' & _ & Hop).
      pose proof (proj1 (decorateOptions_preserves
                           getComponentTypeByField getComponentConfig
                           os s2)) as Hp.
      rewrite Hop in Hp. simpl in Hp. congruence.
    - destruct Hop as [_ ->]. exact H2. }
  unfold uiFieldRun in Hui.
  destruct (suppliedKey formComponentKey) as [type|].
  - unfold getUiSchemaField. simpl. rewrite Hdef.
    unfold __addComponentToUiSchemaAndReturnUiField in Hui.
    destruct (uiSchema (definition this)) as [ui|]; [|discriminate].
    injection Hui as <- <-. simpl. rewrite lookup_insert_eq. auto.
  - destruct Hui as [-> ->]. simpl. auto.
Qed.

(** [__initFields], when it goes through, puts every tag of the schema
    into the index, none of which it held before, keeps the sections in
    ascending sort order, leaves every field of the sections decorated,
    and, when no field carries its own tag again below itself, has the
    index answer every tag with the field of its sections. *)
Theorem initFields_builds_the_index this this' :
  __initFields getComponentTypeByField getComponentConfig this
  = (Ok tt, this') ->
  registers (tagsOf (descendantsOfSections (getSchemaSections this)))
    this this' ∧
  sortOrderSorted (sections this') ∧
  Forall (fun p => decorated (snd p)) (descendantsOfSections (sections this')) ∧
  (noTagBelowItself (descendantsOfSections (getSchemaSections this)) ->
   indexed this' (descendantsOfSections (sections this'))).
Proof.
  intros Hrun. unfold __initFields in Hrun.
  apply bind_inv_ok in Hrun as ([] & s0 & Hsort & Hrun).
  unfold modify in Hsort. injection Hsort as <-.
  apply bind_inv_ok in Hrun as (copy & s0' & Hread & Hrun).
  unfold reads in Hread. injection Hread as <- <-.
  apply bind_inv_ok in Hrun as (l' & s1 & Hdec & Hrun).
  unfold modify in Hrun. injection Hrun as <-.
  simpl sections in Hdec. unfold jsonCopy in Hdec.
  destruct (sortBySortOrder_sorts (getSchemaSections this)) as [Hperm Hsorted].
  destruct (decorateSections_grown getComponentTypeByField getComponentConfig
              _ _ _ _ Hdec)
    as ((Hreg & _ & _ & Hall & _ & Hindexed) & Horders).
  assert (Hfields :
    Permutation
      (descendantsOfSections (sortBySortOrder (getSchemaSections this)))
      (descendantsOfSections (getSchemaSections this))).
  { unfold descendantsOfSections. now apply Permutation_flat_map. }
  split; [|split; [|split]].
  - eapply registers_permutation.
    + unfold tagsOf. apply Permutation_map, Hfields.
    + exact Hreg.
  - simpl. apply (sortOrderSorted_by_orders _ _ Horders Hsorted).
  - exact Hall.
  - intros Hn. simpl sections. apply Hindexed.
    unfold noTagBelowItself in *. now rewrite Hfields.
Qed.

(** [__addComponentToUiSchemaAndReturnUiField], on a definition with a UI
    schema, returns the entry the UI schema then holds for the tag; the
    entry names the type as its component and keeps what it held
    besides; a second call returns the same entry and changes nothing. *)
Theorem addComponent_stores_what_it_returns tag type this ui :
  uiSchema (definition this) = Some ui ->
  ∃ uiField this',
    __addComponentToUiSchemaAndReturnUiField tag type this
    = (Ok uiField, this') ∧
    getUiSchemaField this' tag = Some uiField ∧
    ui_component uiField = Some type ∧
    ui_annotations uiField
    = ui_annotations (default emptyUiField (ui !! tag)) ∧
    __addComponentToUiSchemaAndReturnUiField tag type this'
    = (Ok uiField, this').
Proof.
  intros Hui. unfold __addComponentToUiSchemaAndReturnUiField.
  rewrite Hui. eexists _, _. split; [reflexivity|].
  unfold getUiSchemaField. simpl. rewrite !lookup_insert_eq. simpl.
  rewrite insert_insert_eq.
  split; [reflexivity|]. split; [reflexivity|].
  split; [destruct (ui !! tag); reflexivity|].
  reflexivity.
Qed.

End DecorationProperties.

Lemma decorateField_registers_the_tree_witness :
  ∃ field' this',
    __decorateField sampleComponentTypeByField sampleComponentConfig
      sampleChoice "choice" None sampleFreshForm = (Ok field', this') ∧
    registers ["choice"; "a"; "b"; "g"] sampleFreshForm this' ∧
    getField this' "choice" = Some field'.
Proof.
  eexists _, _. split; [vm_compute; reflexivity|].
  apply (decorateField_registers_the_tree sampleComponentTypeByField
           sampleComponentConfig sampleChoice "choice" None sampleFreshForm).
  vm_compute. reflexivity.
Defined.

Lemma decorateField_keeps_and_decorates_witness :
  ∃ field' this',
    __decorateField sampleComponentTypeByField sampleComponentConfig
      sampleChoice "choice" None sampleFreshForm = (Ok field', this') ∧
    decorationOf sampleChoice field' ∧
    decorated field' ∧
    Forall (fun p => decorated (snd p)) (descendants field').
Proof.
  eexists _, _. split; [vm_compute; reflexivity|].
  eapply (decorateField_keeps_and_decorates sampleComponentTypeByField
            sampleComponentConfig sampleChoice "choice" None sampleFreshForm).
  vm_compute. reflexivity.
Defined.

Lemma decorateField_throws_at_an_untyped_field_witness :
  ("b", sampleUntyped)
    ∈ ("choice", sampleChoiceUntyped) :: descendants sampleChoiceUntyped ∧
  f_type sampleUntyped = None ∧
  throws (__decorateField sampleComponentTypeByField sampleComponentConfig
            sampleChoiceUntyped "choice" None) sampleFreshForm.
Proof.
  assert (Hin : ("b", sampleUntyped)
            ∈ ("choice", sampleChoiceUntyped)
              :: descendants sampleChoiceUntyped).
  { vm_compute. in_cons. }
  split; [exact Hin|]. split; [reflexivity|].
  apply (decorateField_throws_at_an_untyped_field sampleComponentTypeByField
           sampleComponentConfig sampleChoiceUntyped "choice" None
           sampleFreshForm "b" sampleUntyped Hin).
  reflexivity.
Defined.

Lemma decorateChildren_refuses_a_tag_met_before_witness :
  "x" ∈ tagsOf (descendantsOfFields
                  [("a", withFields [("x", plainField 2 STRING)]
                           (plainField 1 STRING))]) ∧
  "x" ∈ "b" :: tagsBelow (withFields [("x", plainField 4 STRING)]
                            (plainField 3 STRING)) ∧
  throws (__decorateChildren sampleComponentTypeByField sampleComponentConfig
            ([("a", withFields [("x", plainField 2 STRING)]
                      (plainField 1 STRING))] ++
             ("b", withFields [("x", plainField 4 STRING)]
                     (plainField 3 STRING)) :: []))
         sampleCousinForm.
Proof.
  assert (H1 : "x" ∈ tagsOf (descendantsOfFields
                  [("a", withFields [("x", plainField 2 STRING)]
                           (plainField 1 STRING))])).
  { vm_compute. in_cons. }
  assert (H2 : "x" ∈ "b" :: tagsBelow (withFields [("x", plainField 4 STRING)]
                            (plainField 3 STRING))).
  { vm_compute. in_cons. }
  split; [exact H1|]. split; [exact H2|].
  apply (decorateChildren_refuses_a_tag_met_before sampleComponentTypeByField
           sampleComponentConfig _ _ _ [] "x" sampleCousinForm H1 H2).
Defined.

Lemma decorateField_index_answers_the_tree_witness :
  ("choice" ∉ tagsBelow sampleChoice) ∧
  noTagBelowItself (descendants sampleChoice) ∧
  ∃ field' this',
    __decorateField sampleComponentTypeByField sampleComponentConfig
      sampleChoice "choice" None sampleFreshForm = (Ok field', this') ∧
    indexed this' (("choice", field') :: descendants field').
Proof.
  assert (H1 : "choice" ∉ tagsBelow sampleChoice) by not_in_cons.
  assert (H2 : noTagBelowItself (descendants sampleChoice)).
  { unfold noTagBelowItself. rewrite descendants_unfold. simpl.
    repeat constructor; not_in_cons. }
  split; [exact H1|]. split; [exact H2|].
  eexists _, _. split; [vm_compute; reflexivity|].
  apply (decorateField_index_answers_the_tree sampleComponentTypeByField
           sampleComponentConfig sampleChoice "choice" None sampleFreshForm);
    [vm_compute; reflexivity | exact H1 | exact H2].
Defined.

Lemma decorateField_ui_field_witness :
  ∃ field' this',
    __decorateField sampleComponentTypeByField sampleComponentConfig
      sampleChoice "choice" (Some "checkboxgroup") sampleFreshForm
    = (Ok field', this') ∧
    ∃ uiField,
      f_uiField field' = Some uiField ∧
      getUiSchemaField this' "choice" = Some uiField ∧
      ui_component uiField = Some "checkboxgroup".
Proof.
  eexists _, _. split; [vm_compute; reflexivity|].
  apply (decorateField_ui_field sampleComponentTypeByField
           sampleComponentConfig sampleChoice "choice"
           (Some "checkboxgroup") sampleFreshForm).
  vm_compute. reflexivity.
Defined.

Lemma initFields_builds_the_index_witness :
  ∃ this',
    __initFields sampleComponentTypeByField sampleComponentConfig
      sampleFreshForm = (Ok tt, this') ∧
    registers ["b"; "a"] sampleFreshForm this' ∧
    sortOrderSorted (sections this') ∧
    Forall (fun p => decorated (snd p))
           (descendantsOfSections (sections this')) ∧
    (noTagBelowItself (descendantsOfSections (getSchemaSections sampleFreshForm))
     -> indexed this' (descendantsOfSections (sections this'))).
Proof.
  eexists. split; [vm_compute; reflexivity|].
  apply (initFields_builds_the_index sampleComponentTypeByField
           sampleComponentConfig sampleFreshForm).
  vm_compute. reflexivity.
Defined.

Lemma addComponent_stores_what_it_returns_witness :
  uiSchema (definition sampleFreshForm)
  = Some {[ "a" := mkUiField (Some "textarea") 0 ]} ∧
  ∃ uiField this',
    __addComponentToUiSchemaAndReturnUiField "a" "checkboxgroup"
      sampleFreshForm = (Ok uiField, this') ∧
    getUiSchemaField this' "a" = Some uiField ∧
    ui_component uiField = Some "checkboxgroup" ∧
    ui_annotations uiField
    = ui_annotations
        (default emptyUiField
           (({[ "a" := mkUiField (Some "textarea") 0 ]}
               : gmap string UiField) !! "a")) ∧
    __addComponentToUiSchemaAndReturnUiField "a" "checkboxgroup" this'
    = (Ok uiField, this').
Proof.
  split; [reflexivity|].
  apply (addComponent_stores_what_it_returns "a" "checkboxgroup"
           sampleFreshForm {[ "a" := mkUiField (Some "textarea") 0 ]}).
  reflexivity.
Defined.

(** ** The further properties at sample forms *)

Lemma clearFields_twice_witness :
  hasValue_spec VUndefined = false ∧
  (forall t f, (t, f) ∈ [("city", plainField 2 STRING)] ->
               hasValue_spec (getModelValue (formOf ∅ ∅) t) = false) ∧
  __clearFields hasValue_spec blank_spec [("city", plainField 2 STRING)]
    (formOf ∅ ∅) = formOf ∅ ∅ ∧
  __clearFields hasValue_spec blank_spec [("city", plainField 2 STRING)]
    (__clearFields hasValue_spec blank_spec [("city", plainField 2 STRING)]
       sampleStreetForm)
  = __clearFields hasValue_spec blank_spec [("city", plainField 2 STRING)]
      sampleStreetForm.
Proof.
  assert (Hnone : forall t (f : Field),
            (t, f) ∈ [("city", plainField 2 STRING)] ->
            hasValue_spec (getModelValue (formOf ∅ ∅) t) = false).
  { intros t f _. reflexivity. }
  split; [reflexivity|]. split; [exact Hnone|]. split.
  - exact (proj1 (clearFields_twice hasValue_spec blank_spec eq_refl
                    [("city", plainField 2 STRING)] (formOf ∅ ∅)) Hnone).
  - exact (proj2 (clearFields_twice hasValue_spec blank_spec eq_refl
                    [("city", plainField 2 STRING)] sampleStreetForm)).
Defined.

Lemma setModelValue_twice_witness :
  hasValue_spec VUndefined = false ∧
  (VArr [VStr "A"] ≠ VUndefined -> wellNested "choice" sampleChoice) ∧
  setModelValue hasValue_spec blank_spec "choice" (VArr [VStr "A"])
    sampleChoice
    (setModelValue hasValue_spec blank_spec "choice" (VArr [VStr "A"])
       sampleChoice sampleChoiceForm)
  = setModelValue hasValue_spec blank_spec "choice" (VArr [VStr "A"])
      sampleChoice sampleChoiceForm.
Proof.
  assert (H : VArr [VStr "A"] ≠ VUndefined -> wellNested "choice" sampleChoice).
  { intros _. split; not_in_cons. }
  split; [reflexivity|]. split; [exact H|].
  exact (setModelValue_twice hasValue_spec blank_spec eq_refl "choice"
           (VArr [VStr "A"]) sampleChoice sampleChoiceForm H).
Defined.

Lemma calculateFields_nothing_to_calculate_witness :
  f_calc sampleA = true ∧
  calcTriggerMap (definition (formOf ∅ ∅)) = None ∧
  calculateFields hasValue_spec blank_spec sampleEvalCondition
    sampleEvalExpression sampleOnUpdate sampleA (formOf ∅ ∅)
  = (Throw TypeError, formOf ∅ ∅) ∧
  calcExpressionMap (definition sampleExpressionlessForm) = None ∧
  calculateFields hasValue_spec blank_spec sampleEvalCondition
    sampleEvalExpression sampleOnUpdate sampleA sampleExpressionlessForm
  = (Ok tt, sampleExpressionlessForm).
Proof.
  split; [reflexivity|]. split; [reflexivity|]. split.
  - exact (proj1 (calculateFields_nothing_to_calculate hasValue_spec
                    blank_spec sampleEvalCondition sampleEvalExpression
                    sampleOnUpdate sampleA (formOf ∅ ∅) eq_refl) eq_refl).
  - split; [reflexivity|].
    exact (proj2 (calculateFields_nothing_to_calculate hasValue_spec
                    blank_spec sampleEvalCondition sampleEvalExpression
                    sampleOnUpdate sampleA sampleExpressionlessForm eq_refl)
                 {[ "fieldId1" := ["total"]; "fieldId2" := ["total"] ]}
                 eq_refl (or_intror eq_refl)).
Defined.

Lemma calculateFields_throws_around_the_write_witness :
  f_calc sampleA = true ∧
  getCalcExpressionByTag sampleUnindexedForm "total" = Some (mkExpr 0) ∧
  getField sampleUnindexedForm "total" = None ∧
  calculateFields hasValue_spec blank_spec sampleEvalCondition
    sampleEvalExpression sampleOnUpdate sampleA sampleUnindexedForm
  = (Throw TypeError, sampleUnindexedForm) ∧
  getField sampleUntriggeredForm "total" = Some sampleTotal ∧
  defaultValueTriggerMap (definition sampleUntriggeredForm) = None ∧
  calculateFields hasValue_spec blank_spec sampleEvalCondition
    sampleEvalExpression sampleOnUpdate sampleA sampleUntriggeredForm
  = (Throw TypeError,
     setModelValue hasValue_spec blank_spec "total" (VNum 12) sampleTotal
       sampleUntriggeredForm).
Proof.
  split; [reflexivity|]. split; [reflexivity|]. split; [reflexivity|]. split.
  - exact (proj1 (calculateFields_throws_around_the_write hasValue_spec
                    blank_spec sampleEvalCondition sampleEvalExpression
                    sampleOnUpdate sampleA sampleUnindexedForm
                    {[ "fieldId1" := ["total"]; "fieldId2" := ["total"] ]}
                    "total" [] (mkExpr 0) eq_refl eq_refl eq_refl eq_refl)
                 eq_refl).
  - split; [reflexivity|]. split; [reflexivity|].
    exact (proj2 (calculateFields_throws_around_the_write hasValue_spec
                    blank_spec sampleEvalCondition sampleEvalExpression
                    sampleOnUpdate sampleA sampleUntriggeredForm
                    {[ "fieldId1" := ["total"]; "fieldId2" := ["total"] ]}
                    "total" [] (mkExpr 0) eq_refl eq_refl eq_refl eq_refl)
                 sampleTotal eq_refl eq_refl).
Defined.

Lemma evaluateDefaultValueConditions_without_effect_witness :
  getField sampleQuietForm "quiet" = Some sampleQuiet ∧
  f_defaultValueConditions sampleQuiet = Some [] ∧
  evaluateDefaultValueConditions hasValue_spec blank_spec sampleEvalCondition
    sampleEvalExpression sampleOnUpdate ["quiet"] sampleQuietForm
  = (Ok tt, sampleQuietForm) ∧
  getField sampleTotalForm "totalRadio" = Some sampleTotalRadio ∧
  resolveDefaultValueConditions sampleTotalRadio
  = map Some [mkConditionalExpression (mkExpr 1) (mkExpr 2)] ∧
  Forall (fun c => sampleEvalCondition (ce_condition c) sampleTotalForm
                   = false)
         [mkConditionalExpression (mkExpr 1) (mkExpr 2)] ∧
  evaluateDefaultValueConditions hasValue_spec blank_spec sampleEvalCondition
    sampleEvalExpression sampleOnUpdate ["totalRadio"] sampleTotalForm
  = (Ok tt, sampleTotalForm).
Proof.
  assert (Hfalse :
    Forall (fun c => sampleEvalCondition (ce_condition c) sampleTotalForm
                     = false)
           [mkConditionalExpression (mkExpr 1) (mkExpr 2)]).
  { repeat constructor. }
  split; [reflexivity|]. split; [reflexivity|]. split.
  - exact (proj1 (evaluateDefaultValueConditions_without_effect
                    hasValue_spec blank_spec sampleEvalCondition
                    sampleEvalExpression sampleOnUpdate "quiet" sampleQuiet
                    sampleQuietForm eq_refl) eq_refl).
  - split; [reflexivity|]. split; [reflexivity|]. split; [exact Hfalse|].
    exact (proj2 (evaluateDefaultValueConditions_without_effect
                    hasValue_spec blank_spec sampleEvalCondition
                    sampleEvalExpression sampleOnUpdate "totalRadio"
                    sampleTotalRadio sampleTotalForm eq_refl)
                 [mkConditionalExpression (mkExpr 1) (mkExpr 2)]
                 eq_refl Hfalse).
Defined.

Lemma evaluateDefaultValueConditions_throws_at_undefined_witness :
  getField samplePickForm "pick" = Some samplePick ∧
  resolveDefaultValueConditions samplePick
  = map Some [] ++
    None :: [Some (mkConditionalExpression (mkExpr 3) (mkExpr 4))] ∧
  evaluateDefaultValueConditions hasValue_spec blank_spec sampleEvalCondition
    sampleEvalExpression sampleOnUpdate ["pick"] samplePickForm
  = (Throw TypeError, samplePickForm).
Proof.
  split; [reflexivity|]. split; [reflexivity|].
  exact (proj2 (evaluateDefaultValueConditions_throws_at_undefined
                  hasValue_spec blank_spec sampleEvalCondition
                  sampleEvalExpression sampleOnUpdate "pick" samplePick
                  samplePickForm eq_refl)
               [] [Some (mkConditionalExpression (mkExpr 3) (mkExpr 4))]
               eq_refl).
Defined.

Lemma section_status_over_all_fields_witness :
  ordersBySeverity isMoreSevereStatus_spec ∧
  severity (getSectionStatus isMoreSevereStatus_spec sampleResults
              sampleStatusSection)
  = maxSeverity [OK; WARNING; WARNING; ERROR; OK].
Proof.
  split; [exact isMoreSevereStatus_spec_orders|].
  exact (proj1 (section_status_over_all_fields isMoreSevereStatus_spec
                  sampleResults isMoreSevereStatus_spec_orders
                  sampleStatusSection)).
Defined.

Lemma sortBySortOrder_is_stable_witness :
  sortOrderSorted sampleSortedSections ∧
  sortBySortOrder sampleSortedSections = sampleSortedSections.
Proof.
  assert (H : sortOrderSorted sampleSortedSections).
  { repeat constructor. }
  split; [exact H|].
  exact (proj1 (proj2 (sortBySortOrder_is_stable sampleSortedSections)) H).
Defined.

Lemma getStatus_answers_a_status_it_met_witness :
  (forall a b : Status, (fun _ _ => false) a b = false) ∧
  getStatus (fun _ _ => false) [("a", plainField 1 STRING)]
    (fun x : StatusArgument string Field => ERROR) true = OK.
Proof.
  split; [reflexivity|].
  exact (proj2 (getStatus_answers_a_status_it_met (fun _ _ => false)
                  string Field [("a", plainField 1 STRING)]
                  (fun x : StatusArgument string Field => ERROR) true)
               (fun a b => eq_refl)).
Defined.
